(** * Neural-Splines: the kernel engine of [common/falkon_kernels.py]

    A shallow embedding of the kernel functions ([k_arccos], [k_ntk],
    [k_spherical_laplace]), of the three kernel classes with their staged
    ([_prepare] / [_apply] / [_finalize]), symbolic ([_keops_mmv_impl]) and
    dense ([direct_kernel]) evaluation paths, of [extract_float] and of
    [DirectKernelSolver].

    Numbers.  A tensor element is an exact real; an operation that leaves the
    finite reals in IEEE arithmetic (a division by zero, an inverse cosine
    outside [-1, 1], a power outside its domain) yields a tagged fault that
    every later operation propagates, the way a NaN does.  An infinity is not
    followed further (IEEE arithmetic would bring [clamp(inf)] back to 1): no
    statement below concludes anything from a fault that stands for one.
    Rounding is not modelled, with one exception: "within tolerance" in the
    specification is read as equality of the exact values, and a dot product
    or a norm "as computed" is an arbitrary real.  The exception is the cosine
    of the symbolic arc-cosine formula, the one inverse cosine taken without a
    clamp: it is also evaluated in binary64, where it can pass 1.

    Libraries.  The operations of PyTorch, the launch of a CuPy raw kernel,
    the reduction of a KeOps formula and the order in which Falkon calls
    [_prepare], [_apply] and [_finalize] are not code of this repository;
    each is written out where it is used, with the convention it follows.
    Device arrays are contiguous and row-major.

    Python.  A call either returns a value or raises; [result] is the error
    monad with the exception that was raised. *)

From Stdlib Require Import Floats.
From Stdlib Require Import String.
From Stdlib Require Import Reals Lra Lia ZArith Bool Arith List.
From Stdlib Require Import ClassicalEpsilon.
Import ListNotations.

Local Open Scope R_scope.

(* ================================================================== *)
(** * Python results and exceptions *)
(* ================================================================== *)

Inductive exn : Type :=
| AttributeError (msg : string)
| ValueError (msg : string)
| TypeError (msg : string)
| RuntimeError (msg : string).

Inductive result (A : Type) : Type :=
| Ok (a : A)
| Raise (e : exn).

Arguments Ok {A} a.
Arguments Raise {A} e.

Definition bind {A B : Type} (c : result A) (k : A -> result B) : result B :=
  match c with
  | Ok a => k a
  | Raise e => Raise e
  end.

Notation "x <- c ;; k" := (bind c (fun x => k))
  (at level 61, c at next level, right associativity).

(* ================================================================== *)
(** * Tensor elements *)
(* ================================================================== *)

(** Why an element stopped being a finite number. *)
Inductive fault : Type :=
| ZeroByZero     (* 0 / 0, a NaN *)
| DivByZero      (* x / 0 for x <> 0, an infinity *)
| AcosDomain     (* acos of a value outside [-1, 1] *)
| PowNegBase     (* negative base, exponent not an integer *)
| PowZeroNeg.    (* zero to a negative power *)

Inductive num : Type :=
| Val (r : R)
| Bad (f : fault).

Definition lift1 (f : R -> R) (a : num) : num :=
  match a with
  | Val x => Val (f x)
  | Bad e => Bad e
  end.

Definition lift2 (f : R -> R -> R) (a b : num) : num :=
  match a, b with
  | Val x, Val y => Val (f x y)
  | Bad e, _ => Bad e
  | _, Bad e => Bad e
  end.

Definition nadd : num -> num -> num := lift2 Rplus.
Definition nsub : num -> num -> num := lift2 Rminus.
Definition nmul : num -> num -> num := lift2 Rmult.

(** The fault of [x / 0]. *)
Definition div_fault (x : R) : fault :=
  if Req_dec_T x 0 then ZeroByZero else DivByZero.

(** [a / b]; a zero divisor gives a NaN or an infinity. *)
Definition ndiv (a b : num) : num :=
  match a, b with
  | Val x, Val y => if Req_dec_T y 0 then Bad (div_fault x) else Val (x / y)
  | Bad e, _ => Bad e
  | _, Bad e => Bad e
  end.

(** [torch.clamp(a, lo, hi)] is [min(max(a, lo), hi)]; a NaN stays a NaN. *)
Definition clamp (lo hi : R) (a : num) : num :=
  lift1 (fun x => Rmin (Rmax x lo) hi) a.

(** [torch.acos]: NaN outside [-1, 1]. *)
Definition nacos (a : num) : num :=
  match a with
  | Val x =>
      if Rle_dec (-1) x then
        if Rle_dec x 1 then Val (acos x) else Bad AcosDomain
      else Bad AcosDomain
  | Bad e => Bad e
  end.

Definition nsin : num -> num := lift1 sin.
Definition ncos : num -> num := lift1 cos.
Definition nexp : num -> num := lift1 exp.

(** [y] is an integer. *)
Definition is_integer (y : R) : Prop := exists z : Z, y = IZR z.

Definition is_integer_dec (y : R) : {is_integer y} + {~ is_integer y} :=
  excluded_middle_informative (is_integer y).

(** [torch.pow(x, y)] on reals, by the cases of C's [pow]. *)
Definition rpow (x y : R) : num :=
  if Rlt_dec 0 x then Val (Rpower x y)
  else if Req_dec_T x 0 then
    if Req_dec_T y 0 then Val 1
    else if Rlt_dec 0 y then Val 0
    else Bad PowZeroNeg
  else
    if is_integer_dec y
    then Val (powerRZ x (Int_part y))
    else Bad PowNegBase.

Definition npow (a b : num) : num :=
  match a, b with
  | Val x, Val y => rpow x y
  | Bad e, _ => Bad e
  | _, Bad e => Bad e
  end.

(** C's [atan2(y, x)], the angle of the point (x, y); [atan2(0, 0)] is 0. *)
Definition atan2 (y x : R) : R :=
  if Rlt_dec 0 x then atan (y / x)
  else if Rlt_dec x 0 then
    if Rle_dec 0 y then atan (y / x) + PI else atan (y / x) - PI
  else
    if Rlt_dec 0 y then PI / 2
    else if Rlt_dec y 0 then - (PI / 2)
    else 0.

(* ================================================================== *)
(** * Tensors *)
(* ================================================================== *)

(** A 2-D tensor of shape [(length rows, ncols)].  The column count is kept
    apart so that a tensor without rows still has a feature dimension. *)
Record tensor : Type := mkT { ncols : nat; rows : list (list R) }.

Definition nrows (T : tensor) : nat := length (rows T).

Definition wf (T : tensor) : Prop :=
  Forall (fun r => length r = ncols T) (rows T).

(** A Python reference to a tensor; [None] is Python's [None]. *)
Definition pyref : Type := option tensor.

(** [t.unsqueeze(dim)]: attribute lookup fails on [None]. *)
Definition unsqueeze (t : pyref) : result tensor :=
  match t with
  | Some T => Ok T
  | None => Raise (AttributeError "'NoneType' object has no attribute 'unsqueeze'")
  end.

Fixpoint map2 {A B C : Type} (f : A -> B -> C) (l : list A) (m : list B) : list C :=
  match l, m with
  | a :: l', b :: m' => f a b :: map2 f l' m'
  | _, _ => []
  end.

Definition rsum (l : list R) : R := fold_right Rplus 0 l.

(** [(u * v).sum(-1)] for two rows of one length. *)
Definition dot (u v : list R) : R := rsum (map2 Rmult u v).

(** [torch.norm(u, dim=-1)]: the Euclidean norm of a row. *)
Definition norm (u : list R) : R := sqrt (dot u u).

(** Broadcasting of the last dimension of [x * xp]: equal sizes, or one of
    them 1; anything else raises. *)
Definition broadcast_dim (d1 d2 : nat) : result nat :=
  if Nat.eqb d1 d2 then Ok d1
  else if Nat.eqb d1 1 then Ok d2
  else if Nat.eqb d2 1 then Ok d1
  else Raise (RuntimeError "The size of tensor a must match the size of tensor b").

(** A row of size 1 expanded to size [d]; a row of size [d] unchanged. *)
Definition expand (d : nat) (u : list R) : list R :=
  if Nat.eqb (length u) d then u else repeat (hd 0 u) d.

(** [outer f X Y]: the matrix whose (i, j) entry is [f] of row i of [X] and
    row j of [Y]. *)
Definition outer {A B C : Type} (f : A -> B -> C) (X : list A) (Y : list B)
  : list (list C) :=
  map (fun a => map (fun b => f a b) Y) X.

(** A 2-D tensor whose elements may be non-finite: kernel matrices and the
    [out] buffers of the staged path. *)
Record block : Type := mkB { bcols : nat; brows : list (list num) }.

Definition brows_n (A : block) : nat := length (brows A).

Definition wfb (A : block) : Prop :=
  Forall (fun r => length r = bcols A) (brows A).

(** [torch.zeros(n, m)] *)
Definition zeros (n m : nat) : block := mkB m (repeat (repeat (Val 0) m) n).

(* ================================================================== *)
(** * The kernel functions *)
(* ================================================================== *)

(** Lines 50-57 of [k_arccos] at one position (i, j): every operation after
    the reduction [sum(-1)] is elementwise, so position (i, j) sees the dot
    product and the two norms of row i of [x] and row j of [xp]. *)
Definition arccos_entry (x_dot_xp norm_x norm_xp : R) : num :=
  let norm_x_xp := Val (norm_x * norm_xp) in
  let cos_alpha_x := clamp (-1) 1 (ndiv (Val x_dot_xp) norm_x_xp) in
  let alpha_x := nacos cos_alpha_x in
  let sin_alpha_x := nsin alpha_x in
  let K := nmul norm_x_xp
             (nadd sin_alpha_x (nmul (nsub (Val PI) alpha_x) cos_alpha_x)) in
  ndiv K (Val PI).

Definition k_arccos (x xp : pyref) : result block :=
  x <- unsqueeze x ;;
  xp <- unsqueeze xp ;;
  d <- broadcast_dim (ncols x) (ncols xp) ;;
  Ok (mkB (nrows xp)
        (outer (fun u v =>
                  arccos_entry (dot (expand d u) (expand d v)) (norm u) (norm v))
           (rows x) (rows xp))).

(** Lines 68-75 of [k_ntk] at one position. *)
Definition ntk_entry (variance x_dot_xp norm_x norm_xp : R) : num :=
  let norm_x_xp := Val (norm_x * norm_xp) in
  let cos_alpha_x := clamp (-1) 1 (ndiv (Val x_dot_xp) norm_x_xp) in
  let alpha_x := nacos cos_alpha_x in
  let sin_alpha_x := nsin alpha_x in
  let K := nmul norm_x_xp
             (nadd sin_alpha_x
                (nmul (nmul (Val (1 + variance)) (nsub (Val PI) alpha_x))
                   cos_alpha_x)) in
  ndiv K (Val PI).

Definition k_ntk (x xp : pyref) (variance : R) : result block :=
  x <- unsqueeze x ;;
  xp <- unsqueeze xp ;;
  d <- broadcast_dim (ncols x) (ncols xp) ;;
  Ok (mkB (nrows xp)
        (outer (fun u v =>
                  ntk_entry variance (dot (expand d u) (expand d v))
                    (norm u) (norm v))
           (rows x) (rows xp))).

(** [torch.exp(alpha * torch.pow(1.0 - cos_alpha_x, gamma))] at one
    position, lines 35-39 of [k_spherical_laplace]. *)
Definition laplace_exp (gamma alpha x_dot_xp norm_x norm_xp : R) : num :=
  let norm_x_xp := Val (norm_x * norm_xp) in
  let cos_alpha_x := clamp (-1) 1 (ndiv (Val x_dot_xp) norm_x_xp) in
  nexp (nmul (Val alpha) (npow (nsub (Val 1) cos_alpha_x) (Val gamma))).

(** [k_spherical_laplace].  The trailing [.squeeze(-1)] applies to the
    exponential alone: when [xp] has exactly one row it drops that dimension,
    and the product with [norm_x_xp], of shape [s1, 1], then broadcasts to
    shape [s1, s1]. *)
Definition k_spherical_laplace (x xp : pyref) (gamma alpha : R) : result block :=
  x <- unsqueeze x ;;
  xp <- unsqueeze xp ;;
  d <- broadcast_dim (ncols x) (ncols xp) ;;
  let norm_x_xp := outer (fun u v => norm u * norm v) (rows x) (rows xp) in
  let E := outer (fun u v =>
                    laplace_exp gamma alpha (dot (expand d u) (expand d v))
                      (norm u) (norm v))
             (rows x) (rows xp) in
  if Nat.eqb (nrows xp) 1 then
    let e := map (fun r => hd (Val 0) r) E in
    Ok (mkB (nrows x)
          (map (fun n => map (fun ek => nmul (Val (hd 0 n)) ek) e) norm_x_xp))
  else
    Ok (mkB (nrows xp)
          (map2 (fun n r => map2 (fun nij eij => nmul (Val nij) eij) n r)
             norm_x_xp E)).

(* ================================================================== *)
(** * Python values and [extract_float] *)
(* ================================================================== *)

(** The Python objects a caller may pass as a hyperparameter. *)
Inductive pyval : Type :=
| PyFloat (r : R)
| PyInt (z : Z)
| PyBool (b : bool)
| PyStr (s : string)
| PyNone
| PyList (l : list R)
| PyTensor (shape : list nat) (data : list R).

(** [tensor.item()] on a tensor holding [data]: the element when there is
    exactly one, a [ValueError] otherwise (the comment of line 17). *)
Definition item (data : list R) : result R :=
  match data with
  | [r] => Ok r
  | _ => Raise (ValueError "only one element tensors can be converted to Python scalars")
  end.

Section PythonFloat.

(** Python's parser of float literals: [float("1.5")]; [None] when the
    string is not a number. *)
Variable float_of_string : string -> option R.

(** The builtin [float(d)]. *)
Definition py_float (d : pyval) : result R :=
  match d with
  | PyFloat r => Ok r
  | PyInt z => Ok (IZR z)
  | PyBool b => Ok (if b then 1 else 0)
  | PyStr s =>
      match float_of_string s with
      | Some r => Ok r
      | None => Raise (ValueError "could not convert string to float")
      end
  | PyNone => Raise (TypeError "float() argument must be a string or a real number, not 'NoneType'")
  | PyList _ => Raise (TypeError "float() argument must be a string or a real number, not 'list'")
  | PyTensor _ data => item data
  end.

Definition extract_float (d : pyval) : result R :=
  match d with
  | PyTensor _ data =>
      match item data with
      | Ok r => Ok r
      | Raise (ValueError _) => Raise (ValueError "Item is not a scalar")
      | Raise e => Raise e
      end
  | _ =>
      match py_float d with
      | Ok r => Ok r
      | Raise (TypeError _) => Raise (TypeError "Item must be a scalar or a tensor.")
      | Raise e => Raise e
      end
  end.

(** [d] reduces to a single scalar: a tensor with exactly one element, or a
    value that [float] converts. *)
Definition is_scalar (d : pyval) : bool :=
  match d with
  | PyFloat _ | PyInt _ | PyBool _ => true
  | PyStr s => match float_of_string s with Some _ => true | None => false end
  | PyNone | PyList _ => false
  | PyTensor _ data => Nat.eqb (length data) 1
  end.

(* ================================================================ *)
(** * The kernel classes *)
(* ================================================================ *)

(** A constructed kernel object with the attributes its [__init__]
    stores. *)
Inductive kernel : Type :=
| ArcCosineKernel
| NeuralTangentKernel (variance : pyval)
| LaplaceKernelSphere (alpha gamma : R).

(** [ArcCosineKernel.__init__(opt)] *)
Definition ArcCosineKernel_init : result kernel := Ok ArcCosineKernel.

(** [NeuralTangentKernel.__init__(variance, opt)]: line 192 stores the
    argument as it is. *)
Definition NeuralTangentKernel_init (variance : pyval) : result kernel :=
  Ok (NeuralTangentKernel variance).

(** [LaplaceKernelSphere.__init__(alpha, gamma, opt)], lines 341-342. *)
Definition LaplaceKernelSphere_init (alpha gamma : pyval) : result kernel :=
  a <- extract_float alpha ;;
  g <- extract_float gamma ;;
  Ok (LaplaceKernelSphere a g).

End PythonFloat.

(* ================================================================== *)
(** * In-place tensor operations *)
(* ================================================================== *)

(** The auxiliary data [_prepare] hands to [_finalize]. *)
Definition aux : Type := list tensor.

(** [T] broadcast to shape [(n, m)]: each dimension of [T] equals the target
    or is 1; anything else raises. *)
Definition expand_to (n m : nat) (T : tensor) : result (list (list R)) :=
  if (Nat.eqb (nrows T) n || Nat.eqb (nrows T) 1)
     && (Nat.eqb (ncols T) m || Nat.eqb (ncols T) 1)
  then
    let rs := map (expand m) (rows T) in
    Ok (if Nat.eqb (nrows T) n then rs else repeat (hd [] rs) n)
  else Raise (RuntimeError "The size of tensor a must match the size of tensor b").

(** [A.op_(T)]: elementwise with [T] broadcast to the shape of [A]. *)
Definition inplace (f : num -> num -> num) (A : block) (T : tensor) : result block :=
  E <- expand_to (brows_n A) (bcols A) T ;;
  Ok (mkB (bcols A)
        (map2 (fun ra rt => map2 (fun a t => f a (Val t)) ra rt) (brows A) E)).

(** [A.op_(c)] for a scalar, and [op(A)]. *)
Definition mapb (f : num -> num) (A : block) : block :=
  mkB (bcols A) (map (map f) (brows A)).

(** [A.op_(B)] for two blocks of one shape. *)
Definition zipb (f : num -> num -> num) (A B : block) : block :=
  mkB (bcols A) (map2 (map2 f) (brows A) (brows B)).

(** [X.T] *)
Fixpoint transpose_rows (d : nat) (rs : list (list R)) : list (list R) :=
  match rs with
  | [] => repeat [] d
  | r :: rs' => map2 cons r (transpose_rows d rs')
  end.

Definition transpose (T : tensor) : tensor :=
  mkT (nrows T) (transpose_rows (ncols T) (rows T)).

(** Row vector times matrix: the combination of the rows of [B] with the
    coefficients [a], a row of [m] elements. *)
Fixpoint vm (m : nat) (a : list R) (B : list (list R)) : list R :=
  match a, B with
  | ak :: a', bk :: B' => map2 Rplus (map (Rmult ak) bk) (vm m a' B')
  | _, _ => repeat 0 m
  end.

(** [A @ B] *)
Definition matmul (A B : tensor) : list (list R) :=
  map (fun a => vm (ncols B) a (rows B)) (rows A).

(** [out.addmm_(X1, X2)]: [out += X1 @ X2], for [out] of shape [(n, m)],
    [X1] of shape [(n, k)] and [X2] of shape [(k, m)]. *)
Definition addmm_ (out : block) (X1 X2 : tensor) : result block :=
  if Nat.eqb (ncols X1) (nrows X2)
     && Nat.eqb (brows_n out) (nrows X1)
     && Nat.eqb (bcols out) (ncols X2)
  then
    Ok (mkB (bcols out)
          (map2 (map2 (fun o p => nadd o (Val p))) (brows out) (matmul X1 X2)))
  else Raise (RuntimeError "mat1 and mat2 shapes cannot be multiplied").

(* ================================================================== *)
(** * The device kernel of [NeuralTangentKernel._apply] *)
(* ================================================================== *)

Definition fma (a b c : R) : R := a * b + c.

(** A read of a device array. *)
Definition rd (x : list R) (i : nat) : R := nth i x 0.

(** A write into a device array. *)
Fixpoint store (out : list num) (i : nat) (v : num) : list num :=
  match out, i with
  | [], _ => []
  | _ :: t, O => v :: t
  | h :: t, S i' => h :: store t i' v
  end.

(** One thread of [stable_kernel], lines 250-293, at global position
    [(I, J)]; it returns the [out] array as the thread leaves it. *)
Definition stable_kernel (x1 x2 : list R) (out : list num) (variance : R)
    (N M D : nat) (I J : nat) : list num :=
  if Nat.leb N I || Nat.leb M J then out
  else
    let '(norm_x, norm_y) :=
      fold_left
        (fun '(norm_x, norm_y) k =>
           (fma (rd x1 (I * D + k)%nat) (rd x1 (I * D + k)%nat) norm_x,
            fma (rd x2 (J * D + k)%nat) (rd x2 (J * D + k)%nat) norm_y))
        (seq 0 D) (0, 0) in
    let norm_x := sqrt norm_x in
    let norm_y := sqrt norm_y in
    let '(arg1, arg2) :=
      fold_left
        (fun '(arg1, arg2) k =>
           let x1_ik := rd x1 (I * D + k)%nat in
           let x2_jk := rd x2 (J * D + k)%nat in
           let a1 := norm_y * x1_ik - norm_x * x2_jk in
           let a2 := norm_y * x1_ik + norm_x * x2_jk in
           (fma a1 a1 arg1, fma a2 a2 arg2))
        (seq 0 D) (0, 0) in
    let arg1 := sqrt arg1 in
    let arg2 := sqrt arg2 in
    let angle := 2 * atan2 arg1 arg2 in
    let norm_xy := norm_x * norm_y in
    let cos_angle := cos angle in
    let sin_angle := sin angle in
    let opv := 1 + variance in
    let K := norm_xy * (sin_angle + opv * (PI - angle) * cos_angle) / PI in
    store out (I * M + J)%nat (Val K).

(** The global positions of a launch with [grid] blocks of [blk] threads:
    [I = blockIdx.x * blockDim.x + threadIdx.x], and [J] likewise. *)
Definition launch_positions (grid blk : nat * nat) : list (nat * nat) :=
  flat_map (fun bx =>
    flat_map (fun by_ =>
      flat_map (fun tx =>
        map (fun ty => (bx * fst blk + tx, by_ * snd blk + ty)%nat)
          (seq 0 (snd blk)))
        (seq 0 (fst blk)))
      (seq 0 (snd grid)))
    (seq 0 (fst grid)).

(** The most threads a block may hold on a CUDA device. *)
Definition max_threads_per_block : nat := 1024.

(** [kernel(grid, block, args)] of CuPy's [RawKernel]: a grid or block
    dimension below 1 is raised to 1; the launch is refused when a block has
    more threads than the device allows; otherwise every thread of the grid
    runs.  The threads write disjoint cells, so running them one after the
    other gives the array they leave. *)
Definition launch (grid blk : nat * nat)
    (thread : nat -> nat -> list num -> list num) (out : list num)
  : result (list num) :=
  let grid := (Nat.max 1 (fst grid), Nat.max 1 (snd grid)) in
  let blk := (Nat.max 1 (fst blk), Nat.max 1 (snd blk)) in
  if Nat.ltb max_threads_per_block (fst blk * snd blk)%nat
  then Raise (RuntimeError "CUDA_ERROR_INVALID_VALUE: invalid launch configuration")
  else
    Ok (fold_left (fun buf p => thread (fst p) (snd p) buf)
          (launch_positions grid blk) out).

(** A flat array cut into [n] rows of [m] elements. *)
Fixpoint chunks (m n : nat) (flat : list num) : list (list num) :=
  match n with
  | O => []
  | S n' => firstn m flat :: chunks m n' (skipn m flat)
  end.

Section Staged.

Variable float_of_string : string -> option R.

(** ** ArcCosineKernel *)

(** [_prepare]: the norms of the rows of [X1], of shape [s1, 1], and of
    the rows of [X2], of shape [1, s2]. *)
Definition ArcCosineKernel_prepare (X1 X2 : tensor) : aux :=
  [ mkT 1 (map (fun u => [norm u]) (rows X1));
    mkT (nrows X2) [map norm (rows X2)] ].

(** [_apply]; the caller passes [X2] transposed. *)
Definition ArcCosineKernel_apply (X1 X2 : tensor) (out : block) : result block :=
  addmm_ out X1 X2.

(** [_finalize], lines 158-174, one binding for each statement. *)
Definition ArcCosineKernel_finalize (A : block) (d : aux) : result block :=
  match d with
  | [n1; n2] =>
      A <- inplace ndiv A n1 ;;
      A <- inplace ndiv A n2 ;;
      let A := mapb (clamp (-1) 1) A in
      let B := mapb nacos A in
      let C := mapb nsin B in
      let B := mapb (fun b => nmul b (Val (-1))) B in
      let B := mapb (fun b => nadd b (Val PI)) B in
      let A := zipb nmul A B in
      let A := zipb nadd A C in
      A <- inplace nmul A n1 ;;
      A <- inplace nmul A n2 ;;
      Ok (mapb (fun a => ndiv a (Val PI)) A)
  | _ => Raise (ValueError "not enough values to unpack")
  end.

Definition ArcCosineKernel_direct_kernel (X1 X2 : pyref) : result block :=
  k_arccos X1 X2.

(** ** NeuralTangentKernel *)

Definition NeuralTangentKernel_prepare (X1 X2 : tensor) : aux := [].

(** [_apply], lines 295-315.  [kernel(threads, blocks, ...)] passes
    [threads = (16, 16)] as the grid and [blocks] as the block of CuPy's
    [kernel(grid, block, args)].  The raw kernel indexes its arrays by the
    sizes it is given; where these are not the sizes of the arrays the
    accesses are out of bounds, and the model stops with an error. *)
Definition NeuralTangentKernel_apply (variance : pyval) (X1 X2 : tensor)
    (out : block) : result block :=
  let X2 := transpose X2 in
  let x1cp := concat (rows X1) in
  let x2cp := concat (rows X2) in
  let outcp := concat (brows out) in
  let pt_dim := ncols X1 in
  let dims := (nrows X1, nrows X2) in
  let threads := (16, 16)%nat in
  let blocks := (((fst dims + fst threads - 1) / fst threads)%nat,
                 ((snd dims + snd threads - 1) / snd threads)%nat) in
  v <- py_float float_of_string variance ;;
  if Nat.eqb (ncols X2) pt_dim
     && Nat.eqb (brows_n out) (fst dims)
     && Nat.eqb (bcols out) (snd dims)
  then
    r <- launch threads blocks
           (fun I J buf =>
              stable_kernel x1cp x2cp buf v (fst dims) (snd dims) pt_dim I J)
           outcp ;;
    Ok (mkB (bcols out) (chunks (bcols out) (brows_n out) r))
  else Raise (RuntimeError "device array accessed out of bounds").

Definition NeuralTangentKernel_finalize (A : block) (d : aux) : result block :=
  Ok A.

(** Line 326: the dense path of the neural tangent kernel. *)
Definition NeuralTangentKernel_direct_kernel (variance : pyval)
    (X1 X2 : pyref) : result block :=
  k_arccos X1 X2.

(** ** LaplaceKernelSphere *)

Definition LaplaceKernelSphere_prepare (X1 X2 : tensor) : aux :=
  [ mkT 1 (map (fun u => [norm u]) (rows X1));
    mkT (nrows X2) [map norm (rows X2)] ].

Definition LaplaceKernelSphere_apply (X1 X2 : tensor) (out : block) : result block :=
  addmm_ out X1 X2.

(** [_finalize], lines 394-407. *)
Definition LaplaceKernelSphere_finalize (alpha gamma : R) (A : block) (d : aux)
  : result block :=
  match d with
  | [n1; n2] =>
      A <- inplace ndiv A n1 ;;
      A <- inplace ndiv A n2 ;;
      let A := mapb (clamp (-1) 1) A in
      let A := mapb (fun a => nmul a (Val (-1))) A in
      let A := mapb (fun a => nadd a (Val 1)) A in
      let A := mapb (fun a => npow a (Val gamma)) A in
      let A := mapb (fun a => nmul a (Val alpha)) A in
      let A := mapb nexp A in
      A <- inplace nmul A n1 ;;
      A <- inplace nmul A n2 ;;
      Ok A
  | _ => Raise (ValueError "not enough values to unpack")
  end.

Definition LaplaceKernelSphere_direct_kernel (alpha gamma : R) (X1 X2 : pyref)
  : result block :=
  k_spherical_laplace X1 X2 gamma alpha.

(** ** The capability set, by kernel variant *)

Definition prepare (k : kernel) (X1 X2 : tensor) : aux :=
  match k with
  | ArcCosineKernel => ArcCosineKernel_prepare X1 X2
  | NeuralTangentKernel _ => NeuralTangentKernel_prepare X1 X2
  | LaplaceKernelSphere _ _ => LaplaceKernelSphere_prepare X1 X2
  end.

Definition apply (k : kernel) (X1 X2 : tensor) (out : block) : result block :=
  match k with
  | ArcCosineKernel => ArcCosineKernel_apply X1 X2 out
  | NeuralTangentKernel variance => NeuralTangentKernel_apply variance X1 X2 out
  | LaplaceKernelSphere _ _ => LaplaceKernelSphere_apply X1 X2 out
  end.

Definition finalize (k : kernel) (A : block) (d : aux) : result block :=
  match k with
  | ArcCosineKernel => ArcCosineKernel_finalize A d
  | NeuralTangentKernel _ => NeuralTangentKernel_finalize A d
  | LaplaceKernelSphere alpha gamma => LaplaceKernelSphere_finalize alpha gamma A d
  end.

Definition direct_kernel (k : kernel) (X1 X2 : pyref) : result block :=
  match k with
  | ArcCosineKernel => ArcCosineKernel_direct_kernel X1 X2
  | NeuralTangentKernel variance => NeuralTangentKernel_direct_kernel variance X1 X2
  | LaplaceKernelSphere alpha gamma => LaplaceKernelSphere_direct_kernel alpha gamma X1 X2
  end.

(** The staged path over one block: [_prepare], [_apply] into a zeroed
    block with [X2] transposed, [_finalize]. *)
Definition staged (k : kernel) (X1 X2 : tensor) : result block :=
  let d := prepare k X1 X2 in
  out <- apply k X1 (transpose X2) (zeros (nrows X1) (nrows X2)) ;;
  finalize k out d.

End Staged.

(* ================================================================== *)
(** * The symbolic path: KeOps formulas *)
(* ================================================================== *)

(** The value of a KeOps formula at one pair (i, j): a vector, or the error
    the engine raises for a formula whose dimensions do not fit. *)
Definition kval : Type := result (list num).

Definition kvar (u : list R) : kval := Ok (map Val u).

(** A parameter [Pm(1)]. *)
Definition Pm (r : R) : kval := Ok [Val r].

Definition kun (f : num -> num) (a : kval) : kval :=
  a <- a ;; Ok (map f a).

(** A binary operation: elementwise on equal dimensions, a dimension of 1
    broadcast. *)
Definition kbin (f : num -> num -> num) (a b : kval) : kval :=
  a <- a ;;
  b <- b ;;
  if Nat.eqb (length a) (length b) then Ok (map2 f a b)
  else if Nat.eqb (length a) 1 then Ok (map (f (hd (Val 0) a)) b)
  else if Nat.eqb (length b) 1 then Ok (map (fun x => f x (hd (Val 0) b)) a)
  else Raise (ValueError "Incompatible dimensions in KeOps formula").

Definition nsum (l : list num) : num := fold_right nadd (Val 0) l.

(** KeOps's [Rsqrt], which is 0 at 0. *)
Definition rsqrt (x : R) : R := if Req_dec_T x 0 then 0 else 1 / sqrt x.

Definition SqNorm2 (a : list num) : num := nsum (map (fun x => nmul x x) a).

Definition Norm2 (a : kval) : kval :=
  a <- a ;; Ok [lift1 sqrt (SqNorm2 a)].

(** [Normalize(F) = Rsqrt(SqNorm2(F)) * F] *)
Definition Normalize (a : kval) : kval :=
  a <- a ;; Ok (map (nmul (lift1 rsqrt (SqNorm2 a))) a).

(** The scalar product [(F | G)]. *)
Definition Scalprod (a b : kval) : kval :=
  a <- a ;;
  b <- b ;;
  if Nat.eqb (length a) (length b) then Ok [nsum (map2 nmul a b)]
  else Raise (ValueError "Incompatible dimensions in KeOps formula").

Definition kadd : kval -> kval -> kval := kbin nadd.
Definition ksub : kval -> kval -> kval := kbin nsub.
Definition kmul : kval -> kval -> kval := kbin nmul.
Definition kdiv : kval -> kval -> kval := kbin ndiv.
Definition Powf : kval -> kval -> kval := kbin npow.
Definition Atan2 : kval -> kval -> kval := kbin (lift2 atan2).
Definition Sin : kval -> kval := kun nsin.
Definition Cos : kval -> kval := kun ncos.
Definition Acos : kval -> kval := kun nacos.
Definition Exp : kval -> kval := kun nexp.
(** [Clamp11] is named by the formula of [LaplaceKernelSphere] only; this
    repository does not define it, and a KeOps installation that has no
    operator of this name refuses the formula.  It is read here as its name
    says, the clamp to [-1, 1]; no theorem of this development rests on that
    reading. *)
Definition Clamp11 : kval -> kval := kun (clamp (-1) 1).

(** All or nothing of a list of results, the first error winning. *)
Fixpoint sequence {A : Type} (l : list (result A)) : result (list A) :=
  match l with
  | [] => Ok []
  | c :: l' => a <- c ;; r <- sequence l' ;; Ok (a :: r)
  end.

(** [keops_mmv]: the sum over j of the formula at (i, j), for every i; the
    variables indexed by j are the rows of [X2] and of [v]. *)
Definition keops_mmv (X1 X2 v : tensor)
    (formula : list R -> list R -> list R -> kval) : result block :=
  if Nat.eqb (nrows v) (nrows X2) then
    r <- sequence
           (map (fun x =>
                   fold_left
                     (fun acc yv => kadd acc (formula x (fst yv) (snd yv)))
                     (combine (rows X2) (rows v))
                     (Ok (repeat (Val 0) (ncols v))))
              (rows X1)) ;;
    Ok (mkB (ncols v) r)
  else Raise (ValueError "KeOps: variables indexed by j differ in size").

(** The formula string of [ArcCosineKernel._keops_mmv_impl], lines 113-118,
    with the alias [pi = Pm(1)] bound to [np.pi].  The source builds the
    string from the string [cos_theta]; [ArcCosineKernel_formula_of] is the
    formula around a given value of [cos_theta], which [Acos] takes as it
    is, without [Clamp11]. *)
Definition ArcCosineKernel_formula_of (cos_theta : kval) (X Y v : list R) : kval :=
  let pi := Pm PI in
  let X := kvar X in
  let Y := kvar Y in
  let v := kvar v in
  let norm_xy := kmul (Norm2 X) (Norm2 Y) in
  let theta := Acos cos_theta in
  let j1 := kadd (Sin theta) (kmul (ksub pi theta) cos_theta) in
  kmul (kmul (kdiv norm_xy pi) j1) v.

(** The formula with the cosine [(Normalize(X) | Normalize(Y))] in exact
    arithmetic, where it never leaves [-1, 1]; the end of this part has the
    same cosine in binary64. *)
Definition ArcCosineKernel_formula (X Y v : list R) : kval :=
  let cos_theta := Scalprod (Normalize (kvar X)) (Normalize (kvar Y)) in
  ArcCosineKernel_formula_of cos_theta X Y v.

Definition ArcCosineKernel_keops_mmv_impl (X1 X2 v : tensor) : result block :=
  keops_mmv X1 X2 v ArcCosineKernel_formula.

(** The formula of [NeuralTangentKernel._keops_mmv_impl], lines 198-202. *)
Definition NeuralTangentKernel_formula (variance : R) (X Y v : list R) : kval :=
  let pi := Pm PI in
  let variance := Pm variance in
  let one := Pm 1 in
  let two := Pm 2 in
  let X := kvar X in
  let Y := kvar Y in
  let v := kvar v in
  let theta :=
    kmul two
      (Atan2 (Norm2 (ksub (kmul (Norm2 Y) X) (kmul (Norm2 X) Y)))
             (Norm2 (kadd (kmul (Norm2 Y) X) (kmul (Norm2 X) Y)))) in
  let norm_xy := kmul (Norm2 X) (Norm2 Y) in
  let j01 :=
    kmul norm_xy
      (kadd (Sin theta)
         (kmul (kmul (kadd one variance) (ksub pi theta)) (Cos theta))) in
  kmul (kdiv j01 pi) v.

(** The formula of [LaplaceKernelSphere._keops_mmv_impl], line 348. *)
Definition LaplaceKernelSphere_formula (alpha gamma : R) (X Y v : list R) : kval :=
  let alpha := Pm alpha in
  let gamma := Pm gamma in
  let one := Pm 1 in
  let X := kvar X in
  let Y := kvar Y in
  let v := kvar v in
  kmul
    (kmul (kmul (Norm2 X) (Norm2 Y))
       (Exp (kmul alpha
               (Powf (ksub one (Clamp11 (Scalprod (Normalize X) (Normalize Y))))
                  gamma))))
    v.

(** [torch.tensor([self.variance])] as the value of the parameter
    [variance = Pm(1)]: a number or a bool gives its value; [None] and a
    string are refused by [torch.tensor].  A list or a tensor gives a tensor
    of one more dimension; it is read as the parameter when it holds exactly
    one number, and no statement of this development depends on that case. *)
Definition torch_tensor_1 (d : pyval) : result R :=
  match d with
  | PyFloat r => Ok r
  | PyInt z => Ok (IZR z)
  | PyBool b => Ok (if b then 1 else 0)
  | PyStr _ => Raise (ValueError "too many dimensions 'str'")
  | PyNone => Raise (RuntimeError "Could not infer dtype of NoneType")
  | PyList [r] => Ok r
  | PyList _ => Raise (ValueError "KeOps: a parameter of dimension 1 was given another number of values")
  | PyTensor _ data => item data
  end.

Definition NeuralTangentKernel_keops_mmv_impl (variance : pyval)
    (X1 X2 v : tensor) : result block :=
  var <- torch_tensor_1 variance ;;
  keops_mmv X1 X2 v (NeuralTangentKernel_formula var).

Definition LaplaceKernelSphere_keops_mmv_impl (alpha gamma : R)
    (X1 X2 v : tensor) : result block :=
  keops_mmv X1 X2 v (LaplaceKernelSphere_formula alpha gamma).

(** The symbolic path, by kernel variant. *)
Definition symbolic (k : kernel) (X1 X2 v : tensor) : result block :=
  match k with
  | ArcCosineKernel => ArcCosineKernel_keops_mmv_impl X1 X2 v
  | NeuralTangentKernel variance =>
      NeuralTangentKernel_keops_mmv_impl variance X1 X2 v
  | LaplaceKernelSphere alpha gamma =>
      LaplaceKernelSphere_keops_mmv_impl alpha gamma X1 X2 v
  end.

(** [K @ v] for a kernel matrix and a tensor of [bcols K] rows. *)
Definition bmv_row (row : list num) (a : list num) : num :=
  nsum (map2 nmul row a).

Definition block_matmul (K : block) (v : tensor) : result block :=
  if Nat.eqb (bcols K) (nrows v) then
    Ok (mkB (ncols v)
          (map (fun row =>
                  map (fun col => bmv_row row (map Val col))
                    (transpose_rows (ncols v) (rows v)))
             (brows K)))
  else Raise (RuntimeError "mat1 and mat2 shapes cannot be multiplied").

(* ================================================================== *)
(** * DirectKernelSolver *)
(* ================================================================== *)

(** [torch.eye(n, m)] *)
Definition eye (n m : nat) : list (list R) :=
  map (fun i => map (fun j => if Nat.eqb i j then 1 else 0) (seq 0 m)) (seq 0 n).

(** [K @ a] for a 1-D [a]. *)
Definition bmv (K : block) (a : list num) : result (list num) :=
  if Nat.eqb (bcols K) (length a) then Ok (map (fun row => bmv_row row a) (brows K))
  else Raise (RuntimeError "size mismatch in matrix-vector product").

(** The first non-finite element of a matrix, or its real elements. *)
Fixpoint finite_row (r : list num) : fault + list R :=
  match r with
  | [] => inr []
  | Val x :: r' =>
      match finite_row r' with
      | inr l => inr (x :: l)
      | inl f => inl f
      end
  | Bad f :: _ => inl f
  end.

Fixpoint finite_rows (M : list (list num)) : fault + list (list R) :=
  match M with
  | [] => inr []
  | r :: M' =>
      match finite_row r with
      | inr l =>
          match finite_rows M' with
          | inr L => inr (l :: L)
          | inl f => inl f
          end
      | inl f => inl f
      end
  end.

(** [M'] is the inverse of the [n] by [n] matrix [M]. *)
Definition is_inverse (n : nat) (M M' : list (list R)) : Prop :=
  length M = n /\ Forall (fun r => length r = n) M /\
  length M' = n /\ Forall (fun r => length r = n) M' /\
  matmul (mkT n M) (mkT n M') = eye n n /\
  matmul (mkT n M') (mkT n M) = eye n n.

(** [torch.inverse]: the exact inverse of a square matrix of finite
    elements that has one; a matrix with a non-finite element has a
    non-finite result.  On a finite matrix without an exact inverse the
    outcome depends on the rounding of the LU factorisation, an error when a
    pivot comes out exactly zero and numbers without meaning otherwise:
    [singular] stands for it, and nothing is assumed about it. *)
Definition torch_inverse (singular : block -> result block) (M : block)
  : result block :=
  if Nat.eqb (brows_n M) (bcols M) then
    match finite_rows (brows M) with
    | inl f => Ok (mapb (fun _ => Bad f) M)
    | inr Mr =>
        match excluded_middle_informative
                (exists M', is_inverse (bcols M) Mr M') with
        | left H =>
            Ok (mkB (bcols M)
                  (map (map Val)
                     (proj1_sig (constructive_indefinite_description _ H))))
        | right _ => singular M
        end
    end
  else Raise (RuntimeError "inverse: A must be batches of square matrices").

(** The attributes of a [DirectKernelSolver]; [None] in [alpha_] and [x_]
    is Python's [None]. *)
Record DirectKernelSolver : Type := mkSolver {
  penalty : R;
  alpha_ : option (list num);
  x_ : pyref;
  kernel_ : kernel
}.

(** [DirectKernelSolver.__init__(kernel, penalty)] *)
Definition DirectKernelSolver_init (k : kernel) (pen : R) : DirectKernelSolver :=
  mkSolver pen None None k.

(** [Kxx + self.penalty * torch.eye(Kxx.shape[0], Kxx.shape[1])] *)
Definition regularized (Kxx : block) (pen : R) : block :=
  mkB (bcols Kxx)
    (map2 (map2 (fun k e => nadd k (Val (pen * e))))
       (brows Kxx) (eye (brows_n Kxx) (bcols Kxx))).

(** [fit(x, y)]: the solver as the call leaves it, and whether the call
    returned or raised.  [self.x_] is assigned before the solve. *)
Definition fit (singular : block -> result block) (self : DirectKernelSolver)
    (x : tensor) (y : list R) : DirectKernelSolver * result unit :=
  match direct_kernel (kernel_ self) (Some x) (Some x) with
  | Raise e => (self, Raise e)
  | Ok Kxx =>
      let self := mkSolver (penalty self) (alpha_ self) (Some x) (kernel_ self) in
      match (inv <- torch_inverse singular (regularized Kxx (penalty self)) ;;
             bmv inv (map Val y)) with
      | Raise e => (self, Raise e)
      | Ok a =>
          (mkSolver (penalty self) (Some a) (x_ self) (kernel_ self), Ok tt)
      end
  end.

(** [predict(x)] *)
Definition predict (self : DirectKernelSolver) (x : tensor) : result (list num) :=
  Kxxp <- direct_kernel (kernel_ self) (Some x) (x_ self) ;;
  match alpha_ self with
  | Some a => bmv Kxxp a
  | None => Raise (TypeError "unsupported operand type(s) for @: 'Tensor' and 'NoneType'")
  end.



(* ================================================================== *)
(** * Closed forms *)
(* ================================================================== *)

(** [clamp(x, -1, 1)] on a real. *)
Definition clampR (x : R) : R := Rmin (Rmax x (-1)) 1.

(** The value lines 70-75 of [k_ntk] compute from a dot product [p] and two
    norms [a], [b] whose product is not zero. *)
Definition arccos_value (variance p a b : R) : R :=
  let c := clampR (p / (a * b)) in
  a * b * (sin (acos c) + (1 + variance) * (PI - acos c) * c) / PI.

(** The kernel value of the specification, in its words:
    K(x,y) = (|x||y| / pi) (sin t + (1+variance) (pi - t) cos t) with
    t = arccos(clamp(x.y / (|x||y|), -1, 1)). *)
Definition ntk_spec_entry (variance : R) (x y : list R) : num :=
  let n := norm x * norm y in
  let theta := nacos (clamp (-1) 1 (ndiv (Val (dot x y)) (Val n))) in
  nmul (ndiv (Val n) (Val PI))
    (nadd (nsin theta)
       (nmul (nmul (Val (1 + variance)) (nsub (Val PI) theta)) (ncos theta))).

(** The raw bilinear block of a pair of point sets: the dot products of
    their rows. *)
Definition raw_block (X1 X2 : tensor) : block :=
  mkB (nrows X2) (map (map Val) (outer dot (rows X1) (rows X2))).

(** [out + P] for a block and a real matrix of one shape. *)
Definition block_plus (out : block) (P : list (list R)) : block :=
  mkB (bcols out) (map2 (map2 (fun o p => nadd o (Val p))) (brows out) P).

(** Each element of a matrix paired with the row of [X] and the row of [Y]
    of its position. *)
Definition tag {A : Type} (M : list (list A)) (X Y : list (list R))
  : list (list (A * list R * list R)) :=
  map2 (fun ra u => map2 (fun a v => (a, u, v)) ra Y) M X.

(** The statements of [ArcCosineKernel._finalize] at one position, for the
    raw element [a] and the norms [n1], [n2] of its row and column. *)
Definition ArcCosineKernel_finalize_entry (a : num) (n1 n2 : R) : num :=
  let A := ndiv a (Val n1) in
  let A := ndiv A (Val n2) in
  let A := clamp (-1) 1 A in
  let B := nacos A in
  let C := nsin B in
  let B := nmul B (Val (-1)) in
  let B := nadd B (Val PI) in
  let A := nmul A B in
  let A := nadd A C in
  let A := nmul A (Val n1) in
  let A := nmul A (Val n2) in
  ndiv A (Val PI).

(** The statements of [LaplaceKernelSphere._finalize] at one position. *)
Definition LaplaceKernelSphere_finalize_entry (alpha gamma : R) (a : num)
    (n1 n2 : R) : num :=
  let A := ndiv a (Val n1) in
  let A := ndiv A (Val n2) in
  let A := clamp (-1) 1 A in
  let A := nmul A (Val (-1)) in
  let A := nadd A (Val 1) in
  let A := npow A (Val gamma) in
  let A := nmul A (Val alpha) in
  let A := nexp A in
  let A := nmul A (Val n1) in
  nmul A (Val n2).

(** The kernel variants whose [_apply] is [out.addmm_(X1, X2)]. *)
Definition bilinear_apply (k : kernel) : bool :=
  match k with
  | ArcCosineKernel | LaplaceKernelSphere _ _ => true
  | NeuralTangentKernel _ => false
  end.

(** A finite element. *)
Definition is_val (e : num) : Prop := exists x, e = Val x.

(** Every element of a block satisfies [P]. *)
Definition all_elements (P : num -> Prop) (K : block) : Prop :=
  Forall (Forall P) (brows K).

(** A row with a coordinate that is not zero. *)
Definition nonzero (u : list R) : Prop := Exists (fun a => a <> 0) u.

(** [M @ y] on reals. *)
Definition mv (M : list (list R)) (y : list R) : list R :=
  map (fun r => dot r y) M.

(** The number a thread of [stable_kernel] writes for the rows [u] of [x1]
    and [v] of [x2], with the two loops written as sums over the rows. *)
Definition stable_value (variance : R) (u v : list R) : R :=
  let norm_x := sqrt (dot u u) in
  let norm_y := sqrt (dot v v) in
  let arg1 :=
    sqrt (rsum (map2 (fun x y => (norm_y * x - norm_x * y) * (norm_y * x - norm_x * y))
                  u v)) in
  let arg2 :=
    sqrt (rsum (map2 (fun x y => (norm_y * x + norm_x * y) * (norm_y * x + norm_x * y))
                  u v)) in
  let angle := 2 * atan2 arg1 arg2 in
  norm_x * norm_y * (sin angle + (1 + variance) * (PI - angle) * cos angle) / PI.

(** The launch of [NeuralTangentKernel._apply] for an [n] by [m] block is
    accepted by the device: the thread block, of ceil(n/16) by ceil(m/16)
    threads with a dimension of 0 raised to 1, holds no more threads than
    the device allows. *)
Definition launchable (n m : nat) : Prop :=
  (Nat.max 1 ((n + 15) / 16) * Nat.max 1 ((m + 15) / 16)
   <= max_threads_per_block)%nat.

(* ================================================================== *)
(** * The decayed spherical Laplace kernel *)
(* ================================================================== *)

(** The value of the spherical Laplace kernel at one pair of rows, as
    [k_spherical_laplace] and [LaplaceKernelSphere._finalize] compute it:
    |x| |y| exp(alpha (1 - clamp(cos t))^gamma). *)
Definition laplace_sphere_entry (alpha gamma : R) (x y : list R) : num :=
  nmul (Val (norm x * norm y))
    (laplace_exp gamma alpha (dot x y) (norm x) (norm y)).

(** The Euclidean distance between two rows. *)
Definition euclidean_distance (x y : list R) : R := norm (map2 Rminus x y).

(** Modelled from the spec: [LaplaceKernelSphereDecay], which
    [fit_n_spline_falkon.py] imports from [common.falkon_kernels] and which
    that file does not define.  The specification says that the decayed
    variant "additionally multiplies by a radial Gaussian-type decay term
    parameterized by a sigma/decay scalar, applied to the Euclidean distance
    between the two points", and leaves the closed form of the term open.
    The term is [profile (distance / sigma)] for a decay profile [profile],
    the Gaussian [fun t => exp (- t^2 / 2)] being one. *)
Definition LaplaceKernelSphereDecay_entry (profile : R -> R)
    (alpha gamma sigma : R) (x y : list R) : num :=
  nmul (laplace_sphere_entry alpha gamma x y)
    (Val (profile (euclidean_distance x y / sigma))).

(** Modelled from the spec: the dense kernel matrix of the decayed
    variant, the block of [LaplaceKernelSphereDecay_entry]. *)
Definition LaplaceKernelSphereDecay_direct_kernel (profile : R -> R)
    (alpha gamma sigma : R) (X1 X2 : tensor) : block :=
  mkB (nrows X2)
    (outer (LaplaceKernelSphereDecay_entry profile alpha gamma sigma)
       (rows X1) (rows X2)).

(** The Gaussian decay profile. *)
Definition gaussian_profile (t : R) : R := exp (- (t * t) / 2).

(** Two elements match within [eps]: two finite numbers closer than [eps],
    or the same fault. *)
Definition close (eps : R) (a b : num) : Prop :=
  match a, b with
  | Val x, Val y => Rabs (x - y) < eps
  | Bad e, Bad e' => e = e'
  | _, _ => False
  end.

(** Two blocks of one shape match within [eps], element by element. *)
Definition within (eps : R) (A B : block) : Prop :=
  bcols A = bcols B /\ Forall2 (Forall2 (close eps)) (brows A) (brows B).

(** What a thread at position [p] of a launch over an [N] by [M] block does
    to the array when it writes [T I J] at [(I, J)]: a store when it is in
    range, nothing otherwise. *)
Definition thread_step (N M : nat) (T : nat -> nat -> num) (buf : list num)
    (p : nat * nat) : list num :=
  if Nat.leb N (fst p) || Nat.leb M (snd p) then buf
  else store buf (fst p * M + snd p)%nat (T (fst p) (snd p)).

(** The thread at position [p] writes the cell [idx]. *)
Definition thread_hits (N M : nat) (idx : nat) (p : nat * nat) : bool :=
  negb (Nat.leb N (fst p) || Nat.leb M (snd p))
  && Nat.eqb idx (fst p * M + snd p)%nat.

(* ================================================================== *)
(** * The cosine of the arc-cosine formula, exact and in binary64 *)
(* ================================================================== *)

(** The cosine of the angle of two rows as [(Normalize(X) | Normalize(Y))]
    gives it in exact arithmetic; it is 0 when a row is the zero vector. *)
Definition cosine (X Y : list R) : R :=
  rsqrt (dot X X) * (rsqrt (dot Y Y) * dot X Y).

(** The angular factor [sin t + (pi - t) cos t] at [t = acos c]. *)
Definition angular_factor (c : R) : R := sin (acos c) + (PI - acos c) * c.

(** The operations of [(Normalize(X) | Normalize(Y))] on [float64] data:
    every operation is rounded to the nearest binary64 number, and a sum is
    taken from left to right. *)
Definition f64_sum (l : list float) : float := fold_left PrimFloat.add l 0%float.

Definition f64_Scalprod (x y : list float) : float :=
  f64_sum (map2 PrimFloat.mul x y).

Definition f64_SqNorm2 (x : list float) : float := f64_Scalprod x x.

Definition f64_Rsqrt (s : float) : float :=
  if PrimFloat.eqb s 0%float then 0%float
  else PrimFloat.div 1%float (PrimFloat.sqrt s).

Definition f64_Normalize (x : list float) : list float :=
  map (PrimFloat.mul (f64_Rsqrt (f64_SqNorm2 x))) x.

Definition f64_cos_theta (X Y : list float) : float :=
  f64_Scalprod (f64_Normalize X) (f64_Normalize Y).

(** The real number a finite binary64 number is. *)
Definition SF2R (x : spec_float) : R :=
  match x with
  | S754_finite s m e =>
      (if s then -1 else 1) * IZR (Zpos m)
      * (if (0 <=? e)%Z then IZR (2 ^ e) else / IZR (2 ^ (- e)))
  | _ => 0
  end.

Definition f64_to_R (f : float) : R := SF2R (Prim2SF f).

(* ================================================================== *)
(** * Further definitions *)
(* ================================================================== *)

(** The last dimensions [d1] and [d2] broadcast against each other. *)
Definition broadcastable (d1 d2 : nat) : bool :=
  Nat.eqb d1 d2 || Nat.eqb d1 1 || Nat.eqb d2 1.

(** [c * X] *)
Definition scale_tensor (c : R) (X : tensor) : tensor :=
  mkT (ncols X) (map (map (Rmult c)) (rows X)).

(** The element at position (i, j) of a block. *)
Definition entry (K : block) (i j : nat) : num :=
  nth j (nth i (brows K) []) (Val 0).

(** The value of the spherical Laplace kernel at one pair of rows of a
    tensor whose features are broadcast to [d]. *)
Definition laplace_entry (alpha gamma : R) (d : nat) (u v : list R) : num :=
  nmul (Val (norm u * norm v))
    (laplace_exp gamma alpha (dot (expand d u) (expand d v)) (norm u) (norm v)).

(** The exponent of a spherical Laplace kernel is positive; the other
    kernels have none. *)
Definition positive_exponent (k : kernel) : Prop :=
  match k with
  | LaplaceKernelSphere _ gamma => 0 < gamma
  | _ => True
  end.

(** The value of a kernel at one pair of rows whose features are broadcast
    to [d]: the element of the dense block away from the single-row case of
    the spherical Laplace kernel. *)
Definition kernel_entry (k : kernel) (d : nat) (u v : list R) : num :=
  match k with
  | LaplaceKernelSphere alpha gamma => laplace_entry alpha gamma d u v
  | _ => arccos_entry (dot (expand d u) (expand d v)) (norm u) (norm v)
  end.

(** The dense block of [k] against the reference set [X] has one column for
    each reference row: [k] is not the spherical Laplace kernel, or [X] does
    not have exactly one row. *)
Definition column_per_reference_row (k : kernel) (X : tensor) : Prop :=
  match k with
  | LaplaceKernelSphere _ _ => nrows X <> 1%nat
  | _ => True
  end.

(* ================================================================== *)
(** * [eval_grid] of [fit_n_spline_falkon.py] *)
(* ================================================================== *)

(** The [grid_size] argument: one size for the three axes, or three sizes.
    Sizes are natural numbers. *)
Inductive grid_size_arg : Type :=
| GridInt (n : nat)
| GridSizes (g0 g1 g2 : nat).

(** The [plot_range] argument: a float, an int, or the two corners
    [(prmin, prmax)] of the box. *)
Inductive plot_range_arg : Type :=
| RangeFloat (r : R)
| RangeInt (z : Z)
| RangeCorners (prmin prmax : R * R * R).

(** One axis of [np.mgrid[start:stop:n * 1j]]: the [n] values
    [i * step + start], with [step = (stop - start) / (n - 1)] unless
    [n = 1]. *)
Definition mgrid_axis (start stop : R) (n : nat) : list R :=
  let step := if Nat.eqb n 1 then 1 else (stop - start) / (INR n - 1) in
  map (fun i => INR i * step + start) (seq 0 n).

(** Lines 72-77: the three coordinate arrays of [np.mgrid], each flattened
    in row-major order and stacked as columns, with a column of ones
    appended. *)
Definition xgrid (g : nat * nat * nat) (prmin prmax : R * R * R) : tensor :=
  let '(g0, g1, g2) := g in
  let '(a0, a1, a2) := prmin in
  let '(b0, b1, b2) := prmax in
  let points :=
    flat_map (fun x =>
      flat_map (fun y =>
        map (fun z => [x; y; z]) (mgrid_axis a2 b2 g2))
        (mgrid_axis a1 b1 g1))
      (mgrid_axis a0 b0 g0) in
  mkT 4 (map (fun p => p ++ [1]) points).

(** [l[ibeg:iend]] for indices that are not negative. *)
Definition python_slice {A : Type} (ibeg iend : nat) (l : list A) : list A :=
  firstn (iend - ibeg) (skipn ibeg l).

(** [t.reshape(g0, g1, g2)] of a 1-D tensor. *)
Definition reshape3 (g : nat * nat * nat) (flat : list num)
  : result (list (list (list num))) :=
  let '(g0, g1, g2) := g in
  if Nat.eqb (length flat) (g0 * g1 * g2)
  then Ok (map (chunks g2 g1) (chunks (g1 * g2) g0 flat))
  else Raise (RuntimeError "shape is invalid for input size").

Section EvalGrid.

(** [model.predict], returning one value for each row. *)
Variable model_predict : tensor -> result (list num).

Definition eval_grid (grid_size : grid_size_arg) (plot_range : plot_range_arg)
    (nchunks : nat) : result (list (list (list num))) :=
  let grid_size :=
    match grid_size with
    | GridInt n => (n, n, n)
    | GridSizes g0 g1 g2 => (g0, g1, g2)
    end in
  pr <- match plot_range with
        | RangeFloat r => Ok ((- r, - r, - r), (r, r, r))
        | RangeInt _ => Raise (TypeError "cannot unpack non-iterable int object")
        | RangeCorners prmin prmax => Ok (prmin, prmax)
        end ;;
  let xgrid := xgrid grid_size (fst pr) (snd pr) in
  ygrid <- (if Nat.ltb 1 nchunks then
              let chunk_size := ((nrows xgrid + nchunks - 1) / nchunks)%nat in
              ygrid <- sequence
                         (map (fun i =>
                                 model_predict
                                   (mkT (ncols xgrid)
                                      (python_slice (i * chunk_size)
                                         ((i + 1) * chunk_size) (rows xgrid))))
                            (seq 0 nchunks)) ;;
              Ok (concat ygrid)
            else model_predict xgrid) ;;
  reshape3 grid_size ygrid.

End EvalGrid.

(* ================================================================== *)
(** * Scalar facts *)
(* ================================================================== *)

Lemma PI_neq_0 : PI <> 0.
Proof. pose proof PI_RGT_0; lra. Qed.

Lemma ndiv_val (x y : R) : y <> 0 -> ndiv (Val x) (Val y) = Val (x / y).
Proof.
  intros Hy. unfold ndiv. destruct (Req_dec_T y 0) as [E | _]; [contradiction | reflexivity].
Qed.

Lemma ndiv_zero (x : R) : ndiv (Val x) (Val 0) = Bad (div_fault x).
Proof.
  unfold ndiv. destruct (Req_dec_T 0 0) as [_ | N]; [reflexivity | contradiction N; reflexivity].
Qed.

Lemma div_fault_quotient (p a : R) : a <> 0 -> div_fault (p / a) = div_fault p.
Proof.
  intros Ha. unfold div_fault.
  destruct (Req_dec_T (p / a) 0) as [E | N], (Req_dec_T p 0) as [E' | N'];
    try reflexivity; exfalso.
  - apply N'. apply (f_equal (fun t => t * a)) in E.
    unfold Rdiv in E. rewrite Rmult_assoc, Rinv_l, Rmult_1_r, Rmult_0_l in E; assumption.
  - apply N. subst p. unfold Rdiv. apply Rmult_0_l.
Qed.

Lemma div_fault_guarded (p : R) :
  Bad (div_fault p) <> Bad AcosDomain /\ Bad (div_fault p) <> Bad PowNegBase.
Proof. unfold div_fault. destruct (Req_dec_T p 0); split; discriminate. Qed.

Lemma clampR_range (x : R) : -1 <= clampR x <= 1.
Proof.
  unfold clampR, Rmin, Rmax.
  destruct (Rle_dec x (-1)); destruct (Rle_dec _ 1); lra.
Qed.

Lemma clampR_id (x : R) : -1 <= x <= 1 -> clampR x = x.
Proof.
  intros H. unfold clampR, Rmin, Rmax.
  destruct (Rle_dec x (-1)); destruct (Rle_dec _ 1); lra.
Qed.

Lemma nacos_val (x : R) : -1 <= x <= 1 -> nacos (Val x) = Val (acos x).
Proof.
  intros [H1 H2]. unfold nacos.
  destruct (Rle_dec (-1) x); [ | contradiction].
  destruct (Rle_dec x 1); [reflexivity | contradiction].
Qed.

Lemma nacos_clamp (x : R) : nacos (clamp (-1) 1 (Val x)) = Val (acos (clampR x)).
Proof. apply nacos_val, clampR_range. Qed.

Lemma ntk_entry_val (variance p a b : R) :
  a * b <> 0 -> ntk_entry variance p a b = Val (arccos_value variance p a b).
Proof.
  intros Hab. unfold ntk_entry, arccos_value.
  rewrite (ndiv_val _ _ Hab). rewrite nacos_clamp. cbn [clamp lift1 nsin nsub nmul nadd lift2].
  rewrite (ndiv_val _ _ PI_neq_0). reflexivity.
Qed.

Lemma ntk_entry_zero (variance p a b : R) :
  a * b = 0 -> ntk_entry variance p a b = Bad (div_fault p).
Proof.
  intros Hab. unfold ntk_entry. rewrite Hab, ndiv_zero. reflexivity.
Qed.

Lemma arccos_entry_ntk (p a b : R) : arccos_entry p a b = ntk_entry 0 p a b.
Proof.
  destruct (Req_dec_T (a * b) 0) as [E | N].
  - rewrite (ntk_entry_zero _ _ _ _ E). unfold arccos_entry. rewrite E, ndiv_zero. reflexivity.
  - rewrite (ntk_entry_val _ _ _ _ N). unfold arccos_entry, arccos_value.
    rewrite (ndiv_val _ _ N). rewrite nacos_clamp. cbn [clamp lift1 nsin nsub nmul nadd lift2].
    rewrite (ndiv_val _ _ PI_neq_0). f_equal. fold (clampR (p / (a * b))). lra.
Qed.

Lemma arccos_entry_val (p a b : R) :
  a * b <> 0 -> arccos_entry p a b = Val (arccos_value 0 p a b).
Proof. intros H. rewrite arccos_entry_ntk. now apply ntk_entry_val. Qed.

Lemma rpow_pos (x y : R) : 0 < x -> rpow x y = Val (Rpower x y).
Proof.
  intros H. unfold rpow. destruct (Rlt_dec 0 x); [reflexivity | contradiction].
Qed.

Lemma norm_nonneg (u : list R) : 0 <= norm u.
Proof. apply sqrt_pos. Qed.

(* ================================================================== *)
(** * The hand-computed scenario *)
(* ================================================================== *)

Lemma sqrt_eq_1 (x : R) : x = 1 -> sqrt x = 1.
Proof. intros ->. apply sqrt_1. Qed.

(** C8: on X1 = [[1,0,0]] and X2 = [[0,1,0]] the dense path of the
    arc-cosine kernel returns the 1 by 1 value 1/pi, and that of the
    spherical Laplace kernel with alpha = -1 and gamma = 0.5 returns
    exp(-1). *)
Theorem hand_computed_scenario :
  direct_kernel ArcCosineKernel
    (Some (mkT 3 [[1; 0; 0]])) (Some (mkT 3 [[0; 1; 0]]))
  = Ok (mkB 1 [[Val (1 / PI)]])
  /\ direct_kernel (LaplaceKernelSphere (-1) (1 / 2))
       (Some (mkT 3 [[1; 0; 0]])) (Some (mkT 3 [[0; 1; 0]]))
     = Ok (mkB 1 [[Val (exp (-1))]]).
Proof.
  assert (Hn1 : norm [1; 0; 0] = 1).
  { unfold norm, dot; cbn [map2 rsum fold_right]. apply sqrt_eq_1; lra. }
  assert (Hn2 : norm [0; 1; 0] = 1).
  { unfold norm, dot; cbn [map2 rsum fold_right]. apply sqrt_eq_1; lra. }
  assert (Hd : dot [1; 0; 0] [0; 1; 0] = 0).
  { unfold dot; cbn [map2 rsum fold_right]. lra. }
  split.
  - cbn [direct_kernel ArcCosineKernel_direct_kernel k_arccos unsqueeze bind
         ncols nrows rows broadcast_dim Nat.eqb outer map expand length].
    rewrite Hn1, Hn2, Hd.
    rewrite arccos_entry_val by lra. unfold arccos_value.
    replace (0 / (1 * 1)) with 0 by lra.
    rewrite clampR_id by lra. rewrite acos_0, sin_PI2.
    pose proof PI_neq_0. repeat f_equal. field; assumption.
  - cbn [direct_kernel LaplaceKernelSphere_direct_kernel k_spherical_laplace
         unsqueeze bind ncols nrows rows broadcast_dim Nat.eqb outer map expand
         length hd].
    rewrite Hn1, Hn2, Hd. unfold laplace_exp.
    rewrite ndiv_val by lra.
    cbn [clamp lift1 nsub lift2 npow].
    replace (0 / (1 * 1)) with 0 by lra.
    fold (clampR 0). rewrite clampR_id by lra.
    replace (1 - 0) with 1 by lra.
    rewrite rpow_pos by lra.
    cbn [nmul lift2 nexp lift1].
    unfold Rpower. rewrite ln_1, Rmult_0_r, exp_0.
    replace (-1 * 1) with (-1) by lra. rewrite !Rmult_1_l. reflexivity.
Qed.

(* ================================================================== *)
(** * Construction and the unfitted solver *)
(* ================================================================== *)

Lemma extract_float_scalar (fos : string -> option R) (d : pyval) :
  is_scalar fos d = true <-> exists r, extract_float fos d = Ok r.
Proof.
  destruct d as [r | z | b | s | | l | shape data]; cbn.
  - split; [eauto | reflexivity].
  - split; [eauto | reflexivity].
  - split; [eauto | reflexivity].
  - destruct (fos s); split; intros H; try discriminate; eauto.
    destruct H as [r H]; discriminate.
  - split; [discriminate | intros [r H]; discriminate].
  - split; [discriminate | intros [r H]; discriminate].
  - destruct data as [ | a [ | b data']]; cbn; split; intros H;
      try discriminate; eauto; destruct H as [r H]; discriminate.
Qed.

(** [LaplaceKernelSphere.__init__] raises exactly when a hyperparameter is
    not a scalar. *)
Lemma LaplaceKernelSphere_init_rejects (fos : string -> option R) (alpha gamma : pyval) :
  is_scalar fos alpha && is_scalar fos gamma = false <->
  exists e, LaplaceKernelSphere_init fos alpha gamma = Raise e.
Proof.
  unfold LaplaceKernelSphere_init.
  pose proof (extract_float_scalar fos alpha) as Ha.
  pose proof (extract_float_scalar fos gamma) as Hg.
  destruct (extract_float fos alpha) as [a | ea]; cbn.
  - destruct (extract_float fos gamma) as [g | eg]; cbn.
    + replace (is_scalar fos alpha) with true by (symmetry; apply Ha; eauto).
      replace (is_scalar fos gamma) with true by (symmetry; apply Hg; eauto).
      split; [discriminate | intros [e H]; discriminate].
    + split; [eauto | intros _].
      destruct (is_scalar fos gamma); [ | apply andb_false_r].
      destruct (proj1 Hg eq_refl) as [r H]; discriminate.
  - split; [eauto | intros _].
    destruct (is_scalar fos alpha); [ | reflexivity].
    destruct (proj1 Ha eq_refl) as [r H]; discriminate.
Qed.

(** C3 at [NeuralTangentKernel(variance=torch.tensor([1.0, 2.0]))]: the
    two-element tensor is not a scalar, [extract_float] would reject it, and
    the constructor returns a kernel that holds it. *)
Theorem NeuralTangentKernel_init_accepts_non_scalar (fos : string -> option R) :
  is_scalar fos (PyTensor [2%nat] [1; 2]) = false
  /\ extract_float fos (PyTensor [2%nat] [1; 2])
     = Raise (ValueError "Item is not a scalar")
  /\ NeuralTangentKernel_init (PyTensor [2%nat] [1; 2])
     = Ok (NeuralTangentKernel (PyTensor [2%nat] [1; 2])).
Proof. repeat split. Qed.

(** C6: on a solver on which [fit] was not called, [predict] raises for
    every kernel variant and every query point set: [x_] is still [None]
    and the dense kernel fails on it before any value is computed. *)
Theorem predict_before_fit_raises (k : kernel) (pen : R) (Xq : tensor) :
  predict (DirectKernelSolver_init k pen) Xq
  = Raise (AttributeError "'NoneType' object has no attribute 'unsqueeze'").
Proof. destruct k; reflexivity. Qed.

(* ================================================================== *)
(** * The dense path of the neural tangent kernel *)
(* ================================================================== *)

Lemma norm_e1 : norm [1; 0] = 1.
Proof. unfold norm, dot; cbn [map2 rsum fold_right]. apply sqrt_eq_1; lra. Qed.

Lemma dot_e1 : dot [1; 0] [1; 0] = 1.
Proof. unfold dot; cbn [map2 rsum fold_right]. lra. Qed.

Lemma arccos_value_aligned (variance : R) :
  arccos_value variance 1 1 1 = 1 + variance.
Proof.
  unfold arccos_value. replace (1 / (1 * 1)) with 1 by lra.
  rewrite clampR_id by lra. rewrite acos_1, sin_0.
  pose proof PI_neq_0. field; assumption.
Qed.

(** The dense path of the neural tangent kernel does not read the
    variance. *)
Lemma NeuralTangentKernel_direct_kernel_ignores_variance
    (v w : pyval) (X1 X2 : pyref) :
  direct_kernel (NeuralTangentKernel v) X1 X2
  = direct_kernel (NeuralTangentKernel w) X1 X2.
Proof. reflexivity. Qed.

Lemma ntk_spec_entry_eq (variance : R) (u v : list R) :
  ntk_spec_entry variance u v = ntk_entry variance (dot u v) (norm u) (norm v).
Proof.
  unfold ntk_spec_entry.
  destruct (Req_dec_T (norm u * norm v) 0) as [E | N].
  - rewrite (ntk_entry_zero _ _ _ _ E). rewrite E, ndiv_zero.
    rewrite (ndiv_val _ _ PI_neq_0). reflexivity.
  - rewrite (ntk_entry_val _ _ _ _ N). unfold arccos_value.
    rewrite (ndiv_val _ _ N), nacos_clamp, (ndiv_val _ _ PI_neq_0).
    cbn [nsin ncos lift1 nsub nmul nadd lift2].
    fold (clampR (dot u v / (norm u * norm v))).
    rewrite cos_acos by apply clampR_range.
    f_equal. pose proof PI_neq_0. field; assumption.
Qed.

Lemma expand_same (d : nat) (u : list R) : length u = d -> expand d u = u.
Proof. intros H. unfold expand. rewrite H, Nat.eqb_refl. reflexivity. Qed.

Lemma outer_ext_in {A B C : Type} (f g : A -> B -> C) (X : list A) (Y : list B) :
  (forall a b, In a X -> In b Y -> f a b = g a b) -> outer f X Y = outer g X Y.
Proof.
  intros H. unfold outer.
  apply map_ext_in; intros a Ha. apply map_ext_in; intros b Hb. now apply H.
Qed.

Lemma wf_in (T : tensor) (u : list R) : wf T -> In u (rows T) -> length u = ncols T.
Proof. intros W. exact (proj1 (Forall_forall _ _) W u). Qed.

(** The helper [k_ntk], which no method calls, does compute the value of
    the specification. *)
Lemma k_ntk_meets_spec (variance : R) (X1 X2 : tensor) :
  ncols X1 = ncols X2 -> wf X1 -> wf X2 ->
  k_ntk (Some X1) (Some X2) variance
  = Ok (mkB (nrows X2) (outer (ntk_spec_entry variance) (rows X1) (rows X2))).
Proof.
  intros Hc H1 H2. unfold k_ntk; cbn [unsqueeze bind].
  unfold broadcast_dim. rewrite Hc, Nat.eqb_refl. cbn [bind].
  do 2 f_equal. apply outer_ext_in; intros u v Hu Hv.
  rewrite !expand_same; [ | now apply wf_in | rewrite <- Hc; now apply wf_in].
  symmetry; apply ntk_spec_entry_eq.
Qed.

Lemma k_arccos_aligned :
  k_arccos (Some (mkT 2 [[1; 0]])) (Some (mkT 2 [[1; 0]])) = Ok (mkB 1 [[Val 1]]).
Proof.
  unfold k_arccos.
  cbn [unsqueeze bind ncols nrows rows broadcast_dim Nat.eqb outer map expand length].
  rewrite norm_e1, dot_e1, arccos_entry_val by lra.
  rewrite arccos_value_aligned. repeat f_equal; lra.
Qed.

(** C1 at variance = 1 (the default) and X1 = X2 = [[1, 0]]: the
    specification's value is 2, [direct_kernel] returns 1. *)
Theorem NeuralTangentKernel_direct_kernel_drops_variance :
  direct_kernel (NeuralTangentKernel (PyFloat 1))
    (Some (mkT 2 [[1; 0]])) (Some (mkT 2 [[1; 0]]))
  = Ok (mkB 1 [[Val 1]])
  /\ outer (ntk_spec_entry 1) [[1; 0]] [[1; 0]] = [[Val 2]].
Proof.
  split.
  - exact k_arccos_aligned.
  - cbn [outer map]. rewrite ntk_spec_entry_eq, norm_e1, dot_e1.
    rewrite ntk_entry_val by lra.
    rewrite arccos_value_aligned. repeat f_equal; lra.
Qed.

(* ================================================================== *)
(** * Lists and matrices *)
(* ================================================================== *)

Lemma map2_length {A B C : Type} (f : A -> B -> C) (l : list A) (m : list B) :
  length l = length m -> length (map2 f l m) = length l.
Proof.
  revert m; induction l as [ | a l IH]; intros [ | b m] H; cbn in *; try discriminate; auto.
Qed.

Lemma map2_map_l {A A' B C : Type} (g : A -> A') (f : A' -> B -> C)
    (l : list A) (m : list B) :
  map2 f (map g l) m = map2 (fun a b => f (g a) b) l m.
Proof.
  revert m; induction l as [ | a l IH]; intros [ | b m]; cbn; auto. now rewrite IH.
Qed.

Lemma map2_map_r {A B B' C : Type} (g : B -> B') (f : A -> B' -> C)
    (l : list A) (m : list B) :
  map2 f l (map g m) = map2 (fun a b => f a (g b)) l m.
Proof.
  revert m; induction l as [ | a l IH]; intros [ | b m]; cbn; auto. now rewrite IH.
Qed.

Lemma map_map2 {A B C D : Type} (g : C -> D) (f : A -> B -> C)
    (l : list A) (m : list B) :
  map g (map2 f l m) = map2 (fun a b => g (f a b)) l m.
Proof.
  revert m; induction l as [ | a l IH]; intros [ | b m]; cbn; auto. now rewrite IH.
Qed.

Lemma map2_repeat_r {A B C : Type} (f : A -> B -> C) (l : list A) (c : B) :
  map2 f l (repeat c (length l)) = map (fun a => f a c) l.
Proof. induction l as [ | a l IH]; cbn; auto. now rewrite IH. Qed.

Lemma map2_diag {A C : Type} (f : A -> A -> C) (l : list A) :
  map2 f l l = map (fun a => f a a) l.
Proof. induction l as [ | a l IH]; cbn; auto. now rewrite IH. Qed.

Lemma expand_singleton (m : nat) (c : R) : expand m [c] = repeat c m.
Proof.
  unfold expand. cbn [length hd].
  destruct (Nat.eqb_spec 1 m) as [<- | _]; reflexivity.
Qed.

(** ** Transposition and the matrix product *)

Lemma transpose_rows_length (d : nat) (Y : list (list R)) :
  Forall (fun r => length r = d) Y -> length (transpose_rows d Y) = d.
Proof.
  induction 1 as [ | y Y Hy HY IH]; cbn.
  - apply repeat_length.
  - rewrite map2_length; congruence.
Qed.

Lemma vm_cons (m : nat) (a y : list R) (T : list (list R)) :
  length a = length y -> length y = length T ->
  vm (S m) a (map2 cons y T) = dot a y :: vm m a T.
Proof.
  revert y T; induction a as [ | ak a IH]; intros [ | yk y] [ | t T] H1 H2;
    cbn in *; try discriminate.
  - unfold dot; cbn. reflexivity.
  - rewrite IH by congruence. unfold dot; cbn. reflexivity.
Qed.

Lemma vm_transpose (a : list R) (Y : list (list R)) :
  Forall (fun r => length r = length a) Y ->
  vm (length Y) a (transpose_rows (length a) Y) = map (dot a) Y.
Proof.
  induction 1 as [ | y Y Hy HY IH]; cbn [length transpose_rows map].
  - destruct a; cbn; reflexivity.
  - rewrite vm_cons, IH; auto.
    rewrite transpose_rows_length; auto.
Qed.

Lemma matmul_transpose (X1 X2 : tensor) :
  wf X1 -> wf X2 -> ncols X1 = ncols X2 ->
  matmul X1 (transpose X2) = outer dot (rows X1) (rows X2).
Proof.
  intros W1 W2 Hc. unfold matmul, outer, transpose. cbn [ncols rows].
  apply map_ext_in; intros a Ha.
  pose proof (wf_in _ _ W1 Ha) as La.
  unfold nrows. replace (ncols X2) with (length a) by congruence.
  apply vm_transpose. unfold wf in W2.
  eapply Forall_impl; [ | exact W2]. cbn; intros; congruence.
Qed.

Lemma addmm_transpose (out : block) (X1 X2 : tensor) :
  wf X1 -> wf X2 -> ncols X1 = ncols X2 ->
  brows_n out = nrows X1 -> bcols out = nrows X2 ->
  addmm_ out X1 (transpose X2)
  = Ok (block_plus out (outer dot (rows X1) (rows X2))).
Proof.
  intros W1 W2 Hc Hr Hb. unfold addmm_.
  rewrite <- (matmul_transpose X1 X2 W1 W2 Hc).
  replace (nrows (transpose X2)) with (ncols X1).
  2:{ unfold transpose, nrows; cbn [rows].
      rewrite transpose_rows_length by exact W2. exact Hc. }
  cbn [ncols transpose]. rewrite Hr, Hb, !Nat.eqb_refl. cbn [andb].
  unfold block_plus. rewrite Hb. reflexivity.
Qed.

Lemma nadd_val_fix (o : num) (p : R) : nadd o (Val p) = Val p <-> o = Val 0.
Proof.
  destruct o as [x | f]; cbn; split; intros H; try discriminate.
  - injection H as H. f_equal. lra.
  - injection H as ->. f_equal. lra.
Qed.

Lemma row_plus_fix (o : list num) (p : list R) :
  length o = length p ->
  (map2 (fun a b => nadd a (Val b)) o p = map Val p <-> o = repeat (Val 0) (length p)).
Proof.
  revert p; induction o as [ | a o IH]; intros [ | b p] H; cbn in *; try discriminate.
  - tauto.
  - injection H as H. specialize (IH p H). split; intros E.
    + injection E as E1 E2. apply nadd_val_fix in E1. apply IH in E2. congruence.
    + injection E as E1 E2. f_equal; [now apply nadd_val_fix | now apply IH].
Qed.

Lemma rows_plus_fix (m : nat) (O : list (list num)) (P : list (list R)) :
  length O = length P ->
  Forall (fun r => length r = m) O -> Forall (fun r => length r = m) P ->
  (map2 (map2 (fun a b => nadd a (Val b))) O P = map (map Val) P
   <-> O = repeat (repeat (Val 0) m) (length P)).
Proof.
  revert P; induction O as [ | o O IH]; intros [ | p P] H HO HP; cbn in *;
    try discriminate.
  - tauto.
  - injection H as H. inversion HO as [ | ? ? Lo HO']; subst.
    inversion HP as [ | ? ? Lp HP']; subst.
    specialize (IH P H HO' HP').
    pose proof (row_plus_fix o p ltac:(congruence)) as Hrow. rewrite Lp in Hrow.
    split; intros E; injection E as E1 E2; f_equal; tauto.
Qed.

Lemma outer_length {A B C : Type} (f : A -> B -> C) (X : list A) (Y : list B) :
  length (outer f X Y) = length X.
Proof. unfold outer. apply length_map. Qed.

Lemma outer_rows_length {A B C : Type} (f : A -> B -> C) (X : list A) (Y : list B) :
  Forall (fun r => length r = length Y) (outer f X Y).
Proof.
  unfold outer. apply Forall_forall; intros r Hr.
  apply in_map_iff in Hr as [a [<- _]]. apply length_map.
Qed.

(* ================================================================== *)
(** * [_apply] *)
(* ================================================================== *)

(** C10, as the code has it: for the kernels whose [_apply] is
    [out.addmm_(X1, X2)], the arc-cosine and the Laplace kernel, and a
    buffer [out] of shape (|X1|, |X2|), [_apply] (called with [X2]
    transposed) leaves [out] holding its prior contents plus the block of
    dot products; the result is the raw bilinear block exactly when [out] was
    zero. *)
Theorem apply_adds_raw_block (fos : string -> option R) (k : kernel)
    (X1 X2 : tensor) (out : block) :
  bilinear_apply k = true ->
  wf X1 -> wf X2 -> wfb out -> ncols X1 = ncols X2 ->
  brows_n out = nrows X1 -> bcols out = nrows X2 ->
  apply fos k X1 (transpose X2) out
  = Ok (block_plus out (outer dot (rows X1) (rows X2)))
  /\ (apply fos k X1 (transpose X2) out = Ok (raw_block X1 X2)
      <-> out = zeros (nrows X1) (nrows X2)).
Proof.
  intros Hk W1 W2 Wo Hc Hr Hb.
  assert (E : apply fos k X1 (transpose X2) out
              = Ok (block_plus out (outer dot (rows X1) (rows X2)))).
  { destruct k; try discriminate; apply addmm_transpose; assumption. }
  split; [exact E | ]. rewrite E.
  pose proof (rows_plus_fix (nrows X2) (brows out)
                (outer dot (rows X1) (rows X2))) as F.
  rewrite outer_length in F. fold (brows_n out) in F.
  specialize (F Hr). unfold wfb in Wo. rewrite Hb in Wo.
  specialize (F Wo (outer_rows_length _ _ _)).
  unfold block_plus, raw_block, zeros. fold (nrows X1) in F.
  destruct out as [c r]; cbn [bcols brows] in *. subst c.
  split; intros H.
  - injection H as H. f_equal. now apply F.
  - injection H as H. do 2 f_equal. now apply F.
Qed.

Lemma apply_adds_raw_block_witness :
  apply (fun _ => None) ArcCosineKernel (mkT 2 [[1; 0]]) (transpose (mkT 2 [[1; 0]]))
    (zeros 1 1)
  = Ok (raw_block (mkT 2 [[1; 0]]) (mkT 2 [[1; 0]])).
Proof.
  apply (apply_adds_raw_block (fun _ => None) ArcCosineKernel
           (mkT 2 [[1; 0]]) (mkT 2 [[1; 0]]) (zeros 1 1));
    try reflexivity; repeat constructor.
Defined.

(* ================================================================== *)
(** * [_finalize], position by position *)
(* ================================================================== *)

Section Tagged.

Context {A : Type}.
Variables (X Y : list (list R)).

Lemma tag_length (M : list (list A)) :
  length M = length X -> length (tag M X Y) = length X.
Proof. intros H. unfold tag. rewrite map2_length; congruence. Qed.

Lemma tag_fst (M : list (list A)) :
  length M = length X -> Forall (fun r => length r = length Y) M ->
  map (map (fun t => fst (fst t))) (tag M X Y) = M.
Proof.
  unfold tag. revert X. induction M as [ | ra M IH]; intros [ | u X'] HL HM;
    cbn in *; try discriminate; auto.
  inversion HM as [ | ? ? Lr HM']; subst. injection HL as HL.
  rewrite IH by assumption. f_equal.
  rewrite map_map2. clear - Lr. revert Y Lr.
  induction ra as [ | a ra IHr]; intros [ | v Y'] Lr; cbn in *; try discriminate; auto.
  f_equal. apply IHr. congruence.
Qed.

(** Along a row of [tag M X Y] the row of [X] is constant. *)
Lemma tag_row_col {B : Type} (F : list B -> list R -> list B)
    (g k : A * list R * list R -> B) (M : list (list A)) :
  (forall ra u, F (map g (map2 (fun a v => (a, u, v)) ra Y)) u
                = map k (map2 (fun a v => (a, u, v)) ra Y)) ->
  map2 F (map (map g) (tag M X Y)) X = map (map k) (tag M X Y).
Proof.
  intros H. unfold tag. revert X. induction M as [ | ra M IH]; intros [ | u X'];
    cbn; auto.
  rewrite H, IH. reflexivity.
Qed.

Lemma tag_row_ext {B : Type} (F : list B -> list B)
    (g k : A * list R * list R -> B) (M : list (list A)) :
  (forall ra u, F (map g (map2 (fun a v => (a, u, v)) ra Y))
                = map k (map2 (fun a v => (a, u, v)) ra Y)) ->
  map F (map (map g) (tag M X Y)) = map (map k) (tag M X Y).
Proof.
  intros H. unfold tag. revert X. induction M as [ | ra M IH]; intros [ | u X'];
    cbn; auto.
  rewrite H, IH. reflexivity.
Qed.

End Tagged.

Section Inplace.

Variables (X Y : list (list R)) (M : list (list num)).
Hypothesis HL : length M = length X.
Hypothesis HM : Forall (fun r => length r = length Y) M.

(** [A.op_(n1)] for the column [n1] of a function [h] of the rows of [X]. *)
Lemma inplace_col (f : num -> num -> num) (g : num * list R * list R -> num)
    (h : list R -> R) :
  inplace f (mkB (length Y) (map (map g) (tag M X Y))) (mkT 1 (map (fun u => [h u]) X))
  = Ok (mkB (length Y)
          (map (map (fun t => f (g t) (Val (h (snd (fst t)))))) (tag M X Y))).
Proof.
  assert (LG : length (tag M X Y) = length X) by (now apply tag_length).
  unfold inplace, expand_to, brows_n, nrows. cbn [bcols brows ncols rows].
  rewrite !length_map, LG, !Nat.eqb_refl, orb_true_r.
  cbn [orb andb bind].
  do 2 f_equal. rewrite map_map.
  rewrite map2_map_r.
  apply (tag_row_col X Y
           (fun ra u => map2 (fun a t => f a (Val t)) ra (expand (length Y) [h u]))
           g).
  intros ra u. rewrite expand_singleton.
  clear. revert Y. induction ra as [ | a ra IH]; intros [ | v Y']; cbn; auto.
  f_equal. apply IH.
Qed.

(** [A.op_(n2)] for the row [n2] of a function [h] of the rows of [Y]. *)
Lemma inplace_row (f : num -> num -> num) (g : num * list R * list R -> num)
    (h : list R -> R) :
  inplace f (mkB (length Y) (map (map g) (tag M X Y))) (mkT (length Y) [map h Y])
  = Ok (mkB (length Y)
          (map (map (fun t => f (g t) (Val (h (snd t))))) (tag M X Y))).
Proof.
  assert (LG : length (tag M X Y) = length X) by (now apply tag_length).
  unfold inplace, expand_to, brows_n, nrows. cbn [bcols brows ncols rows length map].
  rewrite !length_map, LG, !Nat.eqb_refl, orb_true_r.
  cbn [orb andb bind].
  do 2 f_equal.
  rewrite expand_same by apply length_map. cbn [hd].
  assert (E : (if Nat.eqb 1 (length X) then [map h Y]
               else repeat (map h Y) (length X))
              = repeat (map h Y) (length X)).
  { destruct (Nat.eqb_spec 1 (length X)) as [<- | _]; reflexivity. }
  rewrite E.
  replace (length X) with (length (map (map g) (tag M X Y))) by (now rewrite length_map).
  rewrite map2_repeat_r.
  apply (tag_row_ext X Y
           (fun ra => map2 (fun a t => f a (Val t)) ra (map h Y)) g).
  intros ra u.
  clear. revert Y. induction ra as [ | a ra IH]; intros [ | v Y']; cbn; auto.
  f_equal. apply IH.
Qed.

Lemma mapb_tag (m : nat) (f : num -> num) (g : num * list R * list R -> num) :
  mapb f (mkB m (map (map g) (tag M X Y))) = mkB m (map (map (fun t => f (g t))) (tag M X Y)).
Proof.
  unfold mapb. cbn [bcols brows]. f_equal. rewrite map_map.
  apply map_ext; intros r. apply map_map.
Qed.

Lemma zipb_tag (m : nat) (f : num -> num -> num)
    (g g' : num * list R * list R -> num) :
  zipb f (mkB m (map (map g) (tag M X Y))) (mkB m (map (map g') (tag M X Y)))
  = mkB m (map (map (fun t => f (g t) (g' t))) (tag M X Y)).
Proof.
  unfold zipb. cbn [bcols brows]. f_equal.
  rewrite map2_map_l, map2_map_r, map2_diag.
  apply map_ext; intros r. rewrite map2_map_l, map2_map_r, map2_diag. reflexivity.
Qed.

End Inplace.

Lemma ArcCosineKernel_finalize_entries (A : block) (X1 X2 : tensor) :
  brows_n A = nrows X1 -> bcols A = nrows X2 -> wfb A ->
  ArcCosineKernel_finalize A (ArcCosineKernel_prepare X1 X2)
  = Ok (mkB (nrows X2)
          (map (map (fun t => ArcCosineKernel_finalize_entry (fst (fst t))
                                (norm (snd (fst t))) (norm (snd t))))
             (tag (brows A) (rows X1) (rows X2)))).
Proof.
  destruct A as [m M]. unfold brows_n, nrows, wfb. cbn [bcols brows].
  intros HL -> HM.
  rewrite <- (tag_fst (rows X1) (rows X2) M HL HM) at 1.
  unfold ArcCosineKernel_finalize, ArcCosineKernel_prepare, nrows.
  rewrite (inplace_col _ _ M HL). cbn [bind].
  rewrite (inplace_row _ _ M HL). cbn [bind].
  rewrite !mapb_tag, !zipb_tag.
  rewrite (inplace_col _ _ M HL). cbn [bind].
  rewrite (inplace_row _ _ M HL). cbn [bind].
  rewrite mapb_tag. reflexivity.
Qed.

Lemma LaplaceKernelSphere_finalize_entries (alpha gamma : R) (A : block)
    (X1 X2 : tensor) :
  brows_n A = nrows X1 -> bcols A = nrows X2 -> wfb A ->
  LaplaceKernelSphere_finalize alpha gamma A (LaplaceKernelSphere_prepare X1 X2)
  = Ok (mkB (nrows X2)
          (map (map (fun t => LaplaceKernelSphere_finalize_entry alpha gamma
                                (fst (fst t)) (norm (snd (fst t))) (norm (snd t))))
             (tag (brows A) (rows X1) (rows X2)))).
Proof.
  destruct A as [m M]. unfold brows_n, nrows, wfb. cbn [bcols brows].
  intros HL -> HM.
  rewrite <- (tag_fst (rows X1) (rows X2) M HL HM) at 1.
  unfold LaplaceKernelSphere_finalize, LaplaceKernelSphere_prepare, nrows.
  rewrite (inplace_col _ _ M HL). cbn [bind].
  rewrite (inplace_row _ _ M HL). cbn [bind].
  rewrite !mapb_tag.
  rewrite (inplace_col _ _ M HL). cbn [bind].
  rewrite (inplace_row _ _ M HL). cbn [bind].
  reflexivity.
Qed.

(** The tagged raw block is the outer product of the rows. *)
Lemma tag_outer {A : Type} (f : list R -> list R -> A) (X Y : list (list R)) :
  tag (outer f X Y) X Y = outer (fun u v => (f u v, u, v)) X Y.
Proof.
  unfold tag, outer. rewrite map2_map_l, map2_diag.
  apply map_ext; intros u. rewrite map2_map_l, map2_diag. reflexivity.
Qed.

Lemma map_map_outer {A B : Type} (g : A -> B) (f : list R -> list R -> A)
    (X Y : list (list R)) :
  map (map g) (outer f X Y) = outer (fun u v => g (f u v)) X Y.
Proof.
  unfold outer. rewrite map_map. apply map_ext; intros u. apply map_map.
Qed.

Lemma block_plus_zeros (n m : nat) (P : list (list R)) :
  length P = n -> Forall (fun r => length r = m) P ->
  block_plus (zeros n m) P = mkB m (map (map Val) P).
Proof.
  intros HL HP. unfold block_plus, zeros. cbn [bcols brows]. f_equal.
  assert (H1 : length (repeat (repeat (Val 0) m) n) = length P).
  { rewrite repeat_length. now symmetry. }
  assert (H2 : Forall (fun r => length r = m) (repeat (repeat (Val 0) m) n)).
  { apply Forall_forall; intros r Hr. apply repeat_spec in Hr; subst.
    apply repeat_length. }
  apply (proj2 (rows_plus_fix m _ P H1 H2 HP)). now rewrite HL.
Qed.

(** After [_apply] into a zeroed block the buffer holds the raw block. *)
Lemma apply_zeros (fos : string -> option R) (k : kernel) (X1 X2 : tensor) :
  bilinear_apply k = true -> wf X1 -> wf X2 -> ncols X1 = ncols X2 ->
  apply fos k X1 (transpose X2) (zeros (nrows X1) (nrows X2))
  = Ok (raw_block X1 X2).
Proof.
  intros Hk W1 W2 Hc.
  assert (E : apply fos k X1 (transpose X2) (zeros (nrows X1) (nrows X2))
              = Ok (block_plus (zeros (nrows X1) (nrows X2))
                      (outer dot (rows X1) (rows X2)))).
  { destruct k; try discriminate; apply addmm_transpose; auto;
      unfold zeros, brows_n; cbn [brows]; apply repeat_length. }
  rewrite E. rewrite block_plus_zeros; auto.
  - apply outer_length.
  - apply outer_rows_length.
Qed.

Lemma raw_block_shape (X1 X2 : tensor) :
  brows_n (raw_block X1 X2) = nrows X1 /\ bcols (raw_block X1 X2) = nrows X2
  /\ wfb (raw_block X1 X2).
Proof.
  unfold raw_block, brows_n, wfb. cbn [bcols brows]. repeat split.
  - now rewrite length_map, outer_length.
  - rewrite map_map_outer. apply outer_rows_length.
Qed.

Lemma ArcCosineKernel_finalize_entry_eq (p a b : R) :
  ArcCosineKernel_finalize_entry (Val p) a b = arccos_entry p a b.
Proof.
  unfold ArcCosineKernel_finalize_entry.
  destruct (Req_dec_T a 0) as [Ea | Na].
  { subst a. rewrite ndiv_zero. cbn.
    unfold arccos_entry. rewrite Rmult_0_l, ndiv_zero. reflexivity. }
  rewrite (ndiv_val _ _ Na).
  destruct (Req_dec_T b 0) as [Eb | Nb].
  { subst b. rewrite ndiv_zero, (div_fault_quotient p a Na). cbn.
    unfold arccos_entry. rewrite Rmult_0_r, ndiv_zero. reflexivity. }
  rewrite (ndiv_val _ _ Nb).
  assert (Nab : a * b <> 0) by (apply Rmult_integral_contrapositive; tauto).
  rewrite (arccos_entry_val _ _ _ Nab). unfold arccos_value.
  replace (p / a / b) with (p / (a * b)) by (field; tauto).
  rewrite nacos_clamp. cbn [clamp lift1 nsin nmul nadd lift2].
  rewrite (ndiv_val _ _ PI_neq_0). fold (clampR (p / (a * b))).
  f_equal. lra.
Qed.

(** For the arc-cosine kernel the staged path computes the block of the
    dense path, element by element, non-finite elements included. *)
Lemma ArcCosineKernel_staged_direct (fos : string -> option R) (X1 X2 : tensor) :
  wf X1 -> wf X2 -> ncols X1 = ncols X2 ->
  staged fos ArcCosineKernel X1 X2
  = direct_kernel ArcCosineKernel (Some X1) (Some X2).
Proof.
  intros W1 W2 Hc. unfold staged.
  rewrite apply_zeros by auto. cbn [bind finalize prepare].
  destruct (raw_block_shape X1 X2) as [S1 [S2 S3]].
  rewrite ArcCosineKernel_finalize_entries by assumption.
  cbn [direct_kernel ArcCosineKernel_direct_kernel k_arccos unsqueeze bind].
  unfold broadcast_dim. rewrite Hc, Nat.eqb_refl. cbn [bind].
  do 2 f_equal. unfold raw_block. cbn [brows].
  rewrite map_map_outer, tag_outer, map_map_outer. cbn [fst snd].
  apply outer_ext_in; intros u v Hu Hv.
  rewrite !expand_same; [ | now apply wf_in | rewrite <- Hc; now apply wf_in].
  apply ArcCosineKernel_finalize_entry_eq.
Qed.

(* ================================================================== *)
(** * Norms *)
(* ================================================================== *)

Lemma dot_self_nonneg (u : list R) : 0 <= dot u u.
Proof.
  unfold dot. induction u as [ | a u IH]; cbn; [lra | ].
  fold (rsum (map2 Rmult u u)). nra.
Qed.

Lemma dot_self_pos (u : list R) : nonzero u -> 0 < dot u u.
Proof.
  unfold nonzero, dot. induction 1 as [a u Ha | a u Hu IH]; cbn.
  - pose proof (dot_self_nonneg u) as H. unfold dot in H.
    fold (rsum (map2 Rmult u u)). nra.
  - fold (rsum (map2 Rmult u u)). nra.
Qed.

Lemma norm_pos (u : list R) : nonzero u -> 0 < norm u.
Proof. intros H. apply sqrt_lt_R0. now apply dot_self_pos. Qed.

Lemma norm_sq (u : list R) : norm u * norm u = dot u u.
Proof. apply sqrt_sqrt, dot_self_nonneg. Qed.

(* ================================================================== *)
(** * The numeric domain guard *)
(* ================================================================== *)

Lemma rpow_nonneg_base (x y : R) :
  0 <= x -> rpow x y <> Bad AcosDomain /\ rpow x y <> Bad PowNegBase.
Proof.
  intros Hx. unfold rpow.
  destruct (Rlt_dec 0 x); [split; discriminate | ].
  destruct (Req_dec_T x 0); [ | lra].
  destruct (Req_dec_T y 0); [split; discriminate | ].
  destruct (Rlt_dec 0 y); split; discriminate.
Qed.

Lemma rpow_nonneg_val (x y : R) : 0 <= x -> 0 <= y -> is_val (rpow x y).
Proof.
  intros Hx Hy. unfold rpow, is_val.
  destruct (Rlt_dec 0 x); [eauto | ].
  destruct (Req_dec_T x 0); [ | lra].
  destruct (Req_dec_T y 0); [eauto | ].
  destruct (Rlt_dec 0 y); [eauto | lra].
Qed.

Lemma laplace_exp_zero (gamma alpha p a b : R) :
  a * b = 0 -> laplace_exp gamma alpha p a b = Bad (div_fault p).
Proof. intros E. unfold laplace_exp. rewrite E, ndiv_zero. reflexivity. Qed.

Lemma laplace_exp_nonzero (gamma alpha p a b : R) :
  a * b <> 0 ->
  laplace_exp gamma alpha p a b
  = nexp (nmul (Val alpha) (rpow (1 - clampR (p / (a * b))) gamma)).
Proof. intros N. unfold laplace_exp. rewrite (ndiv_val _ _ N). reflexivity. Qed.

Lemma nexp_nmul_safe (alpha : R) (e : num) :
  e <> Bad AcosDomain /\ e <> Bad PowNegBase ->
  nexp (nmul (Val alpha) e) <> Bad AcosDomain
  /\ nexp (nmul (Val alpha) e) <> Bad PowNegBase.
Proof. destruct e as [x | f]; cbn; [split; discriminate | tauto]. Qed.

Lemma laplace_exp_safe (gamma alpha p a b : R) :
  (laplace_exp gamma alpha p a b <> Bad AcosDomain
   /\ laplace_exp gamma alpha p a b <> Bad PowNegBase)
  /\ (a * b <> 0 -> 0 <= gamma -> is_val (laplace_exp gamma alpha p a b)).
Proof.
  pose proof (clampR_range (p / (a * b))) as Hc.
  destruct (Req_dec_T (a * b) 0) as [E | N].
  - rewrite (laplace_exp_zero _ _ _ _ _ E). split; [apply div_fault_guarded | tauto].
  - rewrite (laplace_exp_nonzero _ _ _ _ _ N). split.
    + apply nexp_nmul_safe, rpow_nonneg_base. lra.
    + intros _ Hg.
      destruct (rpow_nonneg_val (1 - clampR (p / (a * b))) gamma) as [x Hx];
        [lra | lra | ].
      rewrite Hx. cbn. unfold is_val; eauto.
Qed.

Lemma ntk_entry_safe (variance p a b : R) :
  (ntk_entry variance p a b <> Bad AcosDomain
   /\ ntk_entry variance p a b <> Bad PowNegBase)
  /\ (a * b <> 0 -> is_val (ntk_entry variance p a b)).
Proof.
  destruct (Req_dec_T (a * b) 0) as [E | N].
  - rewrite (ntk_entry_zero _ _ _ _ E). split; [apply div_fault_guarded | tauto].
  - rewrite (ntk_entry_val _ _ _ _ N). split; [split; discriminate | ].
    intros _. unfold is_val; eauto.
Qed.

Lemma LaplaceKernelSphere_finalize_entry_eq (alpha gamma p a b : R) :
  LaplaceKernelSphere_finalize_entry alpha gamma (Val p) a b
  = nmul (Val (a * b)) (laplace_exp gamma alpha p a b).
Proof.
  unfold LaplaceKernelSphere_finalize_entry.
  destruct (Req_dec_T a 0) as [Ea | Na].
  { subst a. rewrite ndiv_zero. cbn.
    rewrite laplace_exp_zero by lra. reflexivity. }
  rewrite (ndiv_val _ _ Na).
  destruct (Req_dec_T b 0) as [Eb | Nb].
  { subst b. rewrite ndiv_zero, (div_fault_quotient p a Na). cbn.
    rewrite laplace_exp_zero by lra. reflexivity. }
  rewrite (ndiv_val _ _ Nb).
  assert (Nab : a * b <> 0) by (apply Rmult_integral_contrapositive; tauto).
  rewrite (laplace_exp_nonzero _ _ _ _ _ Nab).
  replace (p / a / b) with (p / (a * b)) by (field; tauto).
  cbn [clamp lift1 nmul nadd lift2 npow]. fold (clampR (p / (a * b))).
  replace (clampR (p / (a * b)) * -1 + 1) with (1 - clampR (p / (a * b))) by lra.
  destruct (rpow (1 - clampR (p / (a * b))) gamma) as [x | f]; cbn; [ | reflexivity].
  f_equal. rewrite (Rmult_comm x alpha). lra.
Qed.

Lemma Forall_map2_r {A B C : Type} (P : B -> Prop) (Q : C -> Prop)
    (f : A -> B -> C) (l : list A) (m : list B) :
  (forall a b, P b -> Q (f a b)) -> Forall P m -> Forall Q (map2 f l m).
Proof.
  intros H Hm. revert l. induction Hm as [ | b m Hb Hm IH]; intros [ | a l]; cbn;
    constructor; auto.
Qed.

Lemma all_outer {A B : Type} (P : num -> Prop) (f : A -> B -> num)
    (X : list A) (Y : list B) :
  (forall u v, In u X -> In v Y -> P (f u v)) -> Forall (Forall P) (outer f X Y).
Proof.
  intros H. unfold outer. apply Forall_forall; intros r Hr.
  apply in_map_iff in Hr as [u [<- Hu]].
  apply Forall_forall; intros e He.
  apply in_map_iff in He as [v [<- Hv]]. now apply H.
Qed.

Lemma nmul_val_is_val (x : R) (e : num) : is_val e -> is_val (nmul (Val x) e).
Proof. intros [y ->]. cbn. unfold is_val; eauto. Qed.

Lemma norm_prod_neq_0 (X1 X2 : list (list R)) (u v : list R) :
  Forall nonzero X1 -> Forall nonzero X2 -> In u X1 -> In v X2 ->
  norm u * norm v <> 0.
Proof.
  intros H1 H2 Hu Hv.
  pose proof (norm_pos u (proj1 (Forall_forall _ _) H1 u Hu)).
  pose proof (norm_pos v (proj1 (Forall_forall _ _) H2 v Hv)).
  nra.
Qed.

(* ================================================================== *)
(** * Linear algebra for the dense solver *)
(* ================================================================== *)

Lemma dot_nil_r (u : list R) : dot u [] = 0.
Proof. destruct u; reflexivity. Qed.

Lemma dot_cons (a b : R) (u v : list R) : dot (a :: u) (b :: v) = a * b + dot u v.
Proof. reflexivity. Qed.

Lemma dot_scale (c : R) (u y : list R) : dot (map (Rmult c) u) y = c * dot u y.
Proof.
  revert y; induction u as [ | a u IH]; intros [ | b y]; cbn [map];
    rewrite ?dot_nil_r, ?dot_cons; try (unfold dot; cbn; lra).
  rewrite IH. lra.
Qed.

Lemma dot_plus (u w y : list R) :
  length u = length y -> length w = length y ->
  dot (map2 Rplus u w) y = dot u y + dot w y.
Proof.
  revert w y; induction u as [ | a u IH]; intros [ | c w] [ | b y] H1 H2;
    cbn [length] in H1, H2; try discriminate; cbn [map2]; rewrite ?dot_cons;
    try (unfold dot; cbn; lra).
  rewrite IH by congruence. lra.
Qed.

Lemma dot_repeat_0 (m : nat) (y : list R) : dot (repeat 0 m) y = 0.
Proof.
  revert y; induction m as [ | m IH]; intros [ | b y]; cbn [repeat];
    rewrite ?dot_nil_r, ?dot_cons; try reflexivity.
  rewrite IH. lra.
Qed.

Lemma vm_length (m : nat) (a : list R) (B : list (list R)) :
  Forall (fun r => length r = m) B -> length (vm m a B) = m.
Proof.
  intros HB. revert a. induction HB as [ | b B Hb HB IH]; intros [ | ak a];
    cbn [vm]; try apply repeat_length.
  rewrite map2_length; rewrite length_map; [assumption | ].
  now rewrite IH.
Qed.

Lemma dot_vm (a y : list R) (B : list (list R)) :
  Forall (fun r => length r = length y) B ->
  dot (vm (length y) a B) y = dot a (mv B y).
Proof.
  intros HB. revert a. induction HB as [ | b B Hb HB IH]; intros [ | ak a];
    cbn [vm mv map]; rewrite ?dot_repeat_0, ?dot_nil_r; try reflexivity.
  rewrite dot_plus, dot_scale, IH, dot_cons.
  - reflexivity.
  - now rewrite length_map.
  - now apply vm_length.
Qed.

Lemma mv_matmul (n : nat) (A B : list (list R)) (y : list R) :
  length y = n -> Forall (fun r => length r = n) B ->
  mv (matmul (mkT n A) (mkT n B)) y = mv A (mv B y).
Proof.
  intros <- HB. unfold mv at 1 2, matmul. cbn [ncols rows].
  rewrite map_map. apply map_ext; intros a. now apply dot_vm.
Qed.

Lemma dot_indicator (y : list R) (s i : nat) :
  dot (map (fun j => if Nat.eqb i j then 1 else 0) (seq s (length y))) y
  = if Nat.leb s i then nth (i - s) y 0 else 0.
Proof.
  revert s; induction y as [ | b y IH]; intros s; cbn [length seq map].
  - rewrite dot_nil_r. destruct (Nat.leb s i); [now destruct (i - s)%nat | reflexivity].
  - rewrite dot_cons, IH.
    destruct (Nat.eqb_spec i s) as [-> | Ne].
    + rewrite Nat.leb_refl, Nat.sub_diag. cbn [nth].
      destruct (Nat.leb_spec (S s) s); [lia | lra].
    + destruct (Nat.leb_spec s i) as [Le | Gt].
      * destruct (Nat.leb_spec (S s) i); [ | lia].
        replace (i - s)%nat with (S (i - S s)) by lia. cbn [nth]. lra.
      * destruct (Nat.leb_spec (S s) i); [lia | lra].
Qed.

Lemma map_nth_seq (y : list R) :
  map (fun i => nth i y 0) (seq 0 (length y)) = y.
Proof.
  induction y as [ | b y IH]; cbn [length seq map nth]; [reflexivity | ].
  f_equal. rewrite <- seq_shift, map_map. exact IH.
Qed.

Lemma mv_eye (y : list R) : mv (eye (length y) (length y)) y = y.
Proof.
  unfold mv, eye. rewrite map_map.
  transitivity (map (fun i => nth i y 0) (seq 0 (length y)));
    [ | apply map_nth_seq].
  apply map_ext; intros i. rewrite dot_indicator. cbn [Nat.leb].
  now rewrite Nat.sub_0_r.
Qed.

(** A matrix times its inverse times [y] is [y]. *)
Lemma mv_inverse (n : nat) (M M' : list (list R)) (y : list R) :
  is_inverse n M M' -> length y = n -> mv M (mv M' y) = y.
Proof.
  intros (_ & _ & _ & HM' & E & _) Hy.
  rewrite <- (mv_matmul n) by assumption. rewrite E, <- Hy. apply mv_eye.
Qed.

Lemma nsum_vals (l : list R) : nsum (map Val l) = Val (rsum l).
Proof.
  induction l as [ | a l IH]; [reflexivity | ].
  cbn [map]. unfold nsum in *. cbn [fold_right]. rewrite IH. reflexivity.
Qed.

Lemma bmv_row_vals (r y : list R) : bmv_row (map Val r) (map Val y) = Val (dot r y).
Proof.
  unfold bmv_row, dot. rewrite <- nsum_vals. f_equal.
  rewrite map2_map_l, map2_map_r, map_map2. reflexivity.
Qed.

Lemma bmv_vals (n : nat) (M : list (list R)) (y : list R) :
  length y = n ->
  bmv (mkB n (map (map Val) M)) (map Val y) = Ok (map Val (mv M y)).
Proof.
  intros Hy. unfold bmv. cbn [bcols brows].
  rewrite length_map, Hy, Nat.eqb_refl. f_equal.
  unfold mv. rewrite !map_map. apply map_ext; intros r. apply bmv_row_vals.
Qed.

Lemma finite_row_inr (r : list num) (l : list R) :
  finite_row r = inr l -> r = map Val l.
Proof.
  revert l; induction r as [ | [x | f] r IH]; intros l H; cbn in H.
  - injection H as <-. reflexivity.
  - destruct (finite_row r) as [f | l']; [discriminate | ].
    injection H as <-. cbn. f_equal. now apply IH.
  - discriminate.
Qed.

Lemma finite_rows_inr (M : list (list num)) (L : list (list R)) :
  finite_rows M = inr L -> M = map (map Val) L.
Proof.
  revert L; induction M as [ | r M IH]; intros L H; cbn in H.
  - injection H as <-. reflexivity.
  - destruct (finite_row r) as [f | l] eqn:Er; [discriminate | ].
    destruct (finite_rows M) as [f | L']; [discriminate | ].
    injection H as <-. cbn. f_equal; [now apply finite_row_inr | now apply IH].
Qed.

(* ================================================================== *)
(** * DirectKernelSolver *)
(* ================================================================== *)

(** The dense kernel matrix of a point set against itself is square. *)
Lemma direct_kernel_square (k : kernel) (X : tensor) (Kxx : block) :
  direct_kernel k (Some X) (Some X) = Ok Kxx ->
  brows_n Kxx = nrows X /\ bcols Kxx = nrows X.
Proof.
  destruct k as [ | variance | alpha gamma];
    cbn [direct_kernel ArcCosineKernel_direct_kernel
         NeuralTangentKernel_direct_kernel LaplaceKernelSphere_direct_kernel];
    unfold ArcCosineKernel_direct_kernel, NeuralTangentKernel_direct_kernel,
      LaplaceKernelSphere_direct_kernel, k_arccos, k_spherical_laplace;
    cbn [unsqueeze bind]; unfold broadcast_dim; rewrite Nat.eqb_refl; cbn [bind].
  - intros H; injection H as <-. unfold brows_n; cbn [brows bcols].
    now rewrite outer_length.
  - intros H; injection H as <-. unfold brows_n; cbn [brows bcols].
    now rewrite outer_length.
  - destruct (Nat.eqb (nrows X) 1); intros H; injection H as <-;
      unfold brows_n; cbn [brows bcols].
    + now rewrite length_map, outer_length.
    + rewrite map2_length; now rewrite !outer_length.
Qed.

Lemma eye_length (n m : nat) : length (eye n m) = n.
Proof. unfold eye. now rewrite length_map, length_seq. Qed.

Lemma regularized_rows_n (Kxx : block) (pen : R) :
  brows_n (regularized Kxx pen) = brows_n Kxx.
Proof.
  unfold regularized, brows_n. cbn [brows].
  rewrite map2_length; [reflexivity | ]. now rewrite eye_length.
Qed.

(** C5, as the code has it: when the regularized kernel matrix
    [direct_kernel(X, X) + penalty I] is finite and invertible, [fit(X, y)]
    returns, stores [X] in [x_] and in [alpha_] a vector [a] with
    [(direct_kernel(X, X) + penalty I) a = y]; a later [predict(Xq)] is
    [direct_kernel(Xq, X) @ a].  What [torch.inverse] does on a matrix
    without an inverse plays no part. *)
Theorem fit_solves_then_predict_applies (singular : block -> result block)
    (k : kernel) (pen : R) (X : tensor) (y : list R) (Kxx : block)
    (M : list (list R)) :
  direct_kernel k (Some X) (Some X) = Ok Kxx ->
  finite_rows (brows (regularized Kxx pen)) = inr M ->
  (exists M', is_inverse (nrows X) M M') ->
  length y = nrows X ->
  snd (fit singular (DirectKernelSolver_init k pen) X y) = Ok tt
  /\ x_ (fst (fit singular (DirectKernelSolver_init k pen) X y)) = Some X
  /\ exists a,
       alpha_ (fst (fit singular (DirectKernelSolver_init k pen) X y)) = Some a
       /\ bmv (regularized Kxx pen) a = Ok (map Val y)
       /\ forall Xq,
            predict (fst (fit singular (DirectKernelSolver_init k pen) X y)) Xq
            = (Kq <- direct_kernel k (Some Xq) (Some X) ;; bmv Kq a).
Proof.
  intros HK HF Hinv Hy.
  destruct (direct_kernel_square k X Kxx HK) as [Sr Sc].
  unfold fit, DirectKernelSolver_init. cbn [kernel_ penalty alpha_ x_].
  rewrite HK. unfold torch_inverse.
  rewrite regularized_rows_n. cbn [bcols regularized].
  rewrite Sr, Sc, Nat.eqb_refl. fold (regularized Kxx pen). rewrite HF.
  destruct (excluded_middle_informative
              (exists M' : list (list R), is_inverse (nrows X) M M')) as [Hex | Hn];
    [ | contradiction].
  destruct (constructive_indefinite_description _ Hex) as [M' HM']. cbn [proj1_sig bind].
  assert (LM' : length (mv M' y) = nrows X).
  { unfold mv. rewrite length_map. apply HM'. }
  rewrite (bmv_vals _ _ _ Hy). cbn [fst snd x_ alpha_ kernel_].
  repeat split. exists (map Val (mv M' y)). repeat split.
  pose proof (finite_rows_inr _ _ HF) as EM.
  replace (regularized Kxx pen) with (mkB (nrows X) (map (map Val) M)).
  - rewrite (bmv_vals _ _ _ LM'). now rewrite (mv_inverse _ _ _ _ HM' Hy).
  - rewrite <- EM, <- Sc. reflexivity.
Qed.

Lemma duplicate_points_kernel :
  direct_kernel ArcCosineKernel
    (Some (mkT 2 [[1; 0]; [1; 0]])) (Some (mkT 2 [[1; 0]; [1; 0]]))
  = Ok (mkB 2 [[Val 1; Val 1]; [Val 1; Val 1]]).
Proof.
  cbn [direct_kernel ArcCosineKernel_direct_kernel k_arccos unsqueeze bind
       ncols nrows rows broadcast_dim Nat.eqb outer map expand length].
  rewrite norm_e1, dot_e1, arccos_entry_val by lra.
  rewrite arccos_value_aligned, Rplus_0_r. reflexivity.
Qed.

(** C5 as stated fails on X = [[1,0],[1,0]], y = [1, 0], penalty = 0: the
    kernel matrix is [[1,1],[1,1]] and no vector solves the system, so
    whatever [fit] leaves in [alpha_] does not satisfy the equation. *)
Lemma singular_system_has_no_solution :
  direct_kernel ArcCosineKernel
    (Some (mkT 2 [[1; 0]; [1; 0]])) (Some (mkT 2 [[1; 0]; [1; 0]]))
  = Ok (mkB 2 [[Val 1; Val 1]; [Val 1; Val 1]])
  /\ ~ (exists a, bmv (regularized (mkB 2 [[Val 1; Val 1]; [Val 1; Val 1]]) 0) a
                  = Ok [Val 1; Val 0])
  /\ (forall singular a,
        alpha_ (fst (fit singular (DirectKernelSolver_init ArcCosineKernel 0)
                       (mkT 2 [[1; 0]; [1; 0]]) [1; 0])) = Some a ->
        bmv (regularized (mkB 2 [[Val 1; Val 1]; [Val 1; Val 1]]) 0) a
        <> Ok [Val 1; Val 0]).
Proof.
  assert (N : ~ (exists a,
                   bmv (regularized (mkB 2 [[Val 1; Val 1]; [Val 1; Val 1]]) 0) a
                   = Ok [Val 1; Val 0])).
  { intros [a Ha]. unfold bmv in Ha.
    cbn [regularized bcols brows brows_n length eye seq map map2 nadd lift2 Nat.eqb]
      in Ha.
    destruct a as [ | a1 [ | a2 [ | ? ?]]]; cbn [length Nat.eqb] in Ha;
      try discriminate.
    injection Ha as H1 H2.
    unfold bmv_row, nsum in H1, H2. cbn [map2 fold_right] in H1, H2.
    destruct a1 as [x1 | ?], a2 as [x2 | ?]; cbn in H1, H2; try discriminate.
    injection H1 as H1. injection H2 as H2. lra. }
  split; [exact duplicate_points_kernel | ]. split; [exact N | ].
  intros singular a _ Ha. apply N. exists a. exact Ha.
Qed.

(* ================================================================== *)
(** * The device kernel *)
(* ================================================================== *)

Lemma transpose_rows_cons (m : nat) (r : list R) (T : list (list R)) :
  length r = length T ->
  transpose_rows (S m) (map2 cons r T) = r :: transpose_rows m T.
Proof.
  revert T; induction r as [ | a r IH]; intros [ | t T] H; cbn in *;
    try discriminate; [reflexivity | ].
  rewrite IH by congruence. reflexivity.
Qed.

Lemma transpose_rows_involutive (d : nat) (Y : list (list R)) :
  Forall (fun r => length r = d) Y ->
  transpose_rows (length Y) (transpose_rows d Y) = Y.
Proof.
  induction 1 as [ | y Y Hy HY IH]; cbn [length transpose_rows].
  - destruct d; reflexivity.
  - rewrite transpose_rows_cons, IH; [reflexivity | ].
    rewrite transpose_rows_length; assumption.
Qed.

Lemma transpose_involutive (X : tensor) : wf X -> transpose (transpose X) = X.
Proof.
  intros W. destruct X as [d Y]. unfold transpose, nrows, wf in *. cbn [ncols rows] in *.
  rewrite transpose_rows_length by assumption.
  now rewrite transpose_rows_involutive.
Qed.

Lemma nth_concat {A : Type} (D : nat) (rows : list (list A)) (I k : nat) (d : A) :
  Forall (fun r => length r = D) rows -> (k < D)%nat ->
  nth (I * D + k) (concat rows) d = nth k (nth I rows []) d.
Proof.
  intros HR Hk. revert I. induction HR as [ | r rows Hr HR IH]; intros I.
  - cbn [concat]. replace (nth I [] []) with (@nil A) by (now destruct I).
    now destruct (I * D + k)%nat, k.
  - cbn [concat]. destruct I as [ | I].
    + cbn [Nat.mul Nat.add nth]. apply app_nth1. lia.
    + cbn [nth]. rewrite app_nth2 by lia.
      replace (S I * D + k - length r)%nat with (I * D + k)%nat by lia.
      apply IH.
Qed.

Lemma concat_length_uniform {A : Type} (D : nat) (rows : list (list A)) :
  Forall (fun r => length r = D) rows -> length (concat rows) = (length rows * D)%nat.
Proof.
  induction 1 as [ | r rows Hr HR IH]; cbn [concat length]; [reflexivity | ].
  rewrite length_app, IH, Hr. lia.
Qed.

(** The two-accumulator loops of the kernel are sums over the indices. *)
Lemma fold_pair_sum (f g : nat -> R) (l : list nat) (a b : R) :
  fold_left (fun '(x, y) k => (fma (f k) (f k) x, fma (g k) (g k) y)) l (a, b)
  = (a + rsum (map (fun k => f k * f k) l), b + rsum (map (fun k => g k * g k) l)).
Proof.
  revert a b; induction l as [ | k l IH]; intros a b; cbn [fold_left map rsum fold_right].
  - f_equal; lra.
  - rewrite IH. unfold fma. fold (rsum (map (fun k => f k * f k) l)).
    fold (rsum (map (fun k => g k * g k) l)). f_equal; lra.
Qed.

Lemma rsum_seq_map2 (F : R -> R -> R) (u v : list R) :
  length u = length v ->
  rsum (map (fun k => F (nth k u 0) (nth k v 0)) (seq 0 (length u)))
  = rsum (map2 F u v).
Proof.
  revert v; induction u as [ | a u IH]; intros [ | b v] H; cbn in *; try discriminate;
    [reflexivity | ].
  rewrite <- seq_shift, map_map. cbn [nth].
  fold (rsum (map (fun k => F (nth k u 0) (nth k v 0)) (seq 0 (length u)))).
  fold (rsum (map2 F u v)). rewrite IH by congruence. reflexivity.
Qed.

Lemma fold_left_ext_in {A B : Type} (f g : A -> B -> A) (l : list B) (a : A) :
  (forall x b, In b l -> f x b = g x b) -> fold_left f l a = fold_left g l a.
Proof.
  revert a; induction l as [ | b l IH]; intros a H; cbn; [reflexivity | ].
  rewrite H by (now left). apply IH. intros; apply H; now right.
Qed.

(** One thread in range writes [stable_value] of its two rows. *)
Lemma stable_kernel_in_range (X Y : list (list R)) (out : list num) (variance : R)
    (D I J : nat) :
  Forall (fun r => length r = D) X -> Forall (fun r => length r = D) Y ->
  (I < length X)%nat -> (J < length Y)%nat ->
  stable_kernel (concat X) (concat Y) out variance (length X) (length Y) D I J
  = store out (I * length Y + J)
      (Val (stable_value variance (nth I X []) (nth J Y []))).
Proof.
  intros HX HY HI HJ. unfold stable_kernel.
  destruct (Nat.leb_spec (length X) I); [lia | ].
  destruct (Nat.leb_spec (length Y) J); [lia | ]. cbn [orb].
  set (u := nth I X []). set (v := nth J Y []).
  assert (Lu : length u = D).
  { apply (proj1 (Forall_forall _ _) HX). now apply nth_In. }
  assert (Lv : length v = D).
  { apply (proj1 (Forall_forall _ _) HY). now apply nth_In. }
  assert (R1 : forall k, In k (seq 0 D) -> rd (concat X) (I * D + k) = nth k u 0).
  { intros k Hk. apply in_seq in Hk. unfold rd. apply nth_concat; [assumption | lia]. }
  assert (R2 : forall k, In k (seq 0 D) -> rd (concat Y) (J * D + k) = nth k v 0).
  { intros k Hk. apply in_seq in Hk. unfold rd. apply nth_concat; [assumption | lia]. }
  rewrite (fold_left_ext_in _
             (fun '(x, y) k => (fma (nth k u 0) (nth k u 0) x,
                                fma (nth k v 0) (nth k v 0) y))).
  2:{ intros [x y] k Hk. now rewrite R1, R2. }
  rewrite (fold_pair_sum (fun k => nth k u 0) (fun k => nth k v 0)).
  rewrite !Rplus_0_l.
  assert (E1 : rsum (map (fun k => nth k u 0 * nth k u 0) (seq 0 D)) = dot u u).
  { rewrite <- Lu. exact (rsum_seq_map2 Rmult u u eq_refl). }
  assert (E2 : rsum (map (fun k => nth k v 0 * nth k v 0) (seq 0 D)) = dot v v).
  { rewrite <- Lv. exact (rsum_seq_map2 Rmult v v eq_refl). }
  rewrite E1, E2.
  set (a := sqrt (dot u u)). set (b := sqrt (dot v v)).
  rewrite (fold_left_ext_in _
             (fun '(x, y) k =>
                (fma (b * nth k u 0 - a * nth k v 0) (b * nth k u 0 - a * nth k v 0) x,
                 fma (b * nth k u 0 + a * nth k v 0) (b * nth k u 0 + a * nth k v 0) y))).
  2:{ intros [x y] k Hk. now rewrite R1, R2. }
  rewrite (fold_pair_sum (fun k => b * nth k u 0 - a * nth k v 0)
             (fun k => b * nth k u 0 + a * nth k v 0)).
  rewrite !Rplus_0_l.
  assert (E3 : forall F : R -> R -> R,
             rsum (map (fun k => F (nth k u 0) (nth k v 0)) (seq 0 D))
             = rsum (map2 F u v)).
  { intros F. rewrite <- Lu. apply rsum_seq_map2. congruence. }
  rewrite (E3 (fun x y => (b * x - a * y) * (b * x - a * y))).
  rewrite (E3 (fun x y => (b * x + a * y) * (b * x + a * y))).
  reflexivity.
Qed.

Lemma store_length (out : list num) (i : nat) (v : num) :
  length (store out i v) = length out.
Proof.
  revert i; induction out as [ | h t IH]; intros [ | i]; cbn; auto.
Qed.

Lemma nth_store (out : list num) (i j : nat) (v d : num) :
  (i < length out)%nat ->
  nth i (store out j v) d = if Nat.eqb i j then v else nth i out d.
Proof.
  revert i j; induction out as [ | h t IH]; intros i j Hi; cbn in Hi; [lia | ].
  destruct j as [ | j], i as [ | i]; cbn; auto.
  apply IH. lia.
Qed.

Section Launch.

Variables (N M : nat) (T : nat -> nat -> num).

Lemma launch_fold_length (ps : list (nat * nat)) (buf : list num) :
  length (fold_left (thread_step N M T) ps buf) = length buf.
Proof.
  revert buf; induction ps as [ | p ps IH]; intros buf; cbn [fold_left].
  - reflexivity.
  - rewrite IH. unfold thread_step. destruct (_ || _); [reflexivity | apply store_length].
Qed.

Hypothesis Mpos : (0 < M)%nat.

Lemma launch_fold (ps : list (nat * nat)) (buf : list num) (d : num) :
  length (fold_left (thread_step N M T) ps buf) = length buf
  /\ forall idx, (idx < length buf)%nat ->
       nth idx (fold_left (thread_step N M T) ps buf) d
       = if existsb (thread_hits N M idx) ps then T (idx / M) (idx mod M)
         else nth idx buf d.
Proof.
  revert buf; induction ps as [ | p ps IH]; intros buf; cbn [fold_left existsb].
  - split; reflexivity.
  - destruct (IH (thread_step N M T buf p)) as [L E].
    assert (Ls : length (thread_step N M T buf p) = length buf).
    { unfold thread_step. destruct (_ || _); [reflexivity | apply store_length]. }
    split; [congruence | ].
    intros idx Hidx. rewrite E by lia.
    destruct (existsb (thread_hits N M idx) ps); [now rewrite orb_true_r | ].
    rewrite orb_false_r. unfold thread_step, thread_hits.
    destruct (Nat.leb_spec N (fst p)); [reflexivity | ].
    destruct (Nat.leb_spec M (snd p)); [reflexivity | ]. cbn [orb negb andb].
    rewrite nth_store by assumption.
    destruct (Nat.eqb_spec idx (fst p * M + snd p)) as [-> | _]; [ | reflexivity].
    rewrite Nat.div_add_l, Nat.div_small, Nat.add_0_r by lia.
    rewrite Nat.add_comm, Nat.Div0.mod_add, Nat.mod_small by lia.
    reflexivity.
Qed.

End Launch.

Lemma in_launch_positions (gx gy bx by_ I J : nat) :
  (I < gx * bx)%nat -> (J < gy * by_)%nat ->
  In (I, J) (launch_positions (gx, gy) (bx, by_)).
Proof.
  intros HI HJ. unfold launch_positions. cbn [fst snd].
  assert (Bx : (0 < bx)%nat) by (destruct bx; lia).
  assert (By : (0 < by_)%nat) by (destruct by_; lia).
  apply in_flat_map. exists (I / bx)%nat. split.
  { apply in_seq. split; [lia | ]. cbn. apply Nat.Div0.div_lt_upper_bound. lia. }
  apply in_flat_map. exists (J / by_)%nat. split.
  { apply in_seq. split; [lia | ]. cbn. apply Nat.Div0.div_lt_upper_bound. lia. }
  apply in_flat_map. exists (I mod bx)%nat. split.
  { apply in_seq. split; [lia | ]. cbn. apply Nat.mod_upper_bound. lia. }
  apply in_map_iff. exists (J mod by_)%nat. split.
  - f_equal.
    + pose proof (Nat.div_mod_eq I bx). lia.
    + pose proof (Nat.div_mod_eq J by_). lia.
  - apply in_seq. split; [lia | ]. cbn. apply Nat.mod_upper_bound. lia.
Qed.

Lemma ceil16_covers (n : nat) : (n <= 16 * ((n + 15) / 16))%nat.
Proof.
  pose proof (Nat.div_mod_eq (n + 15) 16) as E.
  pose proof (Nat.mod_upper_bound (n + 15) 16 ltac:(lia)). lia.
Qed.

Lemma chunks_concat (m : nat) (tab : list (list num)) :
  Forall (fun r => length r = m) tab ->
  chunks m (length tab) (concat tab) = tab.
Proof.
  induction 1 as [ | r tab Hr HT IH]; cbn [length chunks concat]; [reflexivity | ].
  assert (F : firstn m (r ++ concat tab) = r).
  { rewrite <- Hr, firstn_app, Nat.sub_diag, firstn_all. cbn [firstn]. apply app_nil_r. }
  assert (S : skipn m (r ++ concat tab) = concat tab).
  { rewrite <- Hr, skipn_app, Nat.sub_diag, skipn_all. reflexivity. }
  rewrite F, S, IH. reflexivity.
Qed.

Lemma stable_kernel_step (X Y : list (list R)) (buf : list num) (variance : R)
    (D : nat) (p : nat * nat) :
  Forall (fun r => length r = D) X -> Forall (fun r => length r = D) Y ->
  stable_kernel (concat X) (concat Y) buf variance (length X) (length Y) D
    (fst p) (snd p)
  = if Nat.leb (length X) (fst p) || Nat.leb (length Y) (snd p) then buf
    else store buf (fst p * length Y + snd p)
           (Val (stable_value variance (nth (fst p) X []) (nth (snd p) Y []))).
Proof.
  intros HX HY.
  destruct (Nat.leb_spec (length X) (fst p)) as [H1 | H1].
  { unfold stable_kernel. destruct (Nat.leb_spec (length X) (fst p)); [reflexivity | lia]. }
  destruct (Nat.leb_spec (length Y) (snd p)) as [H2 | H2].
  { unfold stable_kernel. destruct (Nat.leb_spec (length Y) (snd p)); [ | lia].
    now rewrite orb_true_r. }
  cbn [orb]. now apply stable_kernel_in_range.
Qed.

Lemma nth_map_in {A B : Type} (g : A -> B) (l : list A) (i : nat) (dA : A) (dB : B) :
  (i < length l)%nat -> nth i (map g l) dB = g (nth i l dA).
Proof.
  revert i; induction l as [ | a l IH]; intros [ | i] H; cbn in *; try lia; auto.
  apply IH. lia.
Qed.

Lemma nth_outer_entry {A : Type} (f : list R -> list R -> A) (X Y : list (list R))
    (I J : nat) (d : A) :
  (I < length X)%nat -> (J < length Y)%nat ->
  nth J (nth I (outer f X Y) []) d = f (nth I X []) (nth J Y []).
Proof.
  intros HI HJ. unfold outer.
  rewrite (nth_map_in _ X I []) by assumption.
  now rewrite (nth_map_in _ Y J []).
Qed.

(** The launch of [_apply] leaves in [out] the block of [stable_value]s,
    whatever [out] held. *)
Lemma NeuralTangentKernel_apply_block (fos : string -> option R) (variance : pyval)
    (var : R) (X1 X2 : tensor) (out : block) :
  py_float fos variance = Ok var ->
  wf X1 -> wf X2 -> ncols X1 = ncols X2 ->
  brows_n out = nrows X1 -> bcols out = nrows X2 -> wfb out ->
  launchable (nrows X1) (nrows X2) ->
  NeuralTangentKernel_apply fos variance X1 (transpose X2) out
  = Ok (mkB (nrows X2)
          (outer (fun u w => Val (stable_value var u w)) (rows X1) (rows X2))).
Proof.
  intros Hv W1 W2 Hc Hr Hb Wo Lim. unfold launchable in Lim.
  unfold NeuralTangentKernel_apply. rewrite (transpose_involutive X2 W2).
  rewrite Hv. cbn [bind fst snd].
  rewrite <- Hc, Hr, Hb, !Nat.eqb_refl. cbn [andb].
  set (X := rows X1) in *. set (Y := rows X2) in *.
  unfold nrows in *. fold X in Lim, Hr |- *. fold Y in Lim, Hb |- *.
  set (N := length X) in *. set (M := length Y) in *.
  replace ((N + 16 - 1) / 16)%nat with ((N + 15) / 16)%nat by (f_equal; lia).
  replace ((M + 16 - 1) / 16)%nat with ((M + 15) / 16)%nat by (f_equal; lia).
  set (bx := ((N + 15) / 16)%nat) in *. set (by_ := ((M + 15) / 16)%nat) in *.
  pose proof (ceil16_covers N) as CN. pose proof (ceil16_covers M) as CM.
  fold bx in CN. fold by_ in CM.
  assert (HX : Forall (fun r => length r = ncols X1) X) by exact W1.
  assert (HY : Forall (fun r => length r = ncols X1) Y).
  { rewrite Hc. exact W2. }
  unfold launch. cbn [fst snd].
  change (Nat.max 1 16) with 16%nat.
  set (tx := Nat.max 1 bx) in *. set (ty := Nat.max 1 by_) in *.
  assert (CX : (N <= 16 * tx)%nat) by lia. assert (CY : (M <= 16 * ty)%nat) by lia.
  destruct (Nat.ltb_spec max_threads_per_block (tx * ty)) as [Z | _]; [lia | ].
  cbn [bind].
  do 2 f_equal.
  set (tab := outer (fun u w => Val (stable_value var u w)) X Y).
  assert (Wt : Forall (fun r => length r = M) tab) by apply outer_rows_length.
  assert (Lt : length tab = N) by apply outer_length.
  rewrite <- (chunks_concat M tab Wt), Lt. f_equal.
  rewrite (fold_left_ext_in _
             (thread_step N M
                (fun I J => Val (stable_value var (nth I X []) (nth J Y []))))).
  2:{ intros buf p _. unfold thread_step. now apply stable_kernel_step. }
  assert (Lo : length (concat (brows out)) = (N * M)%nat).
  { rewrite (concat_length_uniform (bcols out)) by exact Wo.
    fold (brows_n out). now rewrite Hr, Hb. }
  destruct (Nat.eq_dec M 0) as [M0 | Mp].
  { pose proof (launch_fold_length N M
                  (fun I J => Val (stable_value var (nth I X []) (nth J Y [])))
                  (launch_positions (16, 16)%nat (tx, ty))
                  (concat (brows out))) as LF.
    rewrite Lo in LF.
    replace (N * M)%nat with 0%nat in LF by (rewrite M0; lia).
    assert (Lc : length (concat tab) = 0%nat).
    { rewrite (concat_length_uniform M) by exact Wt. rewrite Lt, M0. apply Nat.mul_0_r. }
    apply length_zero_iff_nil in LF. apply length_zero_iff_nil in Lc.
    now rewrite LF, Lc. }
  pose proof (launch_fold N M
                (fun I J => Val (stable_value var (nth I X []) (nth J Y [])))
                ltac:(lia) (launch_positions (16, 16)%nat (tx, ty))
                (concat (brows out)) (Val 0)) as [LF EF].
  apply (nth_ext _ _ (Val 0) (Val 0)).
  { rewrite LF, Lo. rewrite (concat_length_uniform M) by exact Wt. now rewrite Lt. }
  intros idx Hidx. rewrite LF, Lo in Hidx.
  assert (HI : (idx / M < N)%nat) by (apply Nat.Div0.div_lt_upper_bound; lia).
  assert (HJ : (idx mod M < M)%nat) by (apply Nat.mod_upper_bound; lia).
  pose proof (Nat.div_mod_eq idx M) as DM.
  rewrite EF by lia.
  replace (existsb _ _) with true.
  - replace idx with (idx / M * M + idx mod M)%nat at 3 by lia.
    rewrite (nth_concat M) by assumption.
    unfold tab. now rewrite nth_outer_entry.
  - symmetry. apply existsb_exists. exists (idx / M, idx mod M)%nat. split.
    + apply in_launch_positions; lia.
    + unfold thread_hits. cbn [fst snd].
      destruct (Nat.leb_spec N (idx / M)); [lia | ].
      destruct (Nat.leb_spec M (idx mod M)); [lia | ]. cbn [orb negb andb].
      apply Nat.eqb_eq. lia.
Qed.

(* ================================================================== *)
(** * The angle of the device kernel *)
(* ================================================================== *)

Lemma acos_lt_PI (c : R) : -1 < c <= 1 -> acos c < PI.
Proof.
  intros Hc. pose proof (acos_bound c) as [_ H].
  destruct H as [H | H]; [assumption | exfalso].
  pose proof (cos_acos c ltac:(lra)) as E. rewrite H, cos_PI in E. lra.
Qed.

(** The half-angle form: atan(sqrt((1-c)/(1+c))) is half of acos c. *)
Lemma half_angle (c : R) :
  -1 < c <= 1 -> atan (sqrt ((1 - c) / (1 + c))) = acos c / 2.
Proof.
  intros Hc. set (t := acos c).
  pose proof (acos_bound c) as [T0 _]. pose proof (acos_lt_PI c Hc) as T1.
  fold t in T0, T1.
  assert (Ec : cos t = c) by (apply cos_acos; lra).
  assert (Cpos : 0 < cos (t / 2)) by (apply cos_gt_0; lra).
  assert (Snn : 0 <= sin (t / 2)) by (apply sin_ge_0; lra).
  pose proof (cos_2a_cos (t / 2)) as C2. pose proof (cos_2a_sin (t / 2)) as S2.
  replace (2 * (t / 2)) with t in C2, S2 by lra. rewrite Ec in C2, S2.
  assert (E : (1 - c) / (1 + c) = tan (t / 2) * tan (t / 2)).
  { unfold tan. field_simplify_eq; [nra | split; lra]. }
  rewrite E, sqrt_square.
  - apply atan_tan. lra.
  - unfold tan. apply Rmult_le_pos; [assumption | ].
    apply Rlt_le, Rinv_0_lt_compat. assumption.
Qed.

(** The angle [2 atan2(|b x - a y|, |b x + a y|)] of the device kernel is
    the inverse cosine of the normalised dot product. *)
Lemma stable_angle (a b p : R) :
  0 < a -> 0 < b -> - (a * b) <= p <= a * b ->
  2 * atan2 (sqrt (2 * (a * b) * (a * b - p))) (sqrt (2 * (a * b) * (a * b + p)))
  = acos (p / (a * b)).
Proof.
  intros Ha Hb Hp.
  assert (Hab : 0 < a * b) by nra.
  destruct (Req_dec_T p (- (a * b))) as [E | N].
  - subst p.
    replace (a * b + - (a * b)) with 0 by lra.
    rewrite Rmult_0_r, sqrt_0.
    assert (P : 0 < sqrt (2 * (a * b) * (a * b - - (a * b)))).
    { apply sqrt_lt_R0. nra. }
    unfold atan2.
    destruct (Rlt_dec 0 0); [lra | ].
    destruct (Rlt_dec 0 _); [ | lra].
    replace (- (a * b) / (a * b)) with (-1) by (field; lra).
    unfold acos. destruct (Rle_dec (-1) (-1)); lra.
  - assert (P2 : 0 < 2 * (a * b) * (a * b + p)) by nra.
    assert (S2 : 0 < sqrt (2 * (a * b) * (a * b + p))) by now apply sqrt_lt_R0.
    unfold atan2. destruct (Rlt_dec 0 _); [ | lra].
    rewrite <- sqrt_div_alt by assumption.
    replace (2 * (a * b) * (a * b - p) / (2 * (a * b) * (a * b + p)))
      with ((1 - p / (a * b)) / (1 + p / (a * b))).
    2:{ field. repeat split; lra. }
    rewrite half_angle; [lra | ].
    split.
    + apply Rmult_lt_reg_r with (a * b); [assumption | ].
      unfold Rdiv. rewrite Rmult_assoc, Rinv_l by lra. lra.
    + apply Rmult_le_reg_r with (a * b); [assumption | ].
      unfold Rdiv. rewrite Rmult_assoc, Rinv_l by lra. lra.
Qed.

Lemma rsum_squares_nonneg (F : R -> R -> R) (u v : list R) :
  0 <= rsum (map2 (fun x y => F x y * F x y) u v).
Proof.
  revert v; induction u as [ | a u IH]; intros [ | c v]; cbn; try lra.
  specialize (IH v). fold (rsum (map2 (fun x y => F x y * F x y) u v)). nra.
Qed.

Lemma rsum_diff_squares (a b : R) (u v : list R) :
  length u = length v ->
  rsum (map2 (fun x y => (b * x - a * y) * (b * x - a * y)) u v)
  = b * b * dot u u - 2 * (a * b) * dot u v + a * a * dot v v.
Proof.
  revert v; induction u as [ | x u IH]; intros [ | y v] H; cbn [length] in H;
    try discriminate.
  - unfold dot; cbn. lra.
  - cbn [map2 rsum fold_right]. rewrite !dot_cons.
    fold (rsum (map2 (fun x y => (b * x - a * y) * (b * x - a * y)) u v)).
    rewrite IH by congruence. lra.
Qed.

Lemma rsum_sum_squares (a b : R) (u v : list R) :
  length u = length v ->
  rsum (map2 (fun x y => (b * x + a * y) * (b * x + a * y)) u v)
  = b * b * dot u u + 2 * (a * b) * dot u v + a * a * dot v v.
Proof.
  revert v; induction u as [ | x u IH]; intros [ | y v] H; cbn [length] in H;
    try discriminate.
  - unfold dot; cbn. lra.
  - cbn [map2 rsum fold_right]. rewrite !dot_cons.
    fold (rsum (map2 (fun x y => (b * x + a * y) * (b * x + a * y)) u v)).
    rewrite IH by congruence. lra.
Qed.

(** Cauchy-Schwarz, from the two sums of squares of the device kernel. *)
Lemma cauchy_schwarz (u v : list R) :
  length u = length v -> nonzero u -> nonzero v ->
  - (norm u * norm v) <= dot u v <= norm u * norm v.
Proof.
  intros HL Nu Nv.
  pose proof (norm_pos u Nu) as Pa. pose proof (norm_pos v Nv) as Pb.
  pose proof (rsum_squares_nonneg (fun x y => norm v * x - norm u * y) u v) as H1.
  pose proof (rsum_squares_nonneg (fun x y => norm v * x + norm u * y) u v) as H2.
  cbv beta in H1, H2.
  rewrite rsum_diff_squares in H1 by assumption.
  rewrite rsum_sum_squares in H2 by assumption.
  rewrite <- !norm_sq in H1, H2.
  assert (Hab : 0 < norm u * norm v) by nra.
  split; nra.
Qed.

(** The cosine of the angle of two rows that are not zero lies in
    [-1, 1]. *)
Lemma cosine_in_range (u v : list R) :
  length u = length v -> nonzero u -> nonzero v ->
  -1 <= dot u v / (norm u * norm v) <= 1.
Proof.
  intros HL Nu Nv.
  pose proof (norm_pos u Nu) as Pa. pose proof (norm_pos v Nv) as Pb.
  pose proof (cauchy_schwarz u v HL Nu Nv) as CS.
  assert (Hab : 0 < norm u * norm v) by nra.
  split.
  - apply Rmult_le_reg_r with (norm u * norm v); [assumption | ].
    unfold Rdiv. rewrite Rmult_assoc, Rinv_l by lra. lra.
  - apply Rmult_le_reg_r with (norm u * norm v); [assumption | ].
    unfold Rdiv. rewrite Rmult_assoc, Rinv_l by lra. lra.
Qed.

(** On rows that are not zero the device kernel computes the closed form of
    [k_ntk]. *)
Lemma stable_value_closed_form (variance : R) (u v : list R) :
  length u = length v -> nonzero u -> nonzero v ->
  stable_value variance u v = arccos_value variance (dot u v) (norm u) (norm v).
Proof.
  intros HL Nu Nv.
  pose proof (norm_pos u Nu) as Pa. pose proof (norm_pos v Nv) as Pb.
  pose proof (cauchy_schwarz u v HL Nu Nv) as CS.
  unfold stable_value. fold (norm u). fold (norm v).
  rewrite rsum_diff_squares, rsum_sum_squares by assumption.
  rewrite <- !norm_sq.
  replace (norm v * norm v * (norm u * norm u) - 2 * (norm u * norm v) * dot u v
           + norm u * norm u * (norm v * norm v))
    with (2 * (norm u * norm v) * (norm u * norm v - dot u v)) by ring.
  replace (norm v * norm v * (norm u * norm u) + 2 * (norm u * norm v) * dot u v
           + norm u * norm u * (norm v * norm v))
    with (2 * (norm u * norm v) * (norm u * norm v + dot u v)) by ring.
  rewrite stable_angle by assumption.
  unfold arccos_value.
  pose proof (cosine_in_range u v HL Nu Nv) as Rg.
  rewrite clampR_id by assumption.
  rewrite cos_acos by assumption. reflexivity.
Qed.

(* ================================================================== *)
(** * The staged path of the neural tangent kernel *)
(* ================================================================== *)

Lemma zeros_shape (n m : nat) :
  brows_n (zeros n m) = n /\ bcols (zeros n m) = m /\ wfb (zeros n m).
Proof.
  unfold zeros, brows_n, wfb. cbn [brows bcols]. repeat split.
  - apply repeat_length.
  - apply Forall_forall; intros r Hr. apply repeat_spec in Hr; subst.
    apply repeat_length.
Qed.

(** The staged path of the neural tangent kernel returns the block of
    [stable_value]s. *)
Lemma NeuralTangentKernel_staged (fos : string -> option R) (variance : pyval)
    (var : R) (X1 X2 : tensor) :
  py_float fos variance = Ok var ->
  wf X1 -> wf X2 -> ncols X1 = ncols X2 -> launchable (nrows X1) (nrows X2) ->
  staged fos (NeuralTangentKernel variance) X1 X2
  = Ok (mkB (nrows X2)
          (outer (fun u w => Val (stable_value var u w)) (rows X1) (rows X2))).
Proof.
  intros Hv W1 W2 Hc HL. unfold staged. cbn [apply prepare finalize].
  destruct (zeros_shape (nrows X1) (nrows X2)) as (Z1 & Z2 & Z3).
  rewrite (NeuralTangentKernel_apply_block fos variance var) by assumption.
  reflexivity.
Qed.

(** On rows that are not zero it is the block of the unused [k_ntk]. *)
Lemma NeuralTangentKernel_staged_k_ntk (fos : string -> option R) (variance : pyval)
    (var : R) (X1 X2 : tensor) :
  py_float fos variance = Ok var ->
  wf X1 -> wf X2 -> ncols X1 = ncols X2 -> launchable (nrows X1) (nrows X2) ->
  Forall nonzero (rows X1) -> Forall nonzero (rows X2) ->
  staged fos (NeuralTangentKernel variance) X1 X2
  = k_ntk (Some X1) (Some X2) var.
Proof.
  intros Hv W1 W2 Hc HL N1 N2.
  rewrite (NeuralTangentKernel_staged fos variance var) by assumption.
  unfold k_ntk. cbn [unsqueeze bind]. unfold broadcast_dim.
  rewrite Hc, Nat.eqb_refl. cbn [bind]. do 2 f_equal.
  apply outer_ext_in; intros u w Hu Hw.
  pose proof (wf_in _ _ W1 Hu) as Lu. pose proof (wf_in _ _ W2 Hw) as Lw.
  rewrite !expand_same by congruence.
  rewrite ntk_entry_val
    by (apply (norm_prod_neq_0 (rows X1) (rows X2)); assumption).
  f_equal. apply stable_value_closed_form.
  - congruence.
  - exact (proj1 (Forall_forall _ _) N1 u Hu).
  - exact (proj1 (Forall_forall _ _) N2 w Hw).
Qed.

(* ================================================================== *)
(** * The symbolic path *)
(* ================================================================== *)

Lemma kbin_scalar_l (f : num -> num -> num) (a : num) (l : list num) :
  kbin f (Ok [a]) (Ok l) = Ok (map (f a) l).
Proof.
  unfold kbin. cbn [bind length hd].
  destruct (Nat.eqb_spec 1 (length l)) as [E | _]; [ | reflexivity].
  destruct l as [ | b [ | ? ?]]; try discriminate. reflexivity.
Qed.

Lemma kbin_vectors (f : num -> num -> num) (l m : list num) :
  length l = length m -> kbin f (Ok l) (Ok m) = Ok (map2 f l m).
Proof. intros H. unfold kbin. cbn [bind]. now rewrite H, Nat.eqb_refl. Qed.

Lemma map2_vals (F : R -> R -> R) (u v : list R) :
  map2 (lift2 F) (map Val u) (map Val v) = map Val (map2 F u v).
Proof. rewrite map2_map_l, map2_map_r, map_map2. reflexivity. Qed.

Lemma SqNorm2_vals (u : list R) : SqNorm2 (map Val u) = Val (dot u u).
Proof.
  unfold SqNorm2, dot. rewrite map_map, map2_diag, <- nsum_vals, map_map.
  reflexivity.
Qed.

Lemma Norm2_vals (u : list R) : Norm2 (Ok (map Val u)) = Ok [Val (norm u)].
Proof. unfold Norm2. cbn [bind]. now rewrite SqNorm2_vals. Qed.

Lemma dot_map2_self (F : R -> R -> R) (u v : list R) :
  dot (map2 F u v) (map2 F u v) = rsum (map2 (fun x y => F x y * F x y) u v).
Proof. unfold dot. rewrite map2_diag, map_map2. reflexivity. Qed.

Lemma scale_vals (c : R) (u : list R) :
  map (nmul (Val c)) (map Val u) = map Val (map (Rmult c) u).
Proof. rewrite !map_map. reflexivity. Qed.

(** The formula of the neural tangent kernel at one pair is [stable_value]
    times [v]. *)
Lemma NeuralTangentKernel_formula_value (variance : R) (X Y v : list R) :
  length X = length Y ->
  NeuralTangentKernel_formula variance X Y v
  = Ok (map (nmul (Val (stable_value variance X Y))) (map Val v)).
Proof.
  intros HL. unfold NeuralTangentKernel_formula, kvar, Pm.
  unfold kmul, ksub, kadd, kdiv, Atan2, Sin, Cos.
  rewrite !Norm2_vals, !kbin_scalar_l, !scale_vals.
  rewrite !kbin_vectors by (now rewrite !length_map).
  set (a := norm X). set (b := norm Y).
  assert (E1 : map2 nsub (map Val (map (Rmult b) X)) (map Val (map (Rmult a) Y))
               = map Val (map2 (fun x y => b * x - a * y) X Y)).
  { change nsub with (lift2 Rminus).
    rewrite map2_vals, map2_map_l, map2_map_r. reflexivity. }
  assert (E2 : map2 nadd (map Val (map (Rmult b) X)) (map Val (map (Rmult a) Y))
               = map Val (map2 (fun x y => b * x + a * y) X Y)).
  { change nadd with (lift2 Rplus).
    rewrite map2_vals, map2_map_l, map2_map_r. reflexivity. }
  rewrite E1, E2, !Norm2_vals. unfold norm at 1 2 3 4 5 6.
  rewrite !dot_map2_self.
  repeat (rewrite kbin_scalar_l
          || (progress cbn [map lift2 lift1 nmul nadd nsub nsin ncos bind])
          || (progress unfold kun)).
  rewrite (ndiv_val _ _ PI_neq_0).
  repeat (rewrite kbin_scalar_l || (progress cbn [map])).
  unfold stable_value, a, b, norm. rewrite !map_map. reflexivity.
Qed.

Lemma dot_scale_r (c : R) (u y : list R) : dot u (map (Rmult c) y) = c * dot u y.
Proof.
  revert y; induction u as [ | a u IH]; intros [ | b y]; cbn [map];
    rewrite ?dot_nil_r, ?dot_cons; try (unfold dot; cbn; lra).
  rewrite IH. lra.
Qed.

Lemma Normalize_vals (u : list R) :
  Normalize (Ok (map Val u)) = Ok (map Val (map (Rmult (rsqrt (dot u u))) u)).
Proof.
  unfold Normalize. cbn [bind]. rewrite SqNorm2_vals. cbn [lift1].
  now rewrite scale_vals.
Qed.

Lemma Scalprod_vals (u v : list R) :
  length u = length v ->
  Scalprod (Ok (map Val u)) (Ok (map Val v)) = Ok [Val (dot u v)].
Proof.
  intros H. unfold Scalprod. cbn [bind]. rewrite !length_map, H, Nat.eqb_refl.
  change nmul with (lift2 Rmult). rewrite map2_vals, nsum_vals. reflexivity.
Qed.

Lemma rsqrt_norm (u : list R) : nonzero u -> rsqrt (dot u u) = / norm u.
Proof.
  intros Nu. pose proof (dot_self_pos u Nu). unfold rsqrt, norm.
  destruct (Req_dec_T (dot u u) 0); lra.
Qed.

(** On rows that are not zero the formula of the arc-cosine kernel at one
    pair is the closed form times [v]. *)
Lemma ArcCosineKernel_formula_value (X Y v : list R) :
  length X = length Y -> nonzero X -> nonzero Y ->
  ArcCosineKernel_formula X Y v
  = Ok (map (nmul (Val (arccos_value 0 (dot X Y) (norm X) (norm Y)))) (map Val v)).
Proof.
  intros HL NX NY.
  pose proof (norm_pos X NX) as Pa. pose proof (norm_pos Y NY) as Pb.
  pose proof (cauchy_schwarz X Y HL NX NY) as CS.
  pose proof (cosine_in_range X Y HL NX NY) as Rg.
  unfold ArcCosineKernel_formula, ArcCosineKernel_formula_of, kvar, Pm.
  unfold kmul, ksub, kadd, kdiv, Acos, Sin.
  rewrite !Norm2_vals, !Normalize_vals.
  rewrite Scalprod_vals by (now rewrite !length_map).
  rewrite dot_scale, dot_scale_r, !rsqrt_norm by assumption.
  replace (/ norm X * (/ norm Y * dot X Y)) with (dot X Y / (norm X * norm Y))
    by (field; lra).
  set (c := dot X Y / (norm X * norm Y)) in *.
  unfold kun. cbn [bind map]. rewrite (nacos_val c Rg).
  repeat (rewrite kbin_scalar_l
          || (progress cbn [map lift2 lift1 nmul nadd nsub nsin bind])).
  rewrite (ndiv_val _ _ PI_neq_0).
  repeat (rewrite kbin_scalar_l
          || (progress cbn [map lift2 lift1 nmul nadd nsub nsin bind])).
  unfold arccos_value. fold c. rewrite (clampR_id c Rg).
  rewrite !map_map. apply f_equal, map_ext; intros w. cbn [nmul lift2].
  f_equal. field. apply PI_neq_0.
Qed.

Lemma keops_mmv_ext (X1 X2 v : tensor) (F G : list R -> list R -> list R -> kval) :
  (forall x y w, In x (rows X1) -> In y (rows X2) -> F x y w = G x y w) ->
  keops_mmv X1 X2 v F = keops_mmv X1 X2 v G.
Proof.
  intros H. unfold keops_mmv. destruct (Nat.eqb (nrows v) (nrows X2)); [ | reflexivity].
  f_equal. f_equal. apply map_ext_in; intros x Hx.
  apply fold_left_ext_in. intros acc [y w] Hyw. cbn [fst snd].
  rewrite (H x y w); [reflexivity | assumption | ].
  now apply in_combine_l in Hyw.
Qed.

(* ================================================================== *)
(** * The inverse cosine and its clamp *)
(* ================================================================== *)

Lemma clampR_saturates (x : R) : 1 <= x -> clampR x = 1.
Proof.
  intros H. unfold clampR. rewrite Rmax_left by lra. now apply Rmin_right.
Qed.

Lemma raw_cosine_past_1 (p a b : R) :
  0 < a -> 0 < b -> a * b <= p -> 1 <= p / (a * b).
Proof.
  intros Ha Hb Hp. assert (P : 0 < a * b) by nra.
  apply Rmult_le_reg_r with (a * b); [exact P | ].
  unfold Rdiv. rewrite Rmult_assoc, Rinv_l by lra. lra.
Qed.

Lemma arccos_value_saturated (variance p a b : R) :
  0 < a -> 0 < b -> a * b <= p ->
  arccos_value variance p a b = (1 + variance) * (a * b).
Proof.
  intros Ha Hb Hp. unfold arccos_value.
  rewrite (clampR_saturates _ (raw_cosine_past_1 p a b Ha Hb Hp)).
  rewrite acos_1, sin_0. field. apply PI_neq_0.
Qed.

Lemma ntk_entry_saturated (variance p a b : R) :
  0 < a -> 0 < b -> a * b <= p ->
  ntk_entry variance p a b = Val ((1 + variance) * (a * b)).
Proof.
  intros Ha Hb Hp. rewrite ntk_entry_val by nra.
  f_equal. now apply arccos_value_saturated.
Qed.

Lemma arccos_entry_saturated (p a b : R) :
  0 < a -> 0 < b -> a * b <= p -> arccos_entry p a b = Val (a * b).
Proof.
  intros Ha Hb Hp. rewrite arccos_entry_ntk, ntk_entry_saturated by assumption.
  f_equal. ring.
Qed.

Lemma rpow_0_pos (y : R) : 0 < y -> rpow 0 y = Val 0.
Proof.
  intros Hy. unfold rpow.
  destruct (Rlt_dec 0 0) as [H | _]; [lra | ].
  destruct (Req_dec_T 0 0) as [_ | N]; [ | lra].
  destruct (Req_dec_T y 0) as [E | _]; [lra | ].
  destruct (Rlt_dec 0 y) as [_ | N]; [reflexivity | lra].
Qed.

Lemma laplace_exp_saturated (gamma alpha p a b : R) :
  0 < a -> 0 < b -> a * b <= p -> 0 < gamma ->
  laplace_exp gamma alpha p a b = Val 1.
Proof.
  intros Ha Hb Hp Hg. rewrite laplace_exp_nonzero by nra.
  rewrite (clampR_saturates _ (raw_cosine_past_1 p a b Ha Hb Hp)).
  replace (1 - 1) with 0 by ring. rewrite (rpow_0_pos gamma Hg).
  cbn [nmul lift2 nexp lift1]. rewrite Rmult_0_r, exp_0. reflexivity.
Qed.

(** [_finalize] of the arc-cosine kernel on a block of computed dot
    products, position by position. *)
Lemma ArcCosineKernel_finalize_computed (F : list R -> list R -> R) (X1 X2 : tensor) :
  ArcCosineKernel_finalize
    (mkB (nrows X2) (map (map Val) (outer F (rows X1) (rows X2))))
    (ArcCosineKernel_prepare X1 X2)
  = Ok (mkB (nrows X2)
          (outer (fun u v => arccos_entry (F u v) (norm u) (norm v))
             (rows X1) (rows X2))).
Proof.
  rewrite ArcCosineKernel_finalize_entries.
  - cbn [brows]. rewrite map_map_outer, tag_outer, map_map_outer. cbn [fst snd].
    do 2 f_equal. apply outer_ext_in; intros u v _ _.
    apply ArcCosineKernel_finalize_entry_eq.
  - unfold brows_n. cbn [brows]. rewrite length_map. apply outer_length.
  - reflexivity.
  - unfold wfb. cbn [bcols brows]. rewrite map_map_outer. apply outer_rows_length.
Qed.

Lemma LaplaceKernelSphere_finalize_computed (alpha gamma : R)
    (F : list R -> list R -> R) (X1 X2 : tensor) :
  LaplaceKernelSphere_finalize alpha gamma
    (mkB (nrows X2) (map (map Val) (outer F (rows X1) (rows X2))))
    (LaplaceKernelSphere_prepare X1 X2)
  = Ok (mkB (nrows X2)
          (outer (fun u v => nmul (Val (norm u * norm v))
                               (laplace_exp gamma alpha (F u v) (norm u) (norm v)))
             (rows X1) (rows X2))).
Proof.
  rewrite LaplaceKernelSphere_finalize_entries.
  - cbn [brows]. rewrite map_map_outer, tag_outer, map_map_outer. cbn [fst snd].
    do 2 f_equal. apply outer_ext_in; intros u v _ _.
    apply LaplaceKernelSphere_finalize_entry_eq.
  - unfold brows_n. cbn [brows]. rewrite length_map. apply outer_length.
  - reflexivity.
  - unfold wfb. cbn [bcols brows]. rewrite map_map_outer. apply outer_rows_length.
Qed.

(** The formula of the arc-cosine kernel around a cosine in [-1, 1]. *)
Lemma ArcCosineKernel_formula_of_value (c : R) (X Y v : list R) :
  -1 <= c <= 1 ->
  ArcCosineKernel_formula_of (Ok [Val c]) X Y v
  = Ok (map (nmul (Val (norm X * norm Y / PI * angular_factor c))) (map Val v)).
Proof.
  intros Rg. unfold ArcCosineKernel_formula_of, kvar, Pm.
  unfold kmul, ksub, kadd, kdiv, Acos, Sin.
  rewrite !Norm2_vals.
  unfold kun. cbn [bind map]. rewrite (nacos_val c Rg).
  repeat (rewrite kbin_scalar_l
          || (progress cbn [map lift2 lift1 nmul nadd nsub nsin bind])).
  rewrite (ndiv_val _ _ PI_neq_0).
  repeat (rewrite kbin_scalar_l
          || (progress cbn [map lift2 lift1 nmul nadd nsub nsin bind])).
  reflexivity.
Qed.

(** Around a cosine past 1 the inverse cosine is a NaN, and so is every
    element of the formula. *)
Lemma ArcCosineKernel_formula_of_past_1 (c : R) (X Y v : list R) :
  1 < c ->
  ArcCosineKernel_formula_of (Ok [Val c]) X Y v
  = Ok (map (fun _ => Bad AcosDomain) v).
Proof.
  intros Hc. unfold ArcCosineKernel_formula_of, kvar, Pm.
  unfold kmul, ksub, kadd, kdiv, Acos, Sin.
  rewrite !Norm2_vals.
  unfold kun. cbn [bind map].
  assert (E : nacos (Val c) = Bad AcosDomain).
  { unfold nacos. destruct (Rle_dec (-1) c); [ | reflexivity].
    destruct (Rle_dec c 1); [lra | reflexivity]. }
  rewrite E.
  repeat (rewrite kbin_scalar_l
          || (progress cbn [map lift2 lift1 nmul nadd nsub nsin bind])).
  rewrite (ndiv_val _ _ PI_neq_0).
  repeat (rewrite kbin_scalar_l
          || (progress cbn [map lift2 lift1 nmul nadd nsub nsin bind])).
  rewrite map_map. reflexivity.
Qed.

(** In binary64 the cosine of the row [3, 3] with itself, as
    [(Normalize(X) | Normalize(Y))] computes it, is 1 + 2^-52. *)
Lemma f64_cos_theta_3_3 :
  Prim2SF (f64_cos_theta [3%float; 3%float] [3%float; 3%float])
  = S754_finite false 4503599627370497 (-52).
Proof. vm_compute. reflexivity. Qed.

Lemma f64_cos_theta_3_3_past_1 :
  1 < f64_to_R (f64_cos_theta [3%float; 3%float] [3%float; 3%float]).
Proof.
  unfold f64_to_R. rewrite f64_cos_theta_3_3.
  cbn [SF2R Z.leb Z.compare Z.opp].
  change (2 ^ 52)%Z with 4503599627370496%Z. lra.
Qed.

Lemma f64_to_R_3 : f64_to_R 3%float = 3.
Proof.
  unfold f64_to_R.
  replace (Prim2SF 3%float) with (S754_finite false 6755399441055744 (-51))
    by (vm_compute; reflexivity).
  cbn [SF2R Z.leb Z.compare Z.opp].
  change (2 ^ 51)%Z with 2251799813685248%Z. lra.
Qed.

Lemma norm_3_3 : norm [3; 3] = sqrt 18.
Proof. unfold norm, dot. cbn [map2 rsum fold_right]. f_equal. ring. Qed.

Lemma ArcCosineKernel_formula_3_3 :
  ArcCosineKernel_formula [3; 3] [3; 3] [1] = Ok [Val 18].
Proof.
  assert (NZ : nonzero [3; 3]) by (left; lra).
  rewrite ArcCosineKernel_formula_value by (reflexivity || assumption).
  cbn [map nmul lift2]. do 3 f_equal.
  assert (P : 0 < norm [3; 3]) by now apply norm_pos.
  replace (dot [3; 3] [3; 3]) with (norm [3; 3] * norm [3; 3]) by apply norm_sq.
  rewrite arccos_value_saturated by lra.
  rewrite norm_sq. unfold dot. cbn [map2 rsum fold_right]. ring.
Qed.

(** C4: the code clamps the cosine before every inverse cosine but one.
    In [k_arccos], [k_ntk], [k_spherical_laplace] and in [_finalize] of the
    arc-cosine and Laplace kernels the cosine is clamped: for norms that are
    not zero and whatever the dot product is computed to, the value at a
    position is finite, and where the dot product reaches or passes the
    product of the norms (identical rows, collinear rows) it is the value at
    angle 0.  The formula of [ArcCosineKernel._keops_mmv_impl] takes the
    inverse cosine of [(Normalize(X) | Normalize(Y))] as computed: around a
    cosine past 1 every element is a NaN, and in binary64 the cosine of the
    row [3, 3] with itself is computed past 1, so the symbolic path returns
    a NaN where the exact value, and the dense path, give 18. *)
Theorem arc_cosine_formula_takes_unclamped_cosine :
  (forall variance alpha gamma p a b : R,
     0 < a -> 0 < b -> 0 <= gamma ->
     is_val (arccos_entry p a b) /\ is_val (ntk_entry variance p a b)
     /\ is_val (laplace_exp gamma alpha p a b))
  /\ (forall variance alpha gamma p a b : R,
        0 < a -> 0 < b -> 0 < gamma -> a * b <= p ->
        arccos_entry p a b = Val (a * b)
        /\ ntk_entry variance p a b = Val ((1 + variance) * (a * b))
        /\ laplace_exp gamma alpha p a b = Val 1)
  /\ (forall (alpha gamma : R) (F : list R -> list R -> R) (X1 X2 : tensor),
        Forall nonzero (rows X1) -> Forall nonzero (rows X2) -> 0 <= gamma ->
        (exists K,
           ArcCosineKernel_finalize
             (mkB (nrows X2) (map (map Val) (outer F (rows X1) (rows X2))))
             (ArcCosineKernel_prepare X1 X2) = Ok K
           /\ all_elements is_val K)
        /\ (exists K,
              LaplaceKernelSphere_finalize alpha gamma
                (mkB (nrows X2) (map (map Val) (outer F (rows X1) (rows X2))))
                (LaplaceKernelSphere_prepare X1 X2) = Ok K
              /\ all_elements is_val K))
  /\ (forall (alpha gamma : R) (F : list R -> list R -> R) (X1 X2 : tensor),
        Forall nonzero (rows X1) -> Forall nonzero (rows X2) -> 0 < gamma ->
        (forall u v, In u (rows X1) -> In v (rows X2) -> norm u * norm v <= F u v) ->
        ArcCosineKernel_finalize
          (mkB (nrows X2) (map (map Val) (outer F (rows X1) (rows X2))))
          (ArcCosineKernel_prepare X1 X2)
        = Ok (mkB (nrows X2)
                (outer (fun u v => Val (norm u * norm v)) (rows X1) (rows X2)))
        /\ LaplaceKernelSphere_finalize alpha gamma
             (mkB (nrows X2) (map (map Val) (outer F (rows X1) (rows X2))))
             (LaplaceKernelSphere_prepare X1 X2)
           = Ok (mkB (nrows X2)
                   (outer (fun u v => Val (norm u * norm v)) (rows X1) (rows X2))))
  /\ (forall (c : R) (X Y v : list R),
        1 < c ->
        ArcCosineKernel_formula_of (Ok [Val c]) X Y v
        = Ok (map (fun _ => Bad AcosDomain) v))
  /\ map f64_to_R [3%float; 3%float] = [3; 3]
  /\ 1 < f64_to_R (f64_cos_theta [3%float; 3%float] [3%float; 3%float])
  /\ keops_mmv (mkT 2 [[3; 3]]) (mkT 2 [[3; 3]]) (mkT 1 [[1]])
       (ArcCosineKernel_formula_of
          (Ok [Val (f64_to_R (f64_cos_theta [3%float; 3%float] [3%float; 3%float]))]))
     = Ok (mkB 1 [[Bad AcosDomain]])
  /\ symbolic ArcCosineKernel (mkT 2 [[3; 3]]) (mkT 2 [[3; 3]]) (mkT 1 [[1]])
     = Ok (mkB 1 [[Val 18]])
  /\ direct_kernel ArcCosineKernel (Some (mkT 2 [[3; 3]])) (Some (mkT 2 [[3; 3]]))
     = Ok (mkB 1 [[Val 18]]).
Proof.
  split; [ | split; [ | split; [ | split; [ | split; [ | split; [ | split;
    [ | split; [ | split]]]]]]]].
  - intros variance alpha gamma p a b Ha Hb Hg.
    assert (N : a * b <> 0) by nra.
    split; [ | split].
    + rewrite arccos_entry_ntk. now apply ntk_entry_safe.
    + now apply ntk_entry_safe.
    + now apply laplace_exp_safe.
  - intros variance alpha gamma p a b Ha Hb Hg Hp.
    split; [ | split].
    + now apply arccos_entry_saturated.
    + now apply ntk_entry_saturated.
    + now apply laplace_exp_saturated.
  - intros alpha gamma F X1 X2 N1 N2 Hg. split.
    + rewrite ArcCosineKernel_finalize_computed. eexists; split; [reflexivity | ].
      unfold all_elements. cbn [brows]. apply all_outer; intros u v Hu Hv.
      rewrite arccos_entry_ntk. apply ntk_entry_safe.
      apply (norm_prod_neq_0 (rows X1) (rows X2)); assumption.
    + rewrite LaplaceKernelSphere_finalize_computed. eexists; split; [reflexivity | ].
      unfold all_elements. cbn [brows]. apply all_outer; intros u v Hu Hv.
      apply nmul_val_is_val, laplace_exp_safe; [ | exact Hg].
      apply (norm_prod_neq_0 (rows X1) (rows X2)); assumption.
  - intros alpha gamma F X1 X2 N1 N2 Hg HF.
    rewrite ArcCosineKernel_finalize_computed, LaplaceKernelSphere_finalize_computed.
    split; do 2 f_equal; apply outer_ext_in; intros u v Hu Hv;
      pose proof (norm_pos u (proj1 (Forall_forall _ _) N1 u Hu)) as Pu;
      pose proof (norm_pos v (proj1 (Forall_forall _ _) N2 v Hv)) as Pv;
      pose proof (HF u v Hu Hv) as Huv.
    + now apply arccos_entry_saturated.
    + rewrite laplace_exp_saturated by assumption. cbn [nmul lift2].
      f_equal. ring.
  - intros c X Y v Hc. now apply ArcCosineKernel_formula_of_past_1.
  - cbn [map]. now rewrite f64_to_R_3.
  - exact f64_cos_theta_3_3_past_1.
  - unfold keops_mmv.
    cbn [nrows ncols rows length Nat.eqb map combine fold_left fst snd List.repeat].
    rewrite (ArcCosineKernel_formula_of_past_1 _ _ _ _ f64_cos_theta_3_3_past_1).
    unfold kadd. rewrite kbin_vectors by reflexivity.
    cbn [map map2 nmul nadd lift2 sequence bind]. reflexivity.
  - unfold symbolic, ArcCosineKernel_keops_mmv_impl, keops_mmv.
    cbn [nrows ncols rows length Nat.eqb map combine fold_left fst snd List.repeat].
    rewrite ArcCosineKernel_formula_3_3.
    unfold kadd. rewrite kbin_vectors by reflexivity.
    cbn [map map2 nmul nadd lift2 sequence bind]. repeat f_equal. lra.
  - cbn [direct_kernel]. unfold ArcCosineKernel_direct_kernel, k_arccos.
    cbn [unsqueeze bind ncols nrows rows broadcast_dim Nat.eqb outer map expand length].
    assert (P : 0 < norm [3; 3]) by (apply norm_pos; left; lra).
    assert (D : dot [3; 3] [3; 3] = 18)
      by (unfold dot; cbn [map2 rsum fold_right]; ring).
    assert (Q : norm [3; 3] * norm [3; 3] = 18) by (rewrite norm_sq; exact D).
    rewrite arccos_entry_saturated; try assumption.
    + now rewrite Q.
    + rewrite Q, D. lra.
Qed.

(* ================================================================== *)
(** * Zero variance *)
(* ================================================================== *)

Lemma launchable_1_1 : launchable 1 1.
Proof. unfold launchable, max_threads_per_block. cbn. lia. Qed.

Lemma sqrt_eq_0 (x : R) : x = 0 -> sqrt x = 0.
Proof. intros ->. apply sqrt_0. Qed.

Lemma atan2_0_0 : atan2 0 0 = 0.
Proof.
  unfold atan2. destruct (Rlt_dec 0 0); [lra | ].
  destruct (Rlt_dec 0 0); [lra | ]. reflexivity.
Qed.

Lemma stable_value_zero_row (variance : R) : stable_value variance [0] [1] = 0.
Proof.
  unfold stable_value, dot. cbn [map2 rsum fold_right].
  rewrite (sqrt_eq_0 (0 * 0 + 0)) by lra.
  rewrite (sqrt_eq_1 (1 * 1 + 0)) by lra.
  rewrite !(sqrt_eq_0 (_ + 0)) by lra.
  rewrite atan2_0_0. unfold Rdiv. now rewrite !Rmult_0_l.
Qed.

Lemma dot_zero_l (u v : list R) : Forall (fun c => c = 0) u -> dot u v = 0.
Proof.
  intros Z. revert v. induction Z as [ | c u Hc Z IH]; intros [ | y v];
    rewrite ?dot_nil_r, ?dot_cons; try reflexivity.
  rewrite IH, Hc. ring.
Qed.

Lemma rsum_map2_zero_l (F : R -> R -> R) (u v : list R) :
  Forall (fun c => c = 0) u -> (forall y, F 0 y = 0) -> rsum (map2 F u v) = 0.
Proof.
  intros Z HF. revert v. induction Z as [ | c u Hc Z IH]; intros [ | y v];
    cbn [map2 rsum fold_right]; try reflexivity.
  fold (rsum (map2 F u v)). rewrite IH, Hc, HF. ring.
Qed.

Lemma rsum_map2_zero_r (F : R -> R -> R) (u v : list R) :
  Forall (fun c => c = 0) v -> (forall x, F x 0 = 0) -> rsum (map2 F u v) = 0.
Proof.
  intros Z HF. revert u. induction Z as [ | c v Hc Z IH]; intros [ | x u];
    cbn [map2 rsum fold_right]; try reflexivity.
  fold (rsum (map2 F u v)). rewrite IH, Hc, HF. ring.
Qed.

Lemma norm_zero (u : list R) : Forall (fun c => c = 0) u -> norm u = 0.
Proof. intros Z. unfold norm. rewrite (dot_zero_l u u Z). apply sqrt_0. Qed.

(** The number the device kernel writes for a zero row. *)
Lemma stable_value_zero (variance : R) (u v : list R) :
  Forall (fun c => c = 0) u -> stable_value variance u v = 0.
Proof.
  intros Z. unfold stable_value.
  rewrite (dot_zero_l u u Z), sqrt_0.
  rewrite !(rsum_map2_zero_l _ u v Z) by (intros y; ring).
  rewrite sqrt_0, atan2_0_0. unfold Rdiv. rewrite !Rmult_0_l. reflexivity.
Qed.

Lemma stable_value_zero_r (variance : R) (u v : list R) :
  Forall (fun c => c = 0) v -> stable_value variance u v = 0.
Proof.
  intros Z. unfold stable_value.
  rewrite (dot_zero_l v v Z), sqrt_0.
  rewrite !(rsum_map2_zero_r _ u v Z) by (intros y; ring).
  rewrite sqrt_0, atan2_0_0. unfold Rdiv. rewrite Rmult_0_r, !Rmult_0_l. reflexivity.
Qed.

Lemma zero_or_nonzero (u : list R) : Forall (fun c => c = 0) u \/ nonzero u.
Proof.
  induction u as [ | a u [Z | N]].
  - left. constructor.
  - destruct (Req_dec_T a 0) as [E | Na].
    + left. now constructor.
    + right. now apply Exists_cons_hd.
  - right. now apply Exists_cons_tl.
Qed.

(** The exact cosine of two rows that are not zero. *)
Lemma cosine_nonzero (X Y : list R) :
  nonzero X -> nonzero Y -> cosine X Y = dot X Y / (norm X * norm Y).
Proof.
  intros NX NY. pose proof (norm_pos X NX). pose proof (norm_pos Y NY).
  unfold cosine. rewrite !rsqrt_norm by assumption. field. lra.
Qed.

(** [sin t - t cos t] increases on [0, pi]: its derivative is [t sin t]. *)
Lemma sin_minus_x_cos_increasing (s t : R) :
  0 <= s -> s <= t -> t <= PI -> sin s - s * cos s <= sin t - t * cos t.
Proof.
  intros H0 [Hst | ->] H1; [ | lra].
  pose (f := (sin - id * cos)%F).
  assert (D : derivable f).
  { unfold f. apply derivable_minus.
    - apply derivable_sin.
    - apply derivable_mult; [apply derivable_id | apply derivable_cos]. }
  change (f s <= f t).
  pose proof PI_RGT_0 as HPI.
  apply (derive_increasing_interv_var 0 PI f D); [lra | | lra | lra | lra].
  intros x Hx.
  assert (E : derive_pt f x (D x) = x * sin x).
  { apply derive_pt_eq_0.
    unfold f.
    pose proof (derivable_pt_lim_sin x) as Hs.
    pose proof (derivable_pt_lim_cos x) as Hc.
    pose proof (derivable_pt_lim_id x) as Hi.
    pose proof (derivable_pt_lim_mult id cos x _ _ Hi Hc) as Hm.
    pose proof (derivable_pt_lim_minus sin (id * cos)%F x _ _ Hs Hm) as Hd.
    replace (x * sin x) with (cos x - (1 * cos x + id x * - sin x)).
    - exact Hd.
    - unfold id. ring. }
  rewrite E. apply Rmult_le_pos; [lra | ]. apply sin_ge_0; lra.
Qed.

(** [sin t + (pi - t) cos t] decreases on [0, pi]. *)
Lemma sin_plus_rest_cos_decreasing (s t : R) :
  0 <= s -> s <= t -> t <= PI ->
  sin t + (PI - t) * cos t <= sin s + (PI - s) * cos s.
Proof.
  intros H0 Hst H1.
  pose proof (sin_minus_x_cos_increasing (PI - t) (PI - s)) as H.
  rewrite !Rtrigo_facts.sin_pi_minus, !Rtrigo_facts.cos_pi_minus in H.
  assert (H' : sin t - (PI - t) * - cos t <= sin s - (PI - s) * - cos s)
    by (apply H; lra).
  lra.
Qed.

(** The angular factor moves by at most [pi] times the move of the
    cosine. *)
Lemma angular_factor_lipschitz (c c0 : R) :
  -1 <= c <= 1 -> -1 <= c0 <= 1 ->
  Rabs (angular_factor c - angular_factor c0) <= PI * Rabs (c - c0).
Proof.
  intros Hc Hc0. unfold angular_factor.
  pose proof (acos_bound c) as [T0 T1]. pose proof (acos_bound c0) as [S0 S1].
  pose proof (cos_acos c Hc) as E. pose proof (cos_acos c0 Hc0) as E0.
  set (t := acos c) in *. set (s := acos c0) in *.
  pose proof PI_RGT_0 as HPI.
  assert (A0 : 0 <= PI * Rabs (c - c0))
    by (apply Rmult_le_pos; [lra | apply Rabs_pos]).
  assert (A1 : PI * (c - c0) <= PI * Rabs (c - c0))
    by (apply Rmult_le_compat_l; [lra | apply Rle_abs]).
  assert (A2 : PI * (c0 - c) <= PI * Rabs (c - c0))
    by (apply Rmult_le_compat_l; [lra | rewrite Rabs_minus_sym; apply Rle_abs]).
  apply Rabs_le.
  destruct (Rle_dec t s) as [L | L].
  - pose proof (sin_minus_x_cos_increasing t s T0 L S1) as F1.
    pose proof (sin_plus_rest_cos_decreasing t s T0 L S1) as F2.
    rewrite E, E0 in F1, F2. split; lra.
  - assert (L' : s <= t) by lra.
    pose proof (sin_minus_x_cos_increasing s t S0 L' T1) as F1.
    pose proof (sin_plus_rest_cos_decreasing s t S0 L' T1) as F2.
    rewrite E, E0 in F1, F2. split; lra.
Qed.

(** The device formula at variance 0 in terms of the exact cosine. *)
Lemma stable_value_angular_factor (X Y : list R) :
  length X = length Y -> nonzero X -> nonzero Y ->
  -1 <= cosine X Y <= 1
  /\ stable_value 0 X Y = norm X * norm Y / PI * angular_factor (cosine X Y).
Proof.
  intros HL NX NY.
  pose proof (cosine_in_range X Y HL NX NY) as Rg.
  rewrite (cosine_nonzero X Y NX NY). split; [exact Rg | ].
  rewrite stable_value_closed_form by assumption.
  unfold arccos_value, angular_factor. rewrite (clampR_id _ Rg).
  set (c := dot X Y / (norm X * norm Y)).
  field. apply PI_neq_0.
Qed.

(** The two formulas of the symbolic path at one pair of rows, the cosine
    of the arc-cosine formula computed to [c]. *)
Lemma symbolic_formulas_within (X Y v : list R) (c eps : R) :
  length X = length Y -> -1 <= c <= 1 -> Rabs (c - cosine X Y) <= eps ->
  exists ka kn,
    ArcCosineKernel_formula_of (Ok [Val c]) X Y v
    = Ok (map (nmul (Val ka)) (map Val v))
    /\ NeuralTangentKernel_formula 0 X Y v = Ok (map (nmul (Val kn)) (map Val v))
    /\ Rabs (ka - kn) <= norm X * norm Y * eps.
Proof.
  intros HL Hc He.
  exists (norm X * norm Y / PI * angular_factor c), (stable_value 0 X Y).
  split; [now apply ArcCosineKernel_formula_of_value | ].
  split; [now apply NeuralTangentKernel_formula_value | ].
  pose proof PI_RGT_0 as HPI.
  destruct (zero_or_nonzero X) as [ZX | NX].
  { rewrite (stable_value_zero 0 X Y ZX), (norm_zero X ZX).
    unfold Rdiv. rewrite !Rmult_0_l, Rminus_0_r, Rabs_R0. lra. }
  destruct (zero_or_nonzero Y) as [ZY | NY].
  { rewrite (stable_value_zero_r 0 X Y ZY), (norm_zero Y ZY).
    unfold Rdiv. rewrite Rmult_0_r, !Rmult_0_l, Rminus_0_r, Rabs_R0. lra. }
  destruct (stable_value_angular_factor X Y HL NX NY) as [Rg ->].
  pose proof (norm_pos X NX) as PX. pose proof (norm_pos Y NY) as PY.
  pose proof (angular_factor_lipschitz c (cosine X Y) Hc Rg) as Lip.
  set (n := norm X * norm Y) in *.
  assert (Pn : 0 < n) by (unfold n; nra).
  replace (n / PI * angular_factor c - n / PI * angular_factor (cosine X Y))
    with (n / PI * (angular_factor c - angular_factor (cosine X Y)))
    by (field; lra).
  rewrite Rabs_mult, (Rabs_pos_eq (n / PI))
    by (apply Rlt_le, Rdiv_lt_0_compat; lra).
  apply Rle_trans with (n / PI * (PI * Rabs (c - cosine X Y))).
  - apply Rmult_le_compat_l; [apply Rlt_le, Rdiv_lt_0_compat; lra | exact Lip].
  - replace (n / PI * (PI * Rabs (c - cosine X Y))) with (n * Rabs (c - cosine X Y))
      by (field; lra).
    apply Rmult_le_compat_l; lra.
Qed.

(** C7, as the code has it.  On the dense path the two kernels agree on
    every pair of arguments: [NeuralTangentKernel.direct_kernel] is
    [k_arccos], and so is [k_ntk] with variance 0.  On the staged path they
    agree for point sets of one feature dimension none of whose rows is the
    zero vector, of a size the device launch accepts.  On the symbolic path,
    at every pair of rows whose cosine the arc-cosine formula computes to a
    number [c] of [-1, 1] within [eps] of the exact cosine, the two formulas
    return the elements of [v] times two factors that differ by at most
    [|X| |Y| eps]. *)
Theorem zero_variance_is_arc_cosine (fos : string -> option R) :
  (forall x xp : pyref,
     direct_kernel (NeuralTangentKernel (PyFloat 0)) x xp
     = direct_kernel ArcCosineKernel x xp
     /\ k_ntk x xp 0 = k_arccos x xp)
  /\ (forall X1 X2 : tensor,
        wf X1 -> wf X2 -> ncols X1 = ncols X2 ->
        Forall nonzero (rows X1) -> Forall nonzero (rows X2) ->
        launchable (nrows X1) (nrows X2) ->
        staged fos (NeuralTangentKernel (PyFloat 0)) X1 X2
        = staged fos ArcCosineKernel X1 X2)
  /\ (forall (X Y v : list R) (c eps : R),
        length X = length Y -> -1 <= c <= 1 -> Rabs (c - cosine X Y) <= eps ->
        exists ka kn,
          ArcCosineKernel_formula_of (Ok [Val c]) X Y v
          = Ok (map (nmul (Val ka)) (map Val v))
          /\ NeuralTangentKernel_formula 0 X Y v
             = Ok (map (nmul (Val kn)) (map Val v))
          /\ Rabs (ka - kn) <= norm X * norm Y * eps).
Proof.
  split; [ | split].
  - intros x xp. split; [reflexivity | ].
    unfold k_ntk, k_arccos.
    destruct (unsqueeze x) as [X | e]; [ | reflexivity].
    destruct (unsqueeze xp) as [Y | e]; [ | reflexivity].
    cbn [bind]. destruct (broadcast_dim (ncols X) (ncols Y)) as [d | e]; [ | reflexivity].
    cbn [bind]. do 2 f_equal. apply outer_ext_in; intros u v _ _.
    symmetry. apply arccos_entry_ntk.
  - intros X1 X2 W1 W2 Hc N1 N2 HL.
    rewrite (NeuralTangentKernel_staged_k_ntk fos (PyFloat 0) 0)
      by (assumption || reflexivity).
    rewrite ArcCosineKernel_staged_direct by assumption.
    unfold direct_kernel, ArcCosineKernel_direct_kernel, k_ntk, k_arccos.
    cbn [unsqueeze bind]. destruct (broadcast_dim _ _); [ | reflexivity].
    cbn [bind]. do 2 f_equal. apply outer_ext_in; intros u w _ _.
    symmetry; apply arccos_entry_ntk.
  - intros X Y v c eps. apply symbolic_formulas_within.
Qed.

Lemma stable_value_3_3 : stable_value 0 [3; 3] [3; 3] = 18.
Proof.
  assert (NZ : nonzero [3; 3]) by (left; lra).
  assert (P : 0 < norm [3; 3]) by now apply norm_pos.
  rewrite stable_value_closed_form by (reflexivity || assumption).
  replace (dot [3; 3] [3; 3]) with (norm [3; 3] * norm [3; 3]) by apply norm_sq.
  rewrite arccos_value_saturated by lra.
  rewrite norm_sq. unfold dot. cbn [map2 rsum fold_right]. ring.
Qed.

(** C7 as stated fails on two inputs.  On X1 = [[0]], X2 = [[1]] the staged
    path of the neural tangent kernel with variance 0 writes 0 (its device
    kernel never divides by a norm), where the arc-cosine kernel divides 0
    by the zero norm and returns a NaN.  On X1 = X2 = [[3, 3]], in binary64,
    the cosine of the arc-cosine formula is computed past 1 and the symbolic
    path of the arc-cosine kernel returns a NaN, where the formula of the
    neural tangent kernel, which takes no inverse cosine, has the value
    18. *)
Lemma zero_row_and_rounding_separate_paths :
  staged (fun _ => None) (NeuralTangentKernel (PyFloat 0)) (mkT 1 [[0]]) (mkT 1 [[1]])
  = Ok (mkB 1 [[Val 0]])
  /\ staged (fun _ => None) ArcCosineKernel (mkT 1 [[0]]) (mkT 1 [[1]])
     = Ok (mkB 1 [[Bad ZeroByZero]])
  /\ 1 < f64_to_R (f64_cos_theta [3%float; 3%float] [3%float; 3%float])
  /\ keops_mmv (mkT 2 [[3; 3]]) (mkT 2 [[3; 3]]) (mkT 1 [[1]])
       (ArcCosineKernel_formula_of
          (Ok [Val (f64_to_R (f64_cos_theta [3%float; 3%float] [3%float; 3%float]))]))
     = Ok (mkB 1 [[Bad AcosDomain]])
  /\ symbolic (NeuralTangentKernel (PyFloat 0))
       (mkT 2 [[3; 3]]) (mkT 2 [[3; 3]]) (mkT 1 [[1]])
     = Ok (mkB 1 [[Val 18]]).
Proof.
  assert (W0 : wf (mkT 1 [[0]])) by (repeat constructor).
  assert (W1 : wf (mkT 1 [[1]])) by (repeat constructor).
  split; [ | split; [ | split; [ | split]]].
  - rewrite (NeuralTangentKernel_staged _ (PyFloat 0) 0);
      try assumption; try reflexivity; try apply launchable_1_1.
    cbn [nrows rows length outer map]. now rewrite stable_value_zero_row.
  - rewrite ArcCosineKernel_staged_direct by (assumption || reflexivity).
    cbn [direct_kernel]. unfold ArcCosineKernel_direct_kernel, k_arccos.
    cbn [unsqueeze bind ncols nrows rows broadcast_dim Nat.eqb outer map expand length].
    rewrite arccos_entry_ntk, ntk_entry_zero.
    + unfold dot. cbn [map2 rsum fold_right]. unfold div_fault.
      destruct (Req_dec_T (0 * 1 + 0) 0); [reflexivity | lra].
    + unfold norm at 1, dot. cbn [map2 rsum fold_right].
      rewrite (sqrt_eq_0 (0 * 0 + 0)) by lra. lra.
  - exact f64_cos_theta_3_3_past_1.
  - unfold keops_mmv.
    cbn [nrows ncols rows length Nat.eqb map combine fold_left fst snd List.repeat].
    rewrite (ArcCosineKernel_formula_of_past_1 _ _ _ _ f64_cos_theta_3_3_past_1).
    unfold kadd. rewrite kbin_vectors by reflexivity.
    cbn [map map2 nmul nadd lift2 sequence bind]. reflexivity.
  - unfold symbolic, NeuralTangentKernel_keops_mmv_impl. cbn [torch_tensor_1 bind].
    unfold keops_mmv.
    cbn [nrows ncols rows length Nat.eqb map combine fold_left fst snd List.repeat].
    rewrite NeuralTangentKernel_formula_value by reflexivity.
    rewrite stable_value_3_3.
    unfold kadd. rewrite kbin_vectors by reflexivity.
    cbn [map map2 nmul nadd lift2 sequence bind]. repeat f_equal. lra.
Qed.

Lemma zero_variance_is_arc_cosine_witness :
  staged (fun _ => None) (NeuralTangentKernel (PyFloat 0))
    (mkT 2 [[1; 0]]) (mkT 2 [[1; 0]])
  = staged (fun _ => None) ArcCosineKernel (mkT 2 [[1; 0]]) (mkT 2 [[1; 0]]).
Proof.
  refine (proj1 (proj2 (zero_variance_is_arc_cosine (fun _ => None)))
            (mkT 2 [[1; 0]]) (mkT 2 [[1; 0]]) _ _ _ _ _ _);
    try reflexivity; try apply launchable_1_1;
    repeat constructor; cbn; lra.
Defined.

(* ================================================================== *)
(** * The evaluation paths of the neural tangent kernel *)
(* ================================================================== *)

(** C2 at [NeuralTangentKernel(variance=1.0)], X1 = X2 = [[1, 0]] and
    v = [[1]]: the dense path returns 1 and [direct_kernel(X1, X2) @ v] is 1,
    while the staged path and the symbolic path return 2. *)
Theorem NeuralTangentKernel_paths_disagree (fos : string -> option R) :
  direct_kernel (NeuralTangentKernel (PyFloat 1))
    (Some (mkT 2 [[1; 0]])) (Some (mkT 2 [[1; 0]]))
  = Ok (mkB 1 [[Val 1]])
  /\ block_matmul (mkB 1 [[Val 1]]) (mkT 1 [[1]]) = Ok (mkB 1 [[Val 1]])
  /\ staged fos (NeuralTangentKernel (PyFloat 1)) (mkT 2 [[1; 0]]) (mkT 2 [[1; 0]])
     = Ok (mkB 1 [[Val 2]])
  /\ symbolic (NeuralTangentKernel (PyFloat 1))
       (mkT 2 [[1; 0]]) (mkT 2 [[1; 0]]) (mkT 1 [[1]])
     = Ok (mkB 1 [[Val 2]]).
Proof.
  assert (W : wf (mkT 2 [[1; 0]])) by (repeat constructor).
  assert (NZ : nonzero [1; 0]) by (left; lra).
  assert (SV : stable_value 1 [1; 0] [1; 0] = 2).
  { rewrite stable_value_closed_form by (reflexivity || assumption).
    rewrite norm_e1, dot_e1, arccos_value_aligned. lra. }
  repeat split.
  - exact k_arccos_aligned.
  - unfold block_matmul, bmv_row, nsum.
    cbn [bcols brows nrows ncols rows length Nat.eqb transpose_rows map map2
         List.repeat fold_right nmul nadd lift2].
    repeat f_equal. lra.
  - rewrite (NeuralTangentKernel_staged fos (PyFloat 1) 1);
      try assumption; try reflexivity; try apply launchable_1_1.
    cbn [nrows rows length outer map]. now rewrite SV.
  - unfold symbolic, NeuralTangentKernel_keops_mmv_impl. cbn [torch_tensor_1 bind].
    unfold keops_mmv.
    cbn [nrows ncols rows length Nat.eqb map combine fold_left fst snd List.repeat].
    rewrite NeuralTangentKernel_formula_value by reflexivity. rewrite SV.
    unfold kadd. rewrite kbin_vectors by reflexivity.
    cbn [map map2 nmul nadd lift2 sequence bind]. repeat f_equal. lra.
Qed.

(** C10 as stated fails for [NeuralTangentKernel._apply], which launches
    the device kernel instead of adding a matrix product: at variance 1 and
    X1 = X2 = [[1, 0]] it leaves the kernel value 2 in the zeroed [out],
    where the raw bilinear block holds the dot product 1. *)
Lemma NeuralTangentKernel_apply_leaves_kernel_values :
  apply (fun _ => None) (NeuralTangentKernel (PyFloat 1))
    (mkT 2 [[1; 0]]) (transpose (mkT 2 [[1; 0]])) (zeros 1 1)
  = Ok (mkB 1 [[Val 2]])
  /\ raw_block (mkT 2 [[1; 0]]) (mkT 2 [[1; 0]]) = mkB 1 [[Val 1]].
Proof.
  assert (W : wf (mkT 2 [[1; 0]])) by (repeat constructor).
  assert (NZ : nonzero [1; 0]) by (left; lra).
  split.
  - cbn [apply].
    destruct (zeros_shape 1 1) as (Z1 & Z2 & Z3).
    rewrite (NeuralTangentKernel_apply_block (fun _ => None) (PyFloat 1) 1);
      try assumption; try reflexivity; try apply launchable_1_1.
    cbn [nrows rows length outer map].
    rewrite stable_value_closed_form by (reflexivity || assumption).
    rewrite norm_e1, dot_e1, arccos_value_aligned.
    repeat f_equal; lra.
  - unfold raw_block. cbn [nrows rows length outer map]. now rewrite dot_e1.
Qed.

(** The dense path of the spherical Laplace kernel against a single
    reference row: [squeeze(-1)] drops the dimension of size one and the
    product broadcasts to a square block, where the staged path returns one
    column. *)
Lemma k_spherical_laplace_single_reference_row (fos : string -> option R)
    (alpha gamma : R) :
  (exists K, direct_kernel (LaplaceKernelSphere alpha gamma)
               (Some (mkT 2 [[1; 0]; [0; 1]])) (Some (mkT 2 [[1; 0]]))
             = Ok K /\ brows_n K = 2%nat /\ bcols K = 2%nat)
  /\ (exists K, staged fos (LaplaceKernelSphere alpha gamma)
                  (mkT 2 [[1; 0]; [0; 1]]) (mkT 2 [[1; 0]])
                = Ok K /\ brows_n K = 2%nat /\ bcols K = 1%nat).
Proof.
  split.
  - eexists. split; [reflexivity | split; reflexivity].
  - unfold staged.
    rewrite apply_zeros by (try reflexivity; repeat constructor).
    cbn [bind finalize prepare].
    destruct (raw_block_shape (mkT 2 [[1; 0]; [0; 1]]) (mkT 2 [[1; 0]]))
      as (S1 & S2 & S3).
    rewrite LaplaceKernelSphere_finalize_entries by assumption.
    eexists. split; [reflexivity | split; reflexivity].
Qed.

(* ================================================================== *)
(** * The decay limit *)
(* ================================================================== *)

Lemma LaplaceKernelSphere_staged (fos : string -> option R) (alpha gamma : R)
    (X1 X2 : tensor) :
  wf X1 -> wf X2 -> ncols X1 = ncols X2 ->
  staged fos (LaplaceKernelSphere alpha gamma) X1 X2
  = Ok (mkB (nrows X2) (outer (laplace_sphere_entry alpha gamma) (rows X1) (rows X2))).
Proof.
  intros W1 W2 Hc. unfold staged.
  rewrite apply_zeros by auto. cbn [bind finalize prepare].
  destruct (raw_block_shape X1 X2) as [S1 [S2 S3]].
  rewrite LaplaceKernelSphere_finalize_entries by assumption.
  do 2 f_equal. unfold raw_block. cbn [brows].
  rewrite map_map_outer, tag_outer, map_map_outer. cbn [fst snd].
  apply outer_ext_in; intros u v _ _.
  apply LaplaceKernelSphere_finalize_entry_eq.
Qed.

Section Decay.

Variable profile : R -> R.
Hypothesis profile_0 : profile 0 = 1.
Hypothesis profile_continuous : continuity_pt profile 0.

(** The decay term tends to 1 as sigma grows. *)
Lemma decay_term_limit (d eps : R) :
  0 <= d -> 0 < eps ->
  exists S, 0 < S /\ forall sigma, S < sigma -> Rabs (profile (d / sigma) - 1) < eps.
Proof.
  intros Hd He.
  destruct (profile_continuous eps He) as (delta & Hdelta & Hlim).
  exists (d / delta + 1).
  assert (Hq : 0 <= d / delta).
  { apply Rmult_le_pos; [assumption | ]. apply Rlt_le, Rinv_0_lt_compat. lra. }
  split; [lra | ].
  intros sigma Hs.
  assert (Ps : 0 < sigma) by lra.
  destruct (Req_dec_T (d / sigma) 0) as [E | N].
  - rewrite E, profile_0. rewrite Rminus_diag, Rabs_R0. exact He.
  - rewrite <- profile_0. apply (Hlim (d / sigma)). split.
    + split; [exact I | ]. intros E; apply N; now symmetry.
    + change (Rabs (d / sigma - 0) < delta). rewrite Rminus_0_r, Rabs_pos_eq.
      * apply Rmult_lt_reg_r with sigma; [assumption | ].
        unfold Rdiv at 1. rewrite Rmult_assoc, Rinv_l, Rmult_1_r by lra.
        assert (d < delta * sigma); [ | lra].
        apply Rmult_lt_reg_r with (/ delta); [now apply Rinv_0_lt_compat | ].
        replace (delta * sigma * / delta) with sigma by (field; lra).
        unfold Rdiv in Hs. lra.
      * apply Rmult_le_pos; [assumption | ]. apply Rlt_le, Rinv_0_lt_compat. lra.
Qed.

Lemma decay_entry_limit (alpha gamma : R) (x y : list R) (eps : R) :
  0 < eps ->
  exists S, 0 < S /\ forall sigma, S < sigma ->
    close eps (LaplaceKernelSphereDecay_entry profile alpha gamma sigma x y)
      (laplace_sphere_entry alpha gamma x y).
Proof.
  intros He. unfold LaplaceKernelSphereDecay_entry.
  destruct (laplace_sphere_entry alpha gamma x y) as [k | f].
  - destruct (decay_term_limit (euclidean_distance x y) (eps / (Rabs k + 1)))
      as (S & PS & HS).
    + apply norm_nonneg.
    + apply Rdiv_lt_0_compat; [assumption | ]. pose proof (Rabs_pos k). lra.
    + exists S. split; [assumption | ]. intros sigma Hs. cbn [nmul lift2 close].
      specialize (HS sigma Hs).
      set (g := profile (euclidean_distance x y / sigma)) in *.
      replace (k * g - k) with (k * (g - 1)) by ring.
      rewrite Rabs_mult.
      pose proof (Rabs_pos k) as Pk. pose proof (Rabs_pos (g - 1)) as Pg.
      assert (Hb : Rabs (g - 1) * (Rabs k + 1) < eps).
      { apply Rmult_lt_reg_r with (/ (Rabs k + 1)).
        - apply Rinv_0_lt_compat. lra.
        - rewrite Rmult_assoc, Rinv_r, Rmult_1_r by lra. exact HS. }
      nra.
  - exists 1. split; [lra | ]. intros sigma _. reflexivity.
Qed.

Lemma common_bound_row (P : R -> list R -> Prop) (Y : list (list R)) :
  (forall y, In y Y -> exists S, 0 < S /\ forall sigma, S < sigma -> P sigma y) ->
  exists S, 0 < S /\ forall sigma, S < sigma -> forall y, In y Y -> P sigma y.
Proof.
  induction Y as [ | y Y IH]; intros H.
  - exists 1. split; [lra | ]. intros sigma _ y [].
  - destruct (H y (or_introl eq_refl)) as (S1 & P1 & H1).
    destruct IH as (S2 & P2 & H2); [intros; apply H; now right | ].
    exists (Rmax S1 S2). split.
    + apply Rlt_le_trans with S1; [assumption | apply Rmax_l].
    + intros sigma Hs y' [<- | Hy].
      * apply H1. apply Rle_lt_trans with (Rmax S1 S2); [apply Rmax_l | assumption].
      * apply H2; [ | assumption].
        apply Rle_lt_trans with (Rmax S1 S2); [apply Rmax_r | assumption].
Qed.

Lemma Forall2_outer {A B : Type} (Rel : A -> B -> Prop)
    (f : list R -> list R -> A) (g : list R -> list R -> B) (X Y : list (list R)) :
  (forall x y, In x X -> In y Y -> Rel (f x y) (g x y)) ->
  Forall2 (Forall2 Rel) (outer f X Y) (outer g X Y).
Proof.
  intros H. unfold outer. induction X as [ | x X IH]; cbn [map]; constructor.
  - clear IH. assert (Hx : forall y, In y Y -> Rel (f x y) (g x y)).
    { intros; apply H; [now left | assumption]. }
    clear H. induction Y as [ | y Y IHY]; cbn [map]; constructor.
    + apply Hx. now left.
    + apply IHY. intros; apply Hx; now right.
  - apply IH. intros; apply H; [now right | assumption].
Qed.

End Decay.

(** C9, against the model of the decayed kernel, for a decay profile that
    is continuous at 0 with value 1 there: for every pair of point sets of
    one feature dimension, fixed alpha and gamma and every tolerance [eps],
    there is a decay beyond which every value of the decayed kernel is within
    [eps] of the value of [LaplaceKernelSphere] at the same position (or is
    the same non-finite element). *)
Theorem decay_limit (profile : R -> R) (fos : string -> option R)
    (alpha gamma : R) (X1 X2 : tensor) (eps : R) :
  profile 0 = 1 -> continuity_pt profile 0 ->
  wf X1 -> wf X2 -> ncols X1 = ncols X2 -> 0 < eps ->
  exists K,
    staged fos (LaplaceKernelSphere alpha gamma) X1 X2 = Ok K
    /\ exists S, 0 < S /\ forall sigma, S < sigma ->
         within eps
           (LaplaceKernelSphereDecay_direct_kernel profile alpha gamma sigma X1 X2) K.
Proof.
  intros H0 Hc W1 W2 Hn He.
  rewrite LaplaceKernelSphere_staged by assumption.
  eexists. split; [reflexivity | ].
  destruct (common_bound_row
              (fun sigma x => forall y, In y (rows X2) ->
                 close eps (LaplaceKernelSphereDecay_entry profile alpha gamma sigma x y)
                   (laplace_sphere_entry alpha gamma x y))
              (rows X1)) as (S & PS & HS).
  { intros x _.
    apply (common_bound_row
             (fun sigma y =>
                close eps (LaplaceKernelSphereDecay_entry profile alpha gamma sigma x y)
                  (laplace_sphere_entry alpha gamma x y))).
    intros y _. now apply decay_entry_limit. }
  exists S. split; [assumption | ]. intros sigma Hs.
  unfold within, LaplaceKernelSphereDecay_direct_kernel. cbn [bcols brows].
  split; [reflexivity | ].
  apply Forall2_outer. intros x y Hx Hy. now apply (HS sigma Hs x Hx y Hy).
Qed.

Lemma gaussian_profile_continuous : continuity_pt gaussian_profile 0.
Proof. apply derivable_continuous_pt. unfold gaussian_profile. reg. Qed.

Lemma gaussian_profile_0 : gaussian_profile 0 = 1.
Proof.
  unfold gaussian_profile. replace (- (0 * 0) / 2) with 0 by lra. apply exp_0.
Qed.

(* ================================================================== *)
(** * Instances *)
(* ================================================================== *)

Lemma fit_solves_then_predict_applies_witness :
  snd (fit (fun M => Ok M) (DirectKernelSolver_init ArcCosineKernel 1)
         (mkT 2 [[1; 0]]) [2]) = Ok tt.
Proof.
  refine (proj1 (fit_solves_then_predict_applies (fun M => Ok M) ArcCosineKernel 1
                   (mkT 2 [[1; 0]])
                   [2] (mkB 1 [[Val 1]]) [[1 + 1 * 1]] _ _ _ _)).
  - exact k_arccos_aligned.
  - reflexivity.
  - exists [[/ 2]]. unfold is_inverse, matmul, eye.
    cbn [nrows ncols rows length map vm map2 List.repeat seq Nat.eqb].
    repeat split; repeat constructor; repeat f_equal; lra.
  - reflexivity.
Defined.

Lemma decay_limit_witness :
  exists K,
    staged (fun _ => None) (LaplaceKernelSphere (-1) (1 / 2))
      (mkT 2 [[1; 0]]) (mkT 2 [[0; 1]]) = Ok K
    /\ exists S, 0 < S /\ forall sigma, S < sigma ->
         within 1
           (LaplaceKernelSphereDecay_direct_kernel gaussian_profile (-1) (1 / 2)
              sigma (mkT 2 [[1; 0]]) (mkT 2 [[0; 1]])) K.
Proof.
  apply (decay_limit gaussian_profile (fun _ => None) (-1) (1 / 2)
           (mkT 2 [[1; 0]]) (mkT 2 [[0; 1]]) 1).
  - apply gaussian_profile_0.
  - apply gaussian_profile_continuous.
  - repeat constructor.
  - repeat constructor.
  - reflexivity.
  - lra.
Defined.

(* ================================================================== *)
(** * The dense kernels: shape, symmetry, diagonal, range, scaling *)
(* ================================================================== *)

Lemma dot_comm (u v : list R) : dot u v = dot v u.
Proof.
  revert v; induction u as [ | a u IH]; intros [ | b v];
    rewrite ?dot_nil_r, ?dot_cons; try reflexivity.
  rewrite IH. lra.
Qed.

Lemma map2_outer {A B C : Type} (F : A -> B -> C) (g : list R -> list R -> A)
    (h : list R -> list R -> B) (X Y : list (list R)) :
  map2 (fun n r => map2 F n r) (outer g X Y) (outer h X Y)
  = outer (fun u v => F (g u v) (h u v)) X Y.
Proof.
  unfold outer. rewrite map2_map_l, map2_map_r, map2_diag.
  apply map_ext; intros u. rewrite map2_map_l, map2_map_r, map2_diag. reflexivity.
Qed.

(** The dense Laplace block when the reference set does not have exactly
    one row. *)
Lemma k_spherical_laplace_block (X1 X2 : tensor) (gamma alpha : R) :
  nrows X2 <> 1%nat ->
  k_spherical_laplace (Some X1) (Some X2) gamma alpha
  = (d <- broadcast_dim (ncols X1) (ncols X2) ;;
     Ok (mkB (nrows X2) (outer (laplace_entry alpha gamma d) (rows X1) (rows X2)))).
Proof.
  intros H1. unfold k_spherical_laplace. cbn [unsqueeze bind].
  destruct (broadcast_dim (ncols X1) (ncols X2)) as [d | e]; [ | reflexivity].
  cbn [bind]. destruct (Nat.eqb_spec (nrows X2) 1) as [E | _]; [contradiction | ].
  rewrite map2_outer. reflexivity.
Qed.

(** The dense Laplace block against a single reference row [y]: a square
    block over the query rows. *)
Lemma k_spherical_laplace_single_row (X1 : tensor) (d2 : nat) (y : list R)
    (gamma alpha : R) :
  k_spherical_laplace (Some X1) (Some (mkT d2 [y])) gamma alpha
  = (d <- broadcast_dim (ncols X1) d2 ;;
     Ok (mkB (nrows X1)
           (outer (fun u w =>
                     nmul (Val (norm u * norm y))
                       (laplace_exp gamma alpha (dot (expand d w) (expand d y))
                          (norm w) (norm y)))
              (rows X1) (rows X1)))).
Proof.
  unfold k_spherical_laplace. cbn [unsqueeze bind ncols nrows rows length Nat.eqb].
  destruct (broadcast_dim (ncols X1) d2) as [d | e]; [ | reflexivity].
  cbn [bind]. do 2 f_equal. unfold outer. cbn [map].
  rewrite !map_map. cbn [hd]. apply map_ext; intros u.
  rewrite map_map. reflexivity.
Qed.

Lemma arccos_entry_comm (p a b : R) : arccos_entry p a b = arccos_entry p b a.
Proof. unfold arccos_entry. rewrite (Rmult_comm a b). reflexivity. Qed.

Lemma laplace_exp_comm (gamma alpha p a b : R) :
  laplace_exp gamma alpha p a b = laplace_exp gamma alpha p b a.
Proof. unfold laplace_exp. rewrite (Rmult_comm a b). reflexivity. Qed.

Lemma broadcast_dim_same (d : nat) : broadcast_dim d d = Ok d.
Proof. unfold broadcast_dim. rewrite Nat.eqb_refl. reflexivity. Qed.

Lemma broadcast_dim_broadcastable (d1 d2 : nat) :
  if broadcastable d1 d2
  then exists d, broadcast_dim d1 d2 = Ok d
  else broadcast_dim d1 d2
       = Raise (RuntimeError "The size of tensor a must match the size of tensor b").
Proof.
  unfold broadcastable, broadcast_dim.
  destruct (Nat.eqb d1 d2); cbn [orb]; [eauto | ].
  destruct (Nat.eqb d1 1); cbn [orb]; [eauto | ].
  destruct (Nat.eqb d2 1); [eauto | reflexivity].
Qed.

(** The dense arc-cosine block at one position. *)
Lemma k_arccos_entry (X1 X2 : tensor) (K : block) (i j : nat) :
  k_arccos (Some X1) (Some X2) = Ok K ->
  (i < nrows X1)%nat -> (j < nrows X2)%nat ->
  exists d, broadcast_dim (ncols X1) (ncols X2) = Ok d
    /\ entry K i j
       = arccos_entry (dot (expand d (nth i (rows X1) [])) (expand d (nth j (rows X2) [])))
           (norm (nth i (rows X1) [])) (norm (nth j (rows X2) [])).
Proof.
  unfold k_arccos. cbn [unsqueeze bind]. intros H Hi Hj.
  destruct (broadcast_dim (ncols X1) (ncols X2)) as [d | e]; [ | discriminate].
  cbn [bind] in H. injection H as <-. exists d. split; [reflexivity | ].
  unfold entry. cbn [brows].
  apply (nth_outer_entry
           (fun u v => arccos_entry (dot (expand d u) (expand d v)) (norm u) (norm v)));
    assumption.
Qed.

(** The dense block of any kernel on one point set against itself, at one
    position. *)
Lemma direct_kernel_self_entry (k : kernel) (X : tensor) (K : block) (i j : nat) :
  direct_kernel k (Some X) (Some X) = Ok K ->
  (i < nrows X)%nat -> (j < nrows X)%nat ->
  entry K i j
  = match k with
    | LaplaceKernelSphere alpha gamma =>
        laplace_entry alpha gamma (ncols X) (nth i (rows X) []) (nth j (rows X) [])
    | _ =>
        arccos_entry
          (dot (expand (ncols X) (nth i (rows X) [])) (expand (ncols X) (nth j (rows X) [])))
          (norm (nth i (rows X) [])) (norm (nth j (rows X) []))
    end.
Proof.
  intros H Hi Hj.
  assert (A : forall K', k_arccos (Some X) (Some X) = Ok K' ->
            entry K' i j
            = arccos_entry
                (dot (expand (ncols X) (nth i (rows X) []))
                   (expand (ncols X) (nth j (rows X) [])))
                (norm (nth i (rows X) [])) (norm (nth j (rows X) []))).
  { intros K' H'. destruct (k_arccos_entry X X K' i j H' Hi Hj) as [d [Hd E]].
    rewrite broadcast_dim_same in Hd. injection Hd as <-. exact E. }
  destruct k as [ | variance | alpha gamma]; cbn [direct_kernel] in H.
  - apply A, H.
  - apply A, H.
  - unfold LaplaceKernelSphere_direct_kernel in H.
    destruct (Nat.eq_dec (nrows X) 1) as [E1 | N1].
    + destruct X as [d rs]. unfold nrows in *. cbn [rows ncols] in *.
      destruct rs as [ | y [ | ? ?]]; try discriminate E1.
      rewrite k_spherical_laplace_single_row, broadcast_dim_same in H.
      cbn [bind ncols nrows rows] in H. injection H as <-.
      assert (i = 0%nat) as -> by (cbn [length] in Hi; lia).
      assert (j = 0%nat) as -> by (cbn [length] in Hj; lia).
      reflexivity.
    + rewrite k_spherical_laplace_block, broadcast_dim_same in H by assumption.
      cbn [bind] in H. injection H as <-. unfold entry. cbn [brows].
      apply (nth_outer_entry (laplace_entry alpha gamma (ncols X))); assumption.
Qed.

(** X1: the kernel matrix of a point set against itself is symmetric. *)
Theorem direct_kernel_symmetric (k : kernel) (X : tensor) (K : block) (i j : nat) :
  direct_kernel k (Some X) (Some X) = Ok K ->
  (i < nrows X)%nat -> (j < nrows X)%nat ->
  entry K i j = entry K j i.
Proof.
  intros H Hi Hj.
  rewrite (direct_kernel_self_entry k X K i j H Hi Hj).
  rewrite (direct_kernel_self_entry k X K j i H Hj Hi).
  destruct k as [ | variance | alpha gamma].
  - rewrite dot_comm. apply arccos_entry_comm.
  - rewrite dot_comm. apply arccos_entry_comm.
  - unfold laplace_entry. rewrite dot_comm, laplace_exp_comm.
    rewrite (Rmult_comm (norm (nth i (rows X) []))). reflexivity.
Qed.

Lemma direct_kernel_symmetric_witness :
  exists K,
    direct_kernel (LaplaceKernelSphere (-1) (1 / 2))
      (Some (mkT 2 [[1; 0]; [0; 2]])) (Some (mkT 2 [[1; 0]; [0; 2]])) = Ok K
    /\ entry K 0 1 = entry K 1 0.
Proof.
  eexists. split.
  - reflexivity.
  - apply (direct_kernel_symmetric (LaplaceKernelSphere (-1) (1 / 2))
             (mkT 2 [[1; 0]; [0; 2]])).
    + reflexivity.
    + cbn; lia.
    + cbn; lia.
Defined.

Lemma outer_wfb {A B : Type} (f : A -> B -> num) (X : list A) (Y : list B) :
  brows_n (mkB (length Y) (outer f X Y)) = length X
  /\ wfb (mkB (length Y) (outer f X Y)).
Proof.
  split.
  - apply outer_length.
  - apply outer_rows_length.
Qed.

(** The dense kernel on point sets whose feature dimensions broadcast. *)
Lemma direct_kernel_returns (k : kernel) (X1 X2 : tensor) (d : nat) :
  broadcast_dim (ncols X1) (ncols X2) = Ok d ->
  exists K, direct_kernel k (Some X1) (Some X2) = Ok K
    /\ brows_n K = nrows X1 /\ wfb K
    /\ (nrows X2 <> 1%nat -> bcols K = nrows X2).
Proof.
  intros Hd.
  assert (A : exists K, k_arccos (Some X1) (Some X2) = Ok K
              /\ brows_n K = nrows X1 /\ wfb K
              /\ (nrows X2 <> 1%nat -> bcols K = nrows X2)).
  { unfold k_arccos. cbn [unsqueeze bind]. rewrite Hd. cbn [bind].
    eexists. split; [reflexivity | ].
    split; [apply outer_wfb | ]. split; [apply outer_wfb | reflexivity]. }
  destruct k as [ | variance | alpha gamma]; cbn [direct_kernel];
    [exact A | exact A | ].
  unfold LaplaceKernelSphere_direct_kernel.
  destruct (Nat.eq_dec (nrows X2) 1) as [E1 | N1].
  - destruct X2 as [d2 rs]. unfold nrows in E1. cbn [rows] in E1.
    destruct rs as [ | y [ | ? ?]]; try discriminate E1.
    rewrite k_spherical_laplace_single_row. cbn [ncols] in Hd. rewrite Hd.
    cbn [bind]. eexists. split; [reflexivity | ].
    split; [apply outer_wfb | ]. split; [apply outer_wfb | ].
    intros N. exfalso. apply N. reflexivity.
  - rewrite k_spherical_laplace_block, Hd by assumption. cbn [bind].
    eexists. split; [reflexivity | ].
    split; [apply outer_wfb | ]. split; [apply outer_wfb | reflexivity].
Qed.

Lemma direct_kernel_raises (k : kernel) (X1 X2 : pyref) (e : exn) :
  (X1 <- unsqueeze X1 ;; X2 <- unsqueeze X2 ;;
   broadcast_dim (ncols X1) (ncols X2)) = Raise e ->
  direct_kernel k X1 X2 = Raise e.
Proof.
  intros H.
  destruct k as [ | variance | alpha gamma]; cbn [direct_kernel];
    unfold LaplaceKernelSphere_direct_kernel, ArcCosineKernel_direct_kernel,
      NeuralTangentKernel_direct_kernel, k_arccos, k_spherical_laplace;
    destruct X1 as [T1 | ], X2 as [T2 | ]; cbn [unsqueeze bind] in *;
    try (injection H as <-; reflexivity); rewrite H; reflexivity.
Qed.

(** X2: the dense kernel of every class returns exactly when the feature
    dimensions of the two point sets broadcast (they are equal, or one of
    them is 1) and raises torch's size error otherwise; the block it returns
    has one row for each query row, all of one length, and one column for
    each reference row unless the reference set has exactly one row. *)
Theorem direct_kernel_feature_dimensions (k : kernel) (X1 X2 : tensor) :
  if broadcastable (ncols X1) (ncols X2)
  then exists K, direct_kernel k (Some X1) (Some X2) = Ok K
         /\ brows_n K = nrows X1 /\ wfb K
         /\ (nrows X2 <> 1%nat -> bcols K = nrows X2)
  else direct_kernel k (Some X1) (Some X2)
       = Raise (RuntimeError "The size of tensor a must match the size of tensor b").
Proof.
  pose proof (broadcast_dim_broadcastable (ncols X1) (ncols X2)) as B.
  destruct (broadcastable (ncols X1) (ncols X2)).
  - destruct B as [d Hd]. apply (direct_kernel_returns k X1 X2 d Hd).
  - apply direct_kernel_raises. exact B.
Qed.

Lemma arccos_value_diagonal (variance n : R) :
  0 < n -> arccos_value variance (n * n) n n = (1 + variance) * (n * n).
Proof.
  intros Hn. unfold arccos_value.
  replace (n * n / (n * n)) with 1 by (field; lra).
  rewrite (clampR_id 1) by lra. rewrite acos_1, sin_0.
  field. apply PI_neq_0.
Qed.

(** X3: on the diagonal of the kernel matrix of a point set against
    itself, the value at a row that is not the zero vector is the squared
    norm of that row: the arc-cosine kernel and the spherical Laplace kernel
    (with a positive exponent) both restrict to the plain dot product there. *)
Theorem direct_kernel_diagonal (k : kernel) (X : tensor) (K : block) (i : nat) :
  direct_kernel k (Some X) (Some X) = Ok K ->
  wf X -> (i < nrows X)%nat -> nonzero (nth i (rows X) []) ->
  positive_exponent k ->
  entry K i i = Val (dot (nth i (rows X) []) (nth i (rows X) [])).
Proof.
  intros H W Hi NZ PE.
  rewrite (direct_kernel_self_entry k X K i i H Hi Hi).
  set (x := nth i (rows X) []) in *.
  assert (L : length x = ncols X).
  { apply wf_in; [assumption | ]. apply nth_In. exact Hi. }
  rewrite (expand_same _ _ L).
  pose proof (norm_pos x NZ) as Hn. pose proof (norm_sq x) as Hs.
  assert (A : arccos_entry (dot x x) (norm x) (norm x) = Val (dot x x)).
  { rewrite arccos_entry_val by nra.
    rewrite <- Hs, arccos_value_diagonal by assumption. f_equal. ring. }
  destruct k as [ | variance | alpha gamma]; [exact A | exact A | ].
  unfold laplace_entry. rewrite (expand_same _ _ L).
  rewrite laplace_exp_nonzero by nra.
  assert (E : dot x x / (norm x * norm x) = 1) by (rewrite <- Hs; field; lra).
  rewrite E, (clampR_id 1) by lra.
  replace (1 - 1) with 0 by ring.
  cbn [positive_exponent] in PE. rewrite (rpow_0_pos _ PE).
  cbn [nmul lift2 nexp lift1]. rewrite Rmult_0_r, exp_0, Hs. f_equal. ring.
Qed.

Lemma direct_kernel_diagonal_witness :
  exists K,
    direct_kernel (LaplaceKernelSphere (-1) (1 / 2))
      (Some (mkT 2 [[1; 0]; [0; 2]])) (Some (mkT 2 [[1; 0]; [0; 2]])) = Ok K
    /\ entry K 1 1 = Val (dot [0; 2] [0; 2]).
Proof.
  eexists. split.
  - reflexivity.
  - apply (direct_kernel_diagonal (LaplaceKernelSphere (-1) (1 / 2))
             (mkT 2 [[1; 0]; [0; 2]])).
    + reflexivity.
    + repeat constructor.
    + cbn; lia.
    + cbn. right. left. lra.
    + cbn. lra.
Defined.

(** [x cos x <= sin x] on [0, pi]: the difference vanishes at 0 and its
    derivative [x sin x] is not negative. *)
Lemma sin_ge_x_cos (x : R) : 0 <= x <= PI -> x * cos x <= sin x.
Proof.
  intros [H0 H1].
  destruct (Req_dec_T x 0) as [-> | N].
  { rewrite sin_0. lra. }
  pose (f := (sin - id * cos)%F).
  assert (D : derivable f).
  { unfold f. apply derivable_minus.
    - apply derivable_sin.
    - apply derivable_mult; [apply derivable_id | apply derivable_cos]. }
  cut (f 0 <= f x).
  { unfold f, minus_fct, mult_fct, id. rewrite sin_0. lra. }
  pose proof PI_RGT_0 as HPI.
  apply (derive_increasing_interv_var 0 PI f D); [lra | | lra | lra | lra].
  intros t Ht.
  assert (E : derive_pt f t (D t) = t * sin t).
  { apply derive_pt_eq_0.
    unfold f.
    pose proof (derivable_pt_lim_sin t) as Hs.
    pose proof (derivable_pt_lim_cos t) as Hc.
    pose proof (derivable_pt_lim_id t) as Hi.
    pose proof (derivable_pt_lim_mult id cos t _ _ Hi Hc) as Hm.
    pose proof (derivable_pt_lim_minus sin (id * cos)%F t _ _ Hs Hm) as Hd.
    replace (t * sin t) with (cos t - (1 * cos t + id t * - sin t)).
    - exact Hd.
    - unfold id. ring. }
  rewrite E. apply Rmult_le_pos; [lra | ]. apply sin_ge_0; lra.
Qed.

(** The angular factor [sin t + (pi - t) cos t] lies in [0, pi]. *)
Lemma angular_factor_range (c : R) :
  -1 <= c <= 1 -> 0 <= sin (acos c) + (PI - acos c) * c <= PI.
Proof.
  intros Hc. pose proof (acos_bound c) as [T0 T1].
  pose proof (cos_acos c Hc) as E.
  set (t := acos c) in *. rewrite <- E. split.
  - pose proof (sin_ge_x_cos (PI - t)) as H.
    rewrite Rtrigo_facts.sin_pi_minus, Rtrigo_facts.cos_pi_minus in H. lra.
  - pose proof (COS_bound t) as [_ C1].
    assert (S : sin t <= t).
    { destruct (Req_dec_T t 0) as [-> | N]; [rewrite sin_0; lra | ].
      left. apply sin_lt_x. lra. }
    nra.
Qed.

Lemma arccos_value_range (p a b : R) :
  0 < a -> 0 < b -> 0 <= arccos_value 0 p a b <= a * b.
Proof.
  intros Ha Hb. unfold arccos_value.
  pose proof (angular_factor_range _ (clampR_range (p / (a * b)))) as [J0 J1].
  set (c := clampR (p / (a * b))) in *.
  replace (sin (acos c) + (1 + 0) * (PI - acos c) * c)
    with (sin (acos c) + (PI - acos c) * c) by ring.
  set (J := sin (acos c) + (PI - acos c) * c) in *.
  pose proof PI_RGT_0 as HPI.
  assert (Hab : 0 < a * b) by nra.
  split.
  - apply Rmult_le_pos; [nra | ]. left. apply Rinv_0_lt_compat. exact HPI.
  - apply Rmult_le_reg_r with PI; [exact HPI | ].
    replace (a * b * J / PI * PI) with (a * b * J) by (field; lra). nra.
Qed.

(** X4: every element of the dense arc-cosine block at a pair of rows that
    are not the zero vector is a finite number between 0 and the product of
    the norms of the two rows. *)
Theorem k_arccos_range (X1 X2 : tensor) (K : block) (i j : nat) :
  k_arccos (Some X1) (Some X2) = Ok K ->
  (i < nrows X1)%nat -> (j < nrows X2)%nat ->
  nonzero (nth i (rows X1) []) -> nonzero (nth j (rows X2) []) ->
  exists r, entry K i j = Val r
    /\ 0 <= r <= norm (nth i (rows X1) []) * norm (nth j (rows X2) []).
Proof.
  intros H Hi Hj N1 N2.
  destruct (k_arccos_entry X1 X2 K i j H Hi Hj) as [d [_ E]].
  pose proof (norm_pos _ N1) as P1. pose proof (norm_pos _ N2) as P2.
  rewrite arccos_entry_val in E by nra.
  eexists. split; [exact E | ]. apply arccos_value_range; assumption.
Qed.

Lemma k_arccos_range_witness :
  exists K,
    k_arccos (Some (mkT 2 [[1; 0]; [0; 2]])) (Some (mkT 2 [[3; 4]])) = Ok K
    /\ exists r, entry K 1 0 = Val r /\ 0 <= r <= norm [0; 2] * norm [3; 4].
Proof.
  eexists. split.
  - reflexivity.
  - apply (k_arccos_range (mkT 2 [[1; 0]; [0; 2]]) (mkT 2 [[3; 4]])).
    + reflexivity.
    + cbn; lia.
    + cbn; lia.
    + cbn. right. left. lra.
    + cbn. left. lra.
Defined.

Lemma rpow_nonneg_value (x y : R) :
  0 <= x -> 0 <= y -> exists r, rpow x y = Val r /\ 0 <= r.
Proof.
  intros Hx Hy. unfold rpow.
  destruct (Rlt_dec 0 x) as [P | NP].
  - eexists. split; [reflexivity | ]. unfold Rpower. left. apply exp_pos.
  - destruct (Req_dec_T x 0) as [E | N]; [ | lra].
    destruct (Req_dec_T y 0) as [_ | Ny].
    + exists 1. split; [reflexivity | lra].
    + destruct (Rlt_dec 0 y) as [_ | C]; [ | lra].
      exists 0. split; [reflexivity | lra].
Qed.

(** X5: with a decay rate [alpha <= 0] and an exponent [gamma >= 0] (the
    values [-1] and [0.5] the fitting script passes among them), every
    element of the dense spherical Laplace block at a pair of rows that are
    not the zero vector is a finite number, positive and at most the product
    of the norms of the two rows. *)
Theorem k_spherical_laplace_range (alpha gamma : R) (X1 X2 : tensor) (K : block)
    (i j : nat) :
  k_spherical_laplace (Some X1) (Some X2) gamma alpha = Ok K ->
  nrows X2 <> 1%nat -> alpha <= 0 -> 0 <= gamma ->
  (i < nrows X1)%nat -> (j < nrows X2)%nat ->
  nonzero (nth i (rows X1) []) -> nonzero (nth j (rows X2) []) ->
  exists r, entry K i j = Val r
    /\ 0 < r <= norm (nth i (rows X1) []) * norm (nth j (rows X2) []).
Proof.
  intros H R1 Ha Hg Hi Hj N1 N2.
  rewrite k_spherical_laplace_block in H by assumption.
  destruct (broadcast_dim (ncols X1) (ncols X2)) as [d | e]; [ | discriminate].
  cbn [bind] in H. injection H as <-. unfold entry. cbn [brows].
  rewrite (nth_outer_entry (laplace_entry alpha gamma d)) by assumption.
  set (u := nth i (rows X1) []) in *. set (v := nth j (rows X2) []) in *.
  pose proof (norm_pos _ N1) as P1. pose proof (norm_pos _ N2) as P2.
  assert (P : 0 < norm u * norm v) by nra.
  unfold laplace_entry. rewrite laplace_exp_nonzero by lra.
  set (c := clampR (dot (expand d u) (expand d v) / (norm u * norm v))).
  pose proof (clampR_range (dot (expand d u) (expand d v) / (norm u * norm v))) as Hc.
  fold c in Hc.
  destruct (rpow_nonneg_value (1 - c) gamma) as [w [Ew Hw]]; [lra | assumption | ].
  rewrite Ew. cbn [nmul lift2 nexp lift1].
  eexists. split; [reflexivity | ].
  pose proof (exp_pos (alpha * w)) as E0.
  assert (E1 : exp (alpha * w) <= 1).
  { rewrite <- exp_0. destruct (Req_dec_T (alpha * w) 0) as [-> | N]; [lra | ].
    left. apply exp_increasing. nra. }
  nra.
Qed.

Lemma k_spherical_laplace_range_witness :
  exists K,
    k_spherical_laplace (Some (mkT 2 [[1; 0]; [0; 2]]))
      (Some (mkT 2 [[3; 4]; [1; 1]])) (1 / 2) (-1) = Ok K
    /\ exists r, entry K 1 0 = Val r /\ 0 < r <= norm [0; 2] * norm [3; 4].
Proof.
  eexists. split.
  - reflexivity.
  - apply (k_spherical_laplace_range (-1) (1 / 2)
             (mkT 2 [[1; 0]; [0; 2]]) (mkT 2 [[3; 4]; [1; 1]])).
    + reflexivity.
    + cbn; lia.
    + lra.
    + lra.
    + cbn; lia.
    + cbn; lia.
    + cbn. right. left. lra.
    + cbn. left. lra.
Defined.

Lemma expand_scale (c : R) (d : nat) (u : list R) :
  expand d (map (Rmult c) u) = map (Rmult c) (expand d u).
Proof.
  unfold expand. rewrite length_map.
  destruct (Nat.eqb (length u) d); [reflexivity | ].
  rewrite map_repeat. f_equal.
  destruct u as [ | a u]; cbn [map hd]; [ring | reflexivity].
Qed.

Lemma norm_scale (c : R) (u : list R) :
  0 <= c -> norm (map (Rmult c) u) = c * norm u.
Proof.
  intros Hc. unfold norm. rewrite dot_scale, dot_scale_r.
  rewrite <- Rmult_assoc, sqrt_mult.
  - rewrite sqrt_square by assumption. reflexivity.
  - nra.
  - apply dot_self_nonneg.
Qed.

Lemma div_fault_scale (c p : R) : c <> 0 -> div_fault (c * p) = div_fault p.
Proof.
  intros Hc. unfold div_fault.
  destruct (Req_dec_T (c * p) 0) as [E | N], (Req_dec_T p 0) as [E' | N'];
    try reflexivity.
  - exfalso. apply Rmult_integral in E. tauto.
  - exfalso. apply N. rewrite E'. ring.
Qed.

Lemma arccos_entry_scale (c p a b : R) :
  0 < c -> arccos_entry (c * p) (c * a) b = nmul (Val c) (arccos_entry p a b).
Proof.
  intros Hc. destruct (Req_dec_T (a * b) 0) as [Z | NZ].
  - assert (Z' : c * a * b = 0) by (rewrite Rmult_assoc, Z; ring).
    rewrite !arccos_entry_ntk, (ntk_entry_zero _ _ _ _ Z), (ntk_entry_zero _ _ _ _ Z').
    cbn [nmul lift2]. rewrite div_fault_scale by lra. reflexivity.
  - assert (NZ' : c * a * b <> 0) by (intros E; apply NZ; nra).
    rewrite !arccos_entry_val by assumption. cbn [nmul lift2]. f_equal.
    unfold arccos_value.
    assert (Na : a <> 0) by (intros E; apply NZ; rewrite E; ring).
    assert (Nb : b <> 0) by (intros E; apply NZ; rewrite E; ring).
    replace (c * p / (c * a * b)) with (p / (a * b)) by (field; repeat split; lra).
    field. apply PI_neq_0.
Qed.

(** X6: the arc-cosine kernel is positively homogeneous in its first
    argument: scaling every query row by [c > 0] scales the dense block by
    [c], faults at zero rows staying as they are. *)
Theorem k_arccos_homogeneous (c : R) (X1 X2 : tensor) :
  0 < c ->
  k_arccos (Some (scale_tensor c X1)) (Some X2)
  = (K <- k_arccos (Some X1) (Some X2) ;; Ok (mapb (nmul (Val c)) K)).
Proof.
  intros Hc. unfold k_arccos, scale_tensor. cbn [unsqueeze bind ncols rows].
  destruct (broadcast_dim (ncols X1) (ncols X2)) as [d | e]; [ | reflexivity].
  cbn [bind]. unfold mapb. cbn [bcols brows]. do 2 f_equal.
  unfold outer. rewrite !map_map. apply map_ext; intros u.
  rewrite map_map. apply map_ext; intros v.
  rewrite expand_scale, dot_scale, norm_scale by lra.
  apply arccos_entry_scale. exact Hc.
Qed.

Lemma k_arccos_homogeneous_witness :
  k_arccos (Some (scale_tensor 2 (mkT 2 [[1; 0]]))) (Some (mkT 2 [[0; 1]]))
  = (K <- k_arccos (Some (mkT 2 [[1; 0]])) (Some (mkT 2 [[0; 1]])) ;;
     Ok (mapb (nmul (Val 2)) K)).
Proof.
  apply (k_arccos_homogeneous 2 (mkT 2 [[1; 0]]) (mkT 2 [[0; 1]])). lra.
Defined.

(** X7: [k_ntk] with variance 0 is [k_arccos], on every pair of arguments:
    the two functions return the same block, the same faults at zero rows
    and the same exception. *)
Theorem k_ntk_zero_variance (x xp : pyref) : k_ntk x xp 0 = k_arccos x xp.
Proof.
  unfold k_ntk, k_arccos.
  destruct (unsqueeze x) as [X | e]; [ | reflexivity].
  destruct (unsqueeze xp) as [Y | e]; [ | reflexivity].
  cbn [bind]. destruct (broadcast_dim (ncols X) (ncols Y)) as [d | e]; [ | reflexivity].
  cbn [bind]. do 2 f_equal. apply outer_ext_in; intros u v _ _.
  symmetry. apply arccos_entry_ntk.
Qed.

(* ================================================================== *)
(** * The staged path against the dense path *)
(* ================================================================== *)

(** X8: for the arc-cosine kernel the staged path ([_prepare], [_apply]
    into a zeroed block, [_finalize]) returns the block of the dense path,
    faults at zero rows included. *)
Theorem ArcCosineKernel_staged_is_dense (fos : string -> option R) (X1 X2 : tensor) :
  wf X1 -> wf X2 -> ncols X1 = ncols X2 ->
  staged fos ArcCosineKernel X1 X2 = k_arccos (Some X1) (Some X2).
Proof.
  intros W1 W2 Hc. rewrite ArcCosineKernel_staged_direct by assumption. reflexivity.
Qed.

Lemma ArcCosineKernel_staged_is_dense_witness :
  staged (fun _ => None) ArcCosineKernel (mkT 2 [[1; 0]; [0; 0]]) (mkT 2 [[0; 1]])
  = k_arccos (Some (mkT 2 [[1; 0]; [0; 0]])) (Some (mkT 2 [[0; 1]])).
Proof.
  apply (ArcCosineKernel_staged_is_dense (fun _ => None)
           (mkT 2 [[1; 0]; [0; 0]]) (mkT 2 [[0; 1]])).
  - repeat constructor.
  - repeat constructor.
  - reflexivity.
Defined.

Lemma laplace_entry_same_dim (alpha gamma : R) (d : nat) (u v : list R) :
  length u = d -> length v = d ->
  laplace_entry alpha gamma d u v = laplace_sphere_entry alpha gamma u v.
Proof.
  intros Lu Lv. unfold laplace_entry, laplace_sphere_entry.
  rewrite !expand_same by assumption. reflexivity.
Qed.

(** X9: for the spherical Laplace kernel the staged path returns the block
    of the dense path whenever the reference set does not have exactly one
    row. *)
Theorem LaplaceKernelSphere_staged_is_dense (fos : string -> option R)
    (alpha gamma : R) (X1 X2 : tensor) :
  wf X1 -> wf X2 -> ncols X1 = ncols X2 -> nrows X2 <> 1%nat ->
  staged fos (LaplaceKernelSphere alpha gamma) X1 X2
  = k_spherical_laplace (Some X1) (Some X2) gamma alpha.
Proof.
  intros W1 W2 Hc N1.
  rewrite LaplaceKernelSphere_staged, k_spherical_laplace_block by assumption.
  rewrite <- Hc, broadcast_dim_same. cbn [bind]. do 2 f_equal.
  apply outer_ext_in; intros u v Hu Hv. symmetry.
  apply laplace_entry_same_dim.
  - apply wf_in; assumption.
  - rewrite Hc. apply wf_in; assumption.
Qed.

Lemma LaplaceKernelSphere_staged_is_dense_witness :
  staged (fun _ => None) (LaplaceKernelSphere (-1) (1 / 2))
    (mkT 2 [[1; 0]]) (mkT 2 [[0; 1]; [1; 1]])
  = k_spherical_laplace (Some (mkT 2 [[1; 0]])) (Some (mkT 2 [[0; 1]; [1; 1]]))
      (1 / 2) (-1).
Proof.
  apply (LaplaceKernelSphere_staged_is_dense (fun _ => None) (-1) (1 / 2)
           (mkT 2 [[1; 0]]) (mkT 2 [[0; 1]; [1; 1]])).
  - repeat constructor.
  - repeat constructor.
  - reflexivity.
  - cbn; lia.
Defined.

(** X10: against a reference set of exactly one row [y] the dense
    spherical Laplace kernel returns a square block over the query rows, not
    a column: the trailing [squeeze(-1)] drops the reference dimension of the
    exponential before the product with the norms.  Its element (i, j) takes
    the norm of query row i and the exponential of query row j; the staged
    path returns the column whose element i is the kernel value of query
    row i and [y], which is the diagonal of the dense block. *)
Theorem single_reference_row_gives_square_block (fos : string -> option R)
    (alpha gamma : R) (X1 : tensor) (y : list R) :
  wf X1 -> length y = ncols X1 ->
  exists Kd Ks,
    k_spherical_laplace (Some X1) (Some (mkT (ncols X1) [y])) gamma alpha = Ok Kd
    /\ staged fos (LaplaceKernelSphere alpha gamma) X1 (mkT (ncols X1) [y]) = Ok Ks
    /\ brows_n Kd = nrows X1 /\ bcols Kd = nrows X1
    /\ brows_n Ks = nrows X1 /\ bcols Ks = 1%nat
    /\ forall i j, (i < nrows X1)%nat -> (j < nrows X1)%nat ->
         entry Kd i j
         = nmul (Val (norm (nth i (rows X1) []) * norm y))
             (laplace_exp gamma alpha (dot (nth j (rows X1) []) y)
                (norm (nth j (rows X1) [])) (norm y))
         /\ entry Ks i 0 = entry Kd i i.
Proof.
  intros W Ly.
  rewrite k_spherical_laplace_single_row, broadcast_dim_same. cbn [bind].
  rewrite LaplaceKernelSphere_staged;
    [ | assumption | repeat constructor; assumption | reflexivity].
  do 2 eexists. split; [reflexivity | ]. split; [reflexivity | ].
  split; [apply outer_length | ]. split; [reflexivity | ].
  split; [apply outer_length | ]. split; [reflexivity | ].
  intros i j Hi Hj. unfold entry. cbn [brows rows].
  rewrite (nth_outer_entry
             (fun u w => nmul (Val (norm u * norm y))
                           (laplace_exp gamma alpha
                              (dot (expand (ncols X1) w) (expand (ncols X1) y))
                              (norm w) (norm y)))) by assumption.
  rewrite (nth_outer_entry
             (fun u w => nmul (Val (norm u * norm y))
                           (laplace_exp gamma alpha
                              (dot (expand (ncols X1) w) (expand (ncols X1) y))
                              (norm w) (norm y)))) by assumption.
  rewrite (nth_outer_entry (laplace_sphere_entry alpha gamma) (rows X1) [y] i 0)
    by (assumption || (cbn; lia)).
  assert (L : forall k, (k < nrows X1)%nat ->
            expand (ncols X1) (nth k (rows X1) []) = nth k (rows X1) []).
  { intros k Hk. apply expand_same, wf_in; [assumption | ]. apply nth_In. exact Hk. }
  rewrite (L i Hi), (L j Hj), (expand_same _ y Ly). split; reflexivity.
Qed.

Lemma single_reference_row_gives_square_block_witness :
  exists Kd Ks,
    k_spherical_laplace (Some (mkT 2 [[1; 0]; [0; 2]])) (Some (mkT 2 [[1; 1]]))
      (1 / 2) (-1) = Ok Kd
    /\ staged (fun _ => None) (LaplaceKernelSphere (-1) (1 / 2))
         (mkT 2 [[1; 0]; [0; 2]]) (mkT 2 [[1; 1]]) = Ok Ks
    /\ bcols Kd = 2%nat /\ bcols Ks = 1%nat.
Proof.
  destruct (single_reference_row_gives_square_block (fun _ => None) (-1) (1 / 2)
              (mkT 2 [[1; 0]; [0; 2]]) [1; 1])
    as (Kd & Ks & H1 & H2 & _ & H3 & _ & H4 & _).
  - repeat constructor.
  - reflexivity.
  - exists Kd, Ks. repeat split; assumption.
Defined.

(* ================================================================== *)
(** * The device kernel of the neural tangent kernel *)
(* ================================================================== *)

(** X11: for point sets none of whose rows is the zero vector, the staged
    path of the neural tangent kernel returns the block [k_ntk] computes
    with the kernel's variance: the angle the device kernel takes from
    [2 atan2(|b x - a y|, |b x + a y|)] is the inverse cosine of the clamped
    cosine. *)
Theorem NeuralTangentKernel_staged_is_k_ntk (fos : string -> option R)
    (variance : pyval) (var : R) (X1 X2 : tensor) :
  py_float fos variance = Ok var ->
  wf X1 -> wf X2 -> ncols X1 = ncols X2 -> launchable (nrows X1) (nrows X2) ->
  Forall nonzero (rows X1) -> Forall nonzero (rows X2) ->
  staged fos (NeuralTangentKernel variance) X1 X2 = k_ntk (Some X1) (Some X2) var.
Proof.
  intros Hv W1 W2 Hc L N1 N2.
  apply NeuralTangentKernel_staged_k_ntk; assumption.
Qed.

Lemma NeuralTangentKernel_staged_is_k_ntk_witness :
  staged (fun _ => None) (NeuralTangentKernel (PyFloat 3))
    (mkT 2 [[1; 0]; [1; 1]]) (mkT 2 [[0; 1]])
  = k_ntk (Some (mkT 2 [[1; 0]; [1; 1]])) (Some (mkT 2 [[0; 1]])) 3.
Proof.
  apply (NeuralTangentKernel_staged_is_k_ntk (fun _ => None) (PyFloat 3) 3
           (mkT 2 [[1; 0]; [1; 1]]) (mkT 2 [[0; 1]])).
  - reflexivity.
  - repeat constructor.
  - repeat constructor.
  - reflexivity.
  - unfold launchable, max_threads_per_block. cbn. lia.
  - repeat constructor; cbn; lra.
  - repeat constructor; cbn; lra.
Defined.

(** X12: [NeuralTangentKernel._apply] overwrites its output block: what it
    returns does not depend on the numbers the block held before, where
    [ArcCosineKernel._apply] adds to them. *)
Theorem NeuralTangentKernel_apply_overwrites (fos : string -> option R)
    (variance : pyval) (var : R) (X1 X2 : tensor) (out out' : block) :
  py_float fos variance = Ok var ->
  wf X1 -> wf X2 -> ncols X1 = ncols X2 ->
  brows_n out = nrows X1 -> bcols out = nrows X2 -> wfb out ->
  brows_n out' = nrows X1 -> bcols out' = nrows X2 -> wfb out' ->
  launchable (nrows X1) (nrows X2) ->
  NeuralTangentKernel_apply fos variance X1 (transpose X2) out
  = NeuralTangentKernel_apply fos variance X1 (transpose X2) out'.
Proof.
  intros Hv W1 W2 Hc R1 C1 Wo R2 C2 Wo' L.
  rewrite (NeuralTangentKernel_apply_block fos variance var X1 X2 out) by assumption.
  rewrite (NeuralTangentKernel_apply_block fos variance var X1 X2 out') by assumption.
  reflexivity.
Qed.

Lemma NeuralTangentKernel_apply_overwrites_witness :
  NeuralTangentKernel_apply (fun _ => None) (PyFloat 1) (mkT 2 [[1; 0]])
    (transpose (mkT 2 [[0; 1]])) (mkB 1 [[Val 0]])
  = NeuralTangentKernel_apply (fun _ => None) (PyFloat 1) (mkT 2 [[1; 0]])
      (transpose (mkT 2 [[0; 1]])) (mkB 1 [[Val 7]]).
Proof.
  apply (NeuralTangentKernel_apply_overwrites (fun _ => None) (PyFloat 1) 1
           (mkT 2 [[1; 0]]) (mkT 2 [[0; 1]]) (mkB 1 [[Val 0]]) (mkB 1 [[Val 7]]));
    try reflexivity; try (repeat constructor).
Defined.

(** X14: a variance that [float] cannot convert is stored by the
    constructor and found out only on the staged path, whose [_apply] raises
    the error of [float(self.variance)] before any element is computed; the
    dense path never reads the variance and returns the arc-cosine block. *)
Theorem NeuralTangentKernel_invalid_variance (fos : string -> option R)
    (variance : pyval) (e : exn) (X1 X2 : tensor) :
  py_float fos variance = Raise e ->
  NeuralTangentKernel_init variance = Ok (NeuralTangentKernel variance)
  /\ staged fos (NeuralTangentKernel variance) X1 X2 = Raise e
  /\ direct_kernel (NeuralTangentKernel variance) (Some X1) (Some X2)
     = k_arccos (Some X1) (Some X2).
Proof.
  intros Hv. split; [reflexivity | ]. split; [ | reflexivity].
  unfold staged. cbn [apply]. unfold NeuralTangentKernel_apply.
  rewrite Hv. reflexivity.
Qed.

Lemma NeuralTangentKernel_invalid_variance_witness :
  staged (fun _ => None) (NeuralTangentKernel PyNone) (mkT 2 [[1; 0]]) (mkT 2 [[0; 1]])
  = Raise (TypeError "float() argument must be a string or a real number, not 'NoneType'").
Proof.
  refine (proj1 (proj2 (NeuralTangentKernel_invalid_variance (fun _ => None) PyNone _
                          (mkT 2 [[1; 0]]) (mkT 2 [[0; 1]]) _))).
  reflexivity.
Defined.

(* ================================================================== *)
(** * The symbolic path against the kernel block *)
(* ================================================================== *)

Lemma map2_Rplus_repeat_0_r (a : list R) :
  map2 Rplus a (repeat 0 (length a)) = a.
Proof.
  induction a as [ | x a IH]; cbn [length repeat map2]; [reflexivity | ].
  rewrite IH. f_equal. ring.
Qed.

Lemma map2_Rplus_repeat_0_l (a : list R) :
  map2 Rplus (repeat 0 (length a)) a = a.
Proof.
  induction a as [ | x a IH]; cbn [length repeat map2]; [reflexivity | ].
  rewrite IH. f_equal. ring.
Qed.

Lemma map2_Rplus_assoc (a b c : list R) :
  map2 Rplus (map2 Rplus a b) c = map2 Rplus a (map2 Rplus b c).
Proof.
  revert b c; induction a as [ | x a IH]; intros [ | y b] [ | z c];
    cbn [map2]; try reflexivity.
  rewrite IH. f_equal. ring.
Qed.

(** The accumulation of [keops_mmv] over the reference rows, on reals, is
    the row-times-matrix product. *)
Lemma fold_accumulate_vm (m : nat) (g : list R -> R) (Y V : list (list R))
    (a0 : list R) :
  length a0 = m -> Forall (fun w => length w = m) V ->
  fold_left (fun a yv => map2 Rplus a (map (Rmult (g (fst yv))) (snd yv)))
    (combine Y V) a0
  = map2 Rplus a0 (vm m (map g Y) V).
Proof.
  revert V a0. induction Y as [ | y Y IH]; intros V a0 La HV.
  - cbn [combine fold_left map vm]. rewrite <- La. symmetry.
    apply map2_Rplus_repeat_0_r.
  - destruct V as [ | w V].
    + cbn [combine fold_left map vm]. rewrite <- La. symmetry.
      apply map2_Rplus_repeat_0_r.
    + inversion HV as [ | ? ? Hw HV']; subst.
      cbn [combine fold_left map vm fst snd].
      rewrite IH; [ | | assumption].
      * apply map2_Rplus_assoc.
      * rewrite map2_length; [reflexivity | ]. rewrite length_map. congruence.
Qed.

Lemma fold_accumulate_vals (m : nat) (g : list R -> R)
    (l : list (list R * list R)) (a0 : list R) :
  length a0 = m -> Forall (fun yv => length (snd yv) = m) l ->
  fold_left
    (fun acc yv =>
       kadd acc (Ok (map (nmul (Val (g (fst yv)))) (map Val (snd yv)))))
    l (Ok (map Val a0))
  = Ok (map Val
          (fold_left (fun a yv => map2 Rplus a (map (Rmult (g (fst yv))) (snd yv)))
             l a0)).
Proof.
  revert a0. induction l as [ | [y w] l IH]; intros a0 La Hl; [reflexivity | ].
  inversion Hl as [ | ? ? Hw Hl']; subst. cbn [fst snd] in Hw.
  cbn [fold_left fst snd]. rewrite scale_vals. unfold kadd.
  rewrite kbin_vectors by (rewrite !length_map; congruence).
  change nadd with (lift2 Rplus). rewrite map2_vals.
  apply IH; [ | assumption].
  rewrite map2_length; [reflexivity | ]. rewrite length_map. congruence.
Qed.

Lemma sequence_map_Ok {A B : Type} (f : A -> B) (l : list A) :
  sequence (map (fun x => Ok (f x)) l) = Ok (map f l).
Proof.
  induction l as [ | a l IH]; cbn [map sequence bind]; [reflexivity | ].
  rewrite IH. reflexivity.
Qed.

Lemma transpose_rows_rows_length (d : nat) (Y : list (list R)) :
  Forall (fun r => length r = length Y) (transpose_rows d Y).
Proof.
  induction Y as [ | y Y IH]; cbn [transpose_rows length].
  - induction d; cbn [repeat]; constructor; [reflexivity | assumption].
  - apply (Forall_map2_r (fun r => length r = length Y)); [ | exact IH].
    intros a b Hb. cbn [length]. now rewrite Hb.
Qed.

(** A KeOps reduction whose formula at a pair (x, y) is a number [G x y]
    times the row of [v] is the product of the block of [G] with [v]. *)
Lemma keops_mmv_block (G : list R -> list R -> R) (X1 X2 v : tensor)
    (formula : list R -> list R -> list R -> kval) :
  (forall x y w, In x (rows X1) -> In y (rows X2) ->
     formula x y w = Ok (map (nmul (Val (G x y))) (map Val w))) ->
  wf v -> nrows v = nrows X2 ->
  keops_mmv X1 X2 v formula
  = block_matmul (mkB (nrows X2) (outer (fun u w => Val (G u w)) (rows X1) (rows X2))) v.
Proof.
  intros HF Wv Hn.
  rewrite (keops_mmv_ext X1 X2 v formula
             (fun x y w => Ok (map (nmul (Val (G x y))) (map Val w)))) by exact HF.
  unfold keops_mmv, block_matmul. cbn [bcols brows].
  rewrite Hn, Nat.eqb_refl.
  set (m := ncols v). set (V := rows v) in *. set (Y := rows X2) in *.
  assert (LV : length V = length Y) by exact Hn.
  assert (HV : Forall (fun w => length w = m) V) by exact Wv.
  assert (E : forall x,
            fold_left
              (fun acc yv =>
                 kadd acc (Ok (map (nmul (Val (G x (fst yv)))) (map Val (snd yv)))))
              (combine Y V) (Ok (repeat (Val 0) m))
            = Ok (map Val (vm m (map (G x) Y) V))).
  { intros x.
    replace (repeat (Val 0) m) with (map Val (repeat 0 m)) by apply map_repeat.
    rewrite (fold_accumulate_vals m (G x)).
    - rewrite (fold_accumulate_vm m (G x)) by (assumption || apply repeat_length).
      do 2 f_equal.
      rewrite <- (vm_length m (map (G x) Y) V HV) at 1.
      apply map2_Rplus_repeat_0_l.
    - apply repeat_length.
    - apply Forall_forall. intros [y w] Hyw. cbn [snd].
      apply in_combine_r in Hyw. revert w Hyw. apply Forall_forall. exact HV. }
  rewrite (map_ext _ _ E).
  rewrite (sequence_map_Ok (fun x => map Val (vm m (map (G x) Y) V))).
  cbn [bind]. do 2 f_equal.
  unfold outer. rewrite map_map. apply map_ext; intros x.
  rewrite <- (map_map (G x) Val Y).
  rewrite (map_ext _ _ (fun col => bmv_row_vals (map (G x) Y) col)).
  rewrite <- (map_map (dot (map (G x) Y)) Val). f_equal.
  set (a := map (G x) Y). set (T := transpose_rows m V).
  assert (La : length a = length V) by (unfold a; rewrite length_map; congruence).
  assert (LT : length T = m) by (apply transpose_rows_length; exact HV).
  assert (HT : Forall (fun r => length r = length a) T).
  { rewrite La. apply transpose_rows_rows_length. }
  rewrite <- (vm_transpose a T HT), LT, La.
  unfold T. rewrite (transpose_rows_involutive m V HV). reflexivity.
Qed.

(** X16: with a float variance the symbolic path of the neural tangent
    kernel returns the product of the block of the staged path with [v], on
    every pair of point sets the device can launch, zero rows included: the
    formula and the device kernel compute the angle the same way. *)
Theorem NeuralTangentKernel_symbolic_is_staged (fos : string -> option R)
    (var : R) (X1 X2 v : tensor) :
  wf X1 -> wf X2 -> ncols X1 = ncols X2 -> launchable (nrows X1) (nrows X2) ->
  wf v -> nrows v = nrows X2 ->
  symbolic (NeuralTangentKernel (PyFloat var)) X1 X2 v
  = (K <- staged fos (NeuralTangentKernel (PyFloat var)) X1 X2 ;; block_matmul K v).
Proof.
  intros W1 W2 Hc L Wv Hn.
  rewrite (NeuralTangentKernel_staged fos (PyFloat var) var) by (assumption || reflexivity).
  cbn [symbolic bind]. unfold NeuralTangentKernel_keops_mmv_impl.
  cbn [torch_tensor_1 bind].
  apply (keops_mmv_block (stable_value var)); try assumption.
  intros x y w Hx Hy. apply NeuralTangentKernel_formula_value.
  rewrite (wf_in X1 x W1 Hx), (wf_in X2 y W2 Hy). exact Hc.
Qed.

Lemma NeuralTangentKernel_symbolic_is_staged_witness :
  symbolic (NeuralTangentKernel (PyFloat 1))
    (mkT 2 [[1; 0]; [0; 0]]) (mkT 2 [[0; 1]; [2; 0]]) (mkT 1 [[1]; [3]])
  = (K <- staged (fun _ => None) (NeuralTangentKernel (PyFloat 1))
            (mkT 2 [[1; 0]; [0; 0]]) (mkT 2 [[0; 1]; [2; 0]]) ;;
     block_matmul K (mkT 1 [[1]; [3]])).
Proof.
  apply (NeuralTangentKernel_symbolic_is_staged (fun _ => None) 1
           (mkT 2 [[1; 0]; [0; 0]]) (mkT 2 [[0; 1]; [2; 0]]) (mkT 1 [[1]; [3]])).
  - repeat constructor.
  - repeat constructor.
  - reflexivity.
  - unfold launchable, max_threads_per_block. cbn. lia.
  - repeat constructor.
  - reflexivity.
Defined.

(* ================================================================== *)
(** * [DirectKernelSolver] *)
(* ================================================================== *)

Lemma direct_kernel_self_returns (k : kernel) (X : tensor) :
  exists K, direct_kernel k (Some X) (Some X) = Ok K
    /\ brows_n K = nrows X /\ bcols K = nrows X /\ wfb K.
Proof.
  destruct (direct_kernel_returns k X X (ncols X) (broadcast_dim_same _))
    as (K & HK & Hr & Hw & _).
  exists K. destruct (direct_kernel_square k X K HK) as [_ Hc]. auto.
Qed.

Lemma is_inverse_sym (n : nat) (M M' : list (list R)) :
  is_inverse n M M' -> is_inverse n M' M.
Proof. unfold is_inverse. tauto. Qed.

Lemma torch_inverse_regular (singular : block -> result block) (K : block) (n : nat) (M : list (list R)) :
  brows_n K = n -> bcols K = n -> finite_rows (brows K) = inr M ->
  (exists M', is_inverse n M M') ->
  exists M', is_inverse n M M' /\ torch_inverse singular K = Ok (mkB n (map (map Val) M')).
Proof.
  intros Hr Hc HF Hex. unfold torch_inverse. rewrite Hr, Hc, Nat.eqb_refl, HF.
  destruct (excluded_middle_informative
              (exists M' : list (list R), is_inverse n M M')) as [H | H];
    [ | contradiction].
  destruct (constructive_indefinite_description _ H) as [M' HM']. cbn [proj1_sig].
  exists M'. split; [assumption | reflexivity].
Qed.

Lemma regularized_shape (Kxx : block) (pen : R) (n : nat) :
  brows_n Kxx = n -> bcols Kxx = n ->
  brows_n (regularized Kxx pen) = n /\ bcols (regularized Kxx pen) = n.
Proof.
  intros Hr Hc. split; [rewrite regularized_rows_n; exact Hr | exact Hc].
Qed.

(** [fit] once the kernel matrix is known. *)
Lemma fit_unfold (singular : block -> result block) (self : DirectKernelSolver) (X : tensor) (y : list R) (Kxx : block) :
  direct_kernel (kernel_ self) (Some X) (Some X) = Ok Kxx ->
  fit singular self X y
  = match (inv <- torch_inverse singular (regularized Kxx (penalty self)) ;;
           bmv inv (map Val y)) with
    | Raise e => (mkSolver (penalty self) (alpha_ self) (Some X) (kernel_ self), Raise e)
    | Ok a => (mkSolver (penalty self) (Some a) (Some X) (kernel_ self), Ok tt)
    end.
Proof. intros H. unfold fit. rewrite H. reflexivity. Qed.

(** The solver after a fit on an invertible system. *)
Lemma fit_fitted (singular : block -> result block) (self : DirectKernelSolver) (X : tensor) (y : list R)
    (Kxx : block) (M : list (list R)) :
  direct_kernel (kernel_ self) (Some X) (Some X) = Ok Kxx ->
  finite_rows (brows (regularized Kxx (penalty self))) = inr M ->
  (exists M', is_inverse (nrows X) M M') ->
  length y = nrows X ->
  exists M', is_inverse (nrows X) M M'
    /\ fit singular self X y
       = (mkSolver (penalty self) (Some (map Val (mv M' y))) (Some X) (kernel_ self),
          Ok tt).
Proof.
  intros HK HF Hex Hy.
  destruct (direct_kernel_square _ X Kxx HK) as [Sr Sc].
  destruct (regularized_shape Kxx (penalty self) _ Sr Sc) as [Rr Rc].
  destruct (torch_inverse_regular singular _ _ M Rr Rc HF Hex) as (M' & HM' & HI).
  exists M'. split; [assumption | ].
  rewrite (fit_unfold singular self X y Kxx HK), HI. cbn [bind].
  rewrite (bmv_vals _ _ _ Hy). reflexivity.
Qed.

(** [fit] with targets whose number differs from the number of points. *)
Lemma fit_targets_length (singular : block -> result block) (self : DirectKernelSolver) (X : tensor) (y : list R)
    (Kxx : block) (M : list (list R)) :
  direct_kernel (kernel_ self) (Some X) (Some X) = Ok Kxx ->
  finite_rows (brows (regularized Kxx (penalty self))) = inr M ->
  (exists M', is_inverse (nrows X) M M') ->
  length y <> nrows X ->
  fit singular self X y
  = (mkSolver (penalty self) (alpha_ self) (Some X) (kernel_ self),
     Raise (RuntimeError "size mismatch in matrix-vector product")).
Proof.
  intros HK HF Hex Hy.
  destruct (direct_kernel_square _ X Kxx HK) as [Sr Sc].
  destruct (regularized_shape Kxx (penalty self) _ Sr Sc) as [Rr Rc].
  destruct (torch_inverse_regular singular _ _ M Rr Rc HF Hex) as (M' & HM' & HI).
  rewrite (fit_unfold singular self X y Kxx HK), HI. cbn [bind].
  unfold bmv. cbn [bcols]. rewrite length_map.
  destruct (Nat.eqb_spec (nrows X) (length y)) as [E | _]; [ | reflexivity].
  exfalso. apply Hy. symmetry. exact E.
Qed.

Lemma nsum_val_all (l : list num) (s : R) : nsum l = Val s -> Forall is_val l.
Proof.
  revert s. induction l as [ | x l IH]; intros s H; [constructor | ].
  unfold nsum in H. cbn [fold_right] in H. fold (nsum l) in H.
  destruct x as [x | f]; [ | discriminate].
  destruct (nsum l) as [t | f] eqn:E; [ | discriminate].
  constructor; [exists x; reflexivity | ]. apply (IH t). reflexivity.
Qed.

Lemma map2_nmul_vals_all (r : list R) (a : list num) :
  length r = length a -> Forall is_val (map2 nmul (map Val r) a) ->
  exists b, a = map Val b.
Proof.
  revert a. induction r as [ | x r IH]; intros [ | e a] L H; try discriminate L.
  - exists []. reflexivity.
  - cbn [map map2] in H. inversion H as [ | ? ? [t Ht] H']; subst.
    destruct e as [v | f]; [ | discriminate Ht].
    destruct (IH a) as [b ->]; [cbn [length] in L; lia | assumption | ].
    exists (v :: b). reflexivity.
Qed.

Lemma map_Val_inj (l m : list R) : map Val l = map Val m -> l = m.
Proof.
  revert m. induction l as [ | x l IH]; intros [ | y m] H; try discriminate H.
  - reflexivity.
  - cbn [map] in H. injection H as -> H. f_equal. apply IH. exact H.
Qed.

(** A vector that a matrix of finite elements takes to finite numbers is
    finite itself. *)
Lemma bmv_finite_solution (n : nat) (M : list (list R)) (a : list num) (y : list R) :
  length M = n -> Forall (fun r => length r = n) M ->
  bmv (mkB n (map (map Val) M)) a = Ok (map Val y) ->
  exists b, a = map Val b /\ length b = n /\ mv M b = y.
Proof.
  intros LM WM H. unfold bmv in H. cbn [bcols brows] in H.
  destruct (Nat.eqb_spec n (length a)) as [La | ]; [ | discriminate].
  injection H as H.
  assert (F : exists b, a = map Val b).
  { destruct M as [ | r M].
    - cbn [length] in LM. subst n. destruct a; [ | discriminate La].
      exists []. reflexivity.
    - inversion WM as [ | ? ? Lr _]; subst.
      destruct y as [ | y0 y]; [discriminate H | ].
      cbn [map] in H. injection H as H0 _. unfold bmv_row in H0.
      apply nsum_val_all in H0. apply (map2_nmul_vals_all r); [ | assumption].
      rewrite Lr. exact La. }
  destruct F as [b ->]. exists b. rewrite length_map in La.
  split; [reflexivity | ]. split; [symmetry; exact La | ].
  apply map_Val_inj. rewrite <- H. unfold mv. rewrite !map_map.
  apply map_ext; intros r. symmetry. apply bmv_row_vals.
Qed.

(** X18: the coefficients [fit] stores are the only solution of the
    regularized system: every vector [a] with
    [(direct_kernel(X, X) + penalty I) a = y] is [alpha_]. *)
Theorem fit_solution_unique (singular : block -> result block) (self : DirectKernelSolver) (X : tensor) (y : list R)
    (Kxx : block) (M : list (list R)) (a : list num) :
  direct_kernel (kernel_ self) (Some X) (Some X) = Ok Kxx ->
  finite_rows (brows (regularized Kxx (penalty self))) = inr M ->
  (exists M', is_inverse (nrows X) M M') ->
  length y = nrows X ->
  bmv (regularized Kxx (penalty self)) a = Ok (map Val y) ->
  alpha_ (fst (fit singular self X y)) = Some a.
Proof.
  intros HK HF Hex Hy Ha.
  destruct (fit_fitted singular self X y Kxx M HK HF Hex Hy) as (M' & HM' & ->).
  cbn [fst alpha_]. f_equal.
  destruct (direct_kernel_square _ X Kxx HK) as [Sr Sc].
  pose proof (finite_rows_inr _ _ HF) as EM.
  replace (regularized Kxx (penalty self)) with (mkB (nrows X) (map (map Val) M)) in Ha
    by (rewrite <- EM, <- Sc; reflexivity).
  destruct HM' as (LM & WM & LM' & WM' & E1 & E2).
  destruct (bmv_finite_solution _ M a y LM WM Ha) as (b & -> & Lb & Hb).
  f_equal. rewrite <- Hb.
  apply (mv_inverse (nrows X) M' M); [ | exact Lb].
  unfold is_inverse. tauto.
Qed.

Lemma fit_solution_unique_witness :
  alpha_ (fst (fit (fun M => Ok M) (DirectKernelSolver_init ArcCosineKernel 1) (mkT 2 [[1; 0]]) [2]))
  = Some [Val 1].
Proof.
  apply (fit_solution_unique (fun M => Ok M) (DirectKernelSolver_init ArcCosineKernel 1)
           (mkT 2 [[1; 0]]) [2] (mkB 1 [[Val 1]]) [[1 + 1 * 1]] [Val 1]).
  - exact k_arccos_aligned.
  - reflexivity.
  - exists [[/ 2]]. unfold is_inverse, matmul, eye.
    cbn [nrows ncols rows length map vm map2 List.repeat seq Nat.eqb].
    repeat split; repeat constructor; repeat f_equal; lra.
  - reflexivity.
  - unfold bmv, regularized, eye, bmv_row, nsum.
    cbn [bcols brows brows_n length Nat.eqb map map2 seq fold_right nmul nadd lift2
         penalty DirectKernelSolver_init].
    do 3 f_equal. lra.
Defined.

Lemma eye_rows_length (n m : nat) : Forall (fun r => length r = m) (eye n m).
Proof.
  unfold eye. apply Forall_forall. intros r Hr. apply in_map_iff in Hr.
  destruct Hr as [i [<- _]]. now rewrite length_map, length_seq.
Qed.

Lemma regularized_row_finite (pen : R) (kr : list num) (er m : list R) :
  length kr = length er ->
  finite_row (map2 (fun k e => nadd k (Val (pen * e))) kr er) = inr m ->
  exists r, kr = map Val r /\ m = map2 (fun k e => k + pen * e) r er.
Proof.
  revert er m. induction kr as [ | k kr IH]; intros [ | e er] m L H;
    try discriminate L.
  - cbn in H. injection H as <-. exists []. split; reflexivity.
  - cbn [map2 finite_row] in H. destruct k as [x | f]; cbn [nadd lift2] in H;
      [ | discriminate].
    destruct (finite_row (map2 (fun k e => nadd k (Val (pen * e))) kr er))
      as [f | m'] eqn:E; [discriminate | ].
    injection H as <-.
    destruct (IH er m') as (r & -> & ->); [cbn [length] in L; lia | exact E | ].
    exists (x :: r). split; reflexivity.
Qed.

Lemma regularized_rows_finite (pen : R) (n : nat) (Krows : list (list num))
    (E M : list (list R)) :
  length Krows = length E ->
  Forall (fun r => length r = n) Krows -> Forall (fun r => length r = n) E ->
  finite_rows (map2 (map2 (fun k e => nadd k (Val (pen * e)))) Krows E) = inr M ->
  exists Kr, Krows = map (map Val) Kr
    /\ Forall (fun r => length r = n) Kr
    /\ M = map2 (map2 (fun k e => k + pen * e)) Kr E.
Proof.
  revert E M. induction Krows as [ | kr Krows IH]; intros [ | er E] M L WK WE H;
    try discriminate L.
  - cbn in H. injection H as <-. exists []. repeat split. constructor.
  - apply Forall_cons_iff in WK as [Lk WK']. apply Forall_cons_iff in WE as [Le WE'].
    cbn [map2 finite_rows] in H.
    destruct (finite_row (map2 (fun k e => nadd k (Val (pen * e))) kr er))
      as [f | m] eqn:E1; [discriminate | ].
    destruct (finite_rows (map2 (map2 (fun k e => nadd k (Val (pen * e)))) Krows E))
      as [f | M'] eqn:E2; [discriminate | ].
    injection H as <-.
    destruct (regularized_row_finite pen kr er m) as (r & -> & ->);
      [congruence | exact E1 | ].
    destruct (IH E M') as (Kr & -> & WKr & ->);
      [cbn [length] in L; lia | assumption | assumption | exact E2 | ].
    exists (r :: Kr). repeat split. constructor; [ | assumption].
    rewrite length_map in Lk. exact Lk.
Qed.

Lemma dot_plus_scale (pen : R) (kr er a : list R) :
  length kr = length er ->
  dot (map2 (fun k e => k + pen * e) kr er) a = dot kr a + pen * dot er a.
Proof.
  revert er a. induction kr as [ | k kr IH]; intros [ | e er] a L;
    try discriminate L.
  - cbn [map2]. unfold dot. cbn. ring.
  - destruct a as [ | x a].
    + cbn [map2]. rewrite !dot_nil_r. ring.
    + cbn [map2]. rewrite !dot_cons, IH by (cbn [length] in L; lia). ring.
Qed.

Lemma mv_plus_scale (pen : R) (n : nat) (Kr E : list (list R)) (a : list R) :
  Forall (fun r => length r = n) Kr -> Forall (fun r => length r = n) E ->
  mv (map2 (map2 (fun k e => k + pen * e)) Kr E) a
  = map2 (fun s t => s + pen * t) (mv Kr a) (mv E a).
Proof.
  intros WK. revert E. induction WK as [ | kr Kr Lk WK IH]; intros E WE.
  - reflexivity.
  - destruct WE as [ | er E Le WE]; [reflexivity | ].
    cbn [map2 mv map]. rewrite dot_plus_scale by congruence.
    f_equal. apply IH. exact WE.
Qed.

Lemma map2_plus_scale_inv (pen : R) (s a y : list R) :
  length s = length a ->
  map2 (fun u t => u + pen * t) s a = y ->
  s = map2 (fun yi ai => yi - pen * ai) y a.
Proof.
  revert a y. induction s as [ | u s IH]; intros [ | t a] y L H; try discriminate L.
  - subst y. reflexivity.
  - cbn [map2] in H. subst y. cbn [map2]. f_equal; [ring | ].
    apply IH; [cbn [length] in L; lia | reflexivity].
Qed.

Lemma map2_minus_zero (y a : list R) :
  length a = length y -> map2 (fun yi ai => yi - 0 * ai) y a = y.
Proof.
  revert a. induction y as [ | x y IH]; intros [ | t a] L; try discriminate L.
  - reflexivity.
  - cbn [map2]. f_equal; [ring | ]. apply IH. cbn [length] in L. lia.
Qed.

(** X19: after a fit on an invertible system, the prediction at the
    training points is the targets less [penalty] times the coefficients;
    with penalty 0, the default of the fitting script, the fitted model
    reproduces the training targets. *)
Theorem predict_training_points (singular : block -> result block) (self : DirectKernelSolver) (X : tensor)
    (y : list R) (Kxx : block) (M : list (list R)) :
  direct_kernel (kernel_ self) (Some X) (Some X) = Ok Kxx ->
  finite_rows (brows (regularized Kxx (penalty self))) = inr M ->
  (exists M', is_inverse (nrows X) M M') ->
  length y = nrows X ->
  exists a,
    alpha_ (fst (fit singular self X y)) = Some (map Val a)
    /\ predict (fst (fit singular self X y)) X
       = Ok (map Val (map2 (fun yi ai => yi - penalty self * ai) y a))
    /\ (penalty self = 0 -> predict (fst (fit singular self X y)) X = Ok (map Val y)).
Proof.
  intros HK HF Hex Hy.
  destruct (fit_fitted singular self X y Kxx M HK HF Hex Hy) as (M' & HM' & ->).
  set (a := mv M' y). exists a. cbn [fst alpha_].
  split; [reflexivity | ].
  destruct (direct_kernel_self_returns (kernel_ self) X) as (K & HK' & Sr & Sc & Wk).
  rewrite HK in HK'. injection HK' as <-.
  assert (La : length a = nrows X).
  { unfold a, mv. rewrite length_map. apply HM'. }
  destruct (regularized_rows_finite (penalty self) (nrows X) (brows Kxx)
              (eye (brows_n Kxx) (bcols Kxx)) M) as (Kr & EK & WKr & EM).
  { rewrite eye_length. reflexivity. }
  { unfold wfb in Wk. rewrite Sc in Wk. exact Wk. }
  { rewrite Sc. apply eye_rows_length. }
  { exact HF. }
  assert (P : predict (mkSolver (penalty self) (Some (map Val a)) (Some X) (kernel_ self)) X
              = Ok (map Val (mv Kr a))).
  { unfold predict. cbn [kernel_ x_ alpha_]. rewrite HK. cbn [bind].
    replace Kxx with (mkB (nrows X) (map (map Val) Kr))
      by (destruct Kxx as [c rs]; cbn [bcols brows] in *; congruence).
    apply bmv_vals. exact La. }
  assert (S : mv Kr a = map2 (fun yi ai => yi - penalty self * ai) y a).
  { apply map2_plus_scale_inv.
    - unfold mv. rewrite length_map.
      assert (LK : length (map (map Val) Kr) = nrows X) by (rewrite <- EK; exact Sr).
      rewrite length_map in LK. congruence.
    - rewrite <- (mv_inverse _ _ _ y HM' Hy). fold a. rewrite EM, Sr, Sc.
      rewrite (mv_plus_scale _ (nrows X)); [ | assumption | apply eye_rows_length].
      replace (eye (nrows X) (nrows X)) with (eye (length a) (length a))
        by (rewrite La; reflexivity).
      rewrite mv_eye. reflexivity. }
  rewrite P, S. split; [reflexivity | ].
  intros ->. rewrite map2_minus_zero by congruence. reflexivity.
Qed.

Lemma predict_training_points_witness :
  exists a,
    alpha_ (fst (fit (fun M => Ok M) (DirectKernelSolver_init ArcCosineKernel 1) (mkT 2 [[1; 0]]) [2]))
    = Some (map Val a)
    /\ predict (fst (fit (fun M => Ok M) (DirectKernelSolver_init ArcCosineKernel 1)
                       (mkT 2 [[1; 0]]) [2])) (mkT 2 [[1; 0]])
       = Ok (map Val (map2 (fun yi ai => yi - 1 * ai) [2] a)).
Proof.
  destruct (predict_training_points (fun M => Ok M) (DirectKernelSolver_init ArcCosineKernel 1)
              (mkT 2 [[1; 0]]) [2] (mkB 1 [[Val 1]]) [[1 + 1 * 1]])
    as (a & H1 & H2 & _).
  - exact k_arccos_aligned.
  - reflexivity.
  - exists [[/ 2]]. unfold is_inverse, matmul, eye.
    cbn [nrows ncols rows length map vm map2 List.repeat seq Nat.eqb].
    repeat split; repeat constructor; repeat f_equal; lra.
  - reflexivity.
  - exists a. split; assumption.
Defined.

(** X20: [fit] assigns [x_] before it solves.  Whenever [fit] raises, the
    solver is left with the new points in [x_] and the coefficients it had
    before in [alpha_]; on a solver that had none, a later [predict] then
    raises a [TypeError] for the product with [None], not the
    [AttributeError] of a solver that was never fitted. *)
Theorem fit_failure_state (singular : block -> result block) (self : DirectKernelSolver) (X : tensor) (y : list R)
    (e : exn) :
  snd (fit singular self X y) = Raise e ->
  fst (fit singular self X y) = mkSolver (penalty self) (alpha_ self) (Some X) (kernel_ self)
  /\ (alpha_ self = None ->
      forall Xq, broadcastable (ncols Xq) (ncols X) = true ->
        predict (fst (fit singular self X y)) Xq
        = Raise (TypeError "unsupported operand type(s) for @: 'Tensor' and 'NoneType'")).
Proof.
  intros H.
  destruct (direct_kernel_self_returns (kernel_ self) X) as (Kxx & HK & _).
  rewrite (fit_unfold singular self X y Kxx HK) in *.
  destruct (inv <- torch_inverse singular (regularized Kxx (penalty self)) ;;
            bmv inv (map Val y)) as [a | e']; [discriminate H | ].
  cbn [fst]. split; [reflexivity | ].
  intros Ha Xq B. unfold predict. cbn [kernel_ x_ alpha_]. rewrite Ha.
  pose proof (broadcast_dim_broadcastable (ncols Xq) (ncols X)) as D.
  rewrite B in D. destruct D as [d Hd].
  destruct (direct_kernel_returns (kernel_ self) Xq X d Hd) as (K & -> & _).
  reflexivity.
Qed.

Lemma fit_failure_state_witness :
  fst (fit (fun M => Ok M) (DirectKernelSolver_init ArcCosineKernel 1) (mkT 2 [[1; 0]]) [2; 3])
  = mkSolver 1 None (Some (mkT 2 [[1; 0]])) ArcCosineKernel.
Proof.
  refine (proj1 (fit_failure_state (fun M => Ok M) (DirectKernelSolver_init ArcCosineKernel 1)
                   (mkT 2 [[1; 0]]) [2; 3]
                   (RuntimeError "size mismatch in matrix-vector product") _)).
  rewrite (fit_targets_length (fun M => Ok M) (DirectKernelSolver_init ArcCosineKernel 1)
             (mkT 2 [[1; 0]]) [2; 3] (mkB 1 [[Val 1]]) [[1 + 1 * 1]]).
  - reflexivity.
  - exact k_arccos_aligned.
  - reflexivity.
  - exists [[/ 2]]. unfold is_inverse, matmul, eye.
    cbn [nrows ncols rows length map vm map2 List.repeat seq Nat.eqb].
    repeat split; repeat constructor; repeat f_equal; lra.
  - cbn. lia.
Defined.

(** X21: [fit] does not compare the number of targets with the number of
    points before it inverts the matrix: with targets of another length it
    raises the size error of the final product, and the coefficients stay
    as they were. *)
Theorem fit_wrong_number_of_targets (singular : block -> result block) (self : DirectKernelSolver) (X : tensor)
    (y : list R) (Kxx : block) (M : list (list R)) :
  direct_kernel (kernel_ self) (Some X) (Some X) = Ok Kxx ->
  finite_rows (brows (regularized Kxx (penalty self))) = inr M ->
  (exists M', is_inverse (nrows X) M M') ->
  length y <> nrows X ->
  snd (fit singular self X y) = Raise (RuntimeError "size mismatch in matrix-vector product")
  /\ alpha_ (fst (fit singular self X y)) = alpha_ self
  /\ x_ (fst (fit singular self X y)) = Some X.
Proof.
  intros HK HF Hex Hy.
  rewrite (fit_targets_length singular self X y Kxx M HK HF Hex Hy).
  repeat split.
Qed.

Lemma fit_wrong_number_of_targets_witness :
  snd (fit (fun M => Ok M) (DirectKernelSolver_init ArcCosineKernel 1) (mkT 2 [[1; 0]]) [])
  = Raise (RuntimeError "size mismatch in matrix-vector product").
Proof.
  refine (proj1 (fit_wrong_number_of_targets (fun M => Ok M)
                   (DirectKernelSolver_init ArcCosineKernel 1)
                   (mkT 2 [[1; 0]]) [] (mkB 1 [[Val 1]]) [[1 + 1 * 1]] _ _ _ _)).
  - exact k_arccos_aligned.
  - reflexivity.
  - exists [[/ 2]]. unfold is_inverse, matmul, eye.
    cbn [nrows ncols rows length map vm map2 List.repeat seq Nat.eqb].
    repeat split; repeat constructor; repeat f_equal; lra.
  - cbn. lia.
Defined.

(** The dense block as the matrix of the kernel values of the pairs of
    rows. *)
Lemma direct_kernel_outer (k : kernel) (X1 X2 : tensor) :
  column_per_reference_row k X2 ->
  direct_kernel k (Some X1) (Some X2)
  = (d <- broadcast_dim (ncols X1) (ncols X2) ;;
     Ok (mkB (nrows X2) (outer (kernel_entry k d) (rows X1) (rows X2)))).
Proof.
  intros C. destruct k as [ | variance | alpha gamma]; cbn [direct_kernel].
  - reflexivity.
  - reflexivity.
  - unfold LaplaceKernelSphere_direct_kernel.
    apply k_spherical_laplace_block. exact C.
Qed.

Lemma outer_app {A B C : Type} (f : A -> B -> C) (X X' : list A) (Y : list B) :
  outer f (X ++ X') Y = outer f X Y ++ outer f X' Y.
Proof. unfold outer. apply map_app. Qed.

(** [predict] on a query set made of two sets of rows. *)
Lemma predict_app (self : DirectKernelSolver) (d : nat) (R1 R2 : list (list R)) :
  (forall X, x_ self = Some X -> column_per_reference_row (kernel_ self) X) ->
  predict self (mkT d (R1 ++ R2))
  = (a <- predict self (mkT d R1) ;; b <- predict self (mkT d R2) ;; Ok (a ++ b)).
Proof.
  intros C. unfold predict.
  destruct (x_ self) as [X | ] eqn:Ex.
  - rewrite !(direct_kernel_outer (kernel_ self) _ X) by (apply C; reflexivity).
    cbn [ncols rows].
    destruct (broadcast_dim d (ncols X)) as [dd | e]; [ | reflexivity].
    cbn [bind]. destruct (alpha_ self) as [a | ]; [ | reflexivity].
    unfold bmv. cbn [bcols brows].
    destruct (Nat.eqb (nrows X) (length a)); [ | reflexivity].
    cbn [bind]. rewrite outer_app, map_app. reflexivity.
  - destruct (kernel_ self); reflexivity.
Qed.

(** X22: [predict] works row by row: on a query set made of two sets of
    rows it returns the predictions of the first followed by those of the
    second, and raises what the first of them raises.  It holds for every
    state of the solver whose kernel block has one column for each training
    point. *)
Theorem predict_rows_append (self : DirectKernelSolver) (d : nat)
    (R1 R2 : list (list R)) :
  (forall X, x_ self = Some X -> column_per_reference_row (kernel_ self) X) ->
  predict self (mkT d (R1 ++ R2))
  = (a <- predict self (mkT d R1) ;; b <- predict self (mkT d R2) ;; Ok (a ++ b)).
Proof. apply predict_app. Qed.

Lemma predict_rows_append_witness :
  predict (mkSolver 0 (Some [Val 1; Val 2]) (Some (mkT 2 [[1; 0]; [0; 1]]))
             (LaplaceKernelSphere (-1) (1 / 2)))
    (mkT 2 ([[1; 1]] ++ [[2; 0]; [0; 3]]))
  = (a <- predict (mkSolver 0 (Some [Val 1; Val 2]) (Some (mkT 2 [[1; 0]; [0; 1]]))
                     (LaplaceKernelSphere (-1) (1 / 2))) (mkT 2 [[1; 1]]) ;;
     b <- predict (mkSolver 0 (Some [Val 1; Val 2]) (Some (mkT 2 [[1; 0]; [0; 1]]))
                     (LaplaceKernelSphere (-1) (1 / 2))) (mkT 2 [[2; 0]; [0; 3]]) ;;
     Ok (a ++ b)).
Proof.
  apply (predict_rows_append
           (mkSolver 0 (Some [Val 1; Val 2]) (Some (mkT 2 [[1; 0]; [0; 1]]))
              (LaplaceKernelSphere (-1) (1 / 2)))
           2 [[1; 1]] [[2; 0]; [0; 3]]).
  intros X H. injection H as <-. cbn. lia.
Defined.

(** X23: a solver holding training points [X] and one coefficient for each
    of them, with a kernel whose dense block has one column for each training
    point (any kernel but the spherical Laplace kernel on a single training
    point), predicts on a query set exactly when the feature dimensions of
    the query set and of [X] broadcast; it then returns one number for each
    query row, and otherwise raises torch's size error. *)
Theorem predict_feature_dimensions (self : DirectKernelSolver) (X Xq : tensor)
    (a : list num) :
  x_ self = Some X -> alpha_ self = Some a -> length a = nrows X ->
  column_per_reference_row (kernel_ self) X ->
  if broadcastable (ncols Xq) (ncols X)
  then exists r, predict self Xq = Ok r /\ length r = nrows Xq
  else predict self Xq
       = Raise (RuntimeError "The size of tensor a must match the size of tensor b").
Proof.
  intros Hx Ha La C. unfold predict. rewrite Hx, Ha.
  rewrite (direct_kernel_outer (kernel_ self) Xq X C).
  pose proof (broadcast_dim_broadcastable (ncols Xq) (ncols X)) as B.
  destruct (broadcastable (ncols Xq) (ncols X)).
  - destruct B as [d ->]. cbn [bind]. unfold bmv. cbn [bcols brows].
    rewrite La, Nat.eqb_refl. eexists. split; [reflexivity | ].
    rewrite length_map. apply outer_length.
  - rewrite B. reflexivity.
Qed.

Lemma predict_feature_dimensions_witness :
  predict (mkSolver 0 (Some [Val 1; Val 2]) (Some (mkT 2 [[1; 0]; [0; 1]]))
             ArcCosineKernel) (mkT 3 [[1; 1; 1]])
  = Raise (RuntimeError "The size of tensor a must match the size of tensor b").
Proof.
  apply (predict_feature_dimensions
           (mkSolver 0 (Some [Val 1; Val 2]) (Some (mkT 2 [[1; 0]; [0; 1]]))
              ArcCosineKernel)
           (mkT 2 [[1; 0]; [0; 1]]) (mkT 3 [[1; 1; 1]]) [Val 1; Val 2]).
  - reflexivity.
  - reflexivity.
  - reflexivity.
  - exact I.
Defined.

(** X24: a spherical Laplace solver fitted on a single training point
    cannot predict on a query set of another number of rows: the dense
    kernel returns a square block over the query rows, and the product with
    the one coefficient raises a size error. *)
Theorem predict_single_training_point (alpha gamma pen : R) (d : nat) (y : list R)
    (a0 : num) (Xq : tensor) :
  broadcastable (ncols Xq) d = true -> nrows Xq <> 1%nat ->
  predict (mkSolver pen (Some [a0]) (Some (mkT d [y])) (LaplaceKernelSphere alpha gamma))
    Xq
  = Raise (RuntimeError "size mismatch in matrix-vector product").
Proof.
  intros B N. unfold predict. cbn [kernel_ x_ alpha_ direct_kernel].
  unfold LaplaceKernelSphere_direct_kernel.
  rewrite k_spherical_laplace_single_row.
  pose proof (broadcast_dim_broadcastable (ncols Xq) d) as D.
  rewrite B in D. destruct D as [dd ->]. cbn [bind].
  unfold bmv. cbn [bcols length].
  destruct (Nat.eqb_spec (nrows Xq) 1) as [E | _]; [contradiction | reflexivity].
Qed.

Lemma predict_single_training_point_witness :
  predict (mkSolver 0 (Some [Val 1]) (Some (mkT 2 [[1; 0]]))
             (LaplaceKernelSphere (-1) (1 / 2))) (mkT 2 [[1; 1]; [0; 2]])
  = Raise (RuntimeError "size mismatch in matrix-vector product").
Proof.
  apply (predict_single_training_point (-1) (1 / 2) 0 2 [1; 0] (Val 1)
           (mkT 2 [[1; 1]; [0; 2]])).
  - reflexivity.
  - cbn. lia.
Defined.

(* ================================================================== *)
(** * [eval_grid] *)
(* ================================================================== *)

Lemma mgrid_axis_length (start stop : R) (n : nat) :
  length (mgrid_axis start stop n) = n.
Proof. unfold mgrid_axis. now rewrite length_map, length_seq. Qed.

Lemma mgrid_axis_nth (start stop : R) (n i : nat) :
  (i < n)%nat ->
  nth i (mgrid_axis start stop n) 0
  = INR i * (if Nat.eqb n 1 then 1 else (stop - start) / (INR n - 1)) + start.
Proof.
  intros Hi. unfold mgrid_axis.
  rewrite (nth_map_in _ _ _ 0%nat) by (now rewrite length_seq).
  rewrite seq_nth by assumption. reflexivity.
Qed.

(** X25: an axis of the evaluation grid with at least two samples starts
    at the lower end of the range and ends at the upper end, both included,
    with equal steps in between; every sample lies in the range. *)
Theorem mgrid_axis_endpoints (start stop : R) (n : nat) :
  (2 <= n)%nat ->
  length (mgrid_axis start stop n) = n
  /\ nth 0 (mgrid_axis start stop n) 0 = start
  /\ nth (n - 1) (mgrid_axis start stop n) 0 = stop
  /\ (forall i, (i + 1 < n)%nat ->
        nth (i + 1) (mgrid_axis start stop n) 0 - nth i (mgrid_axis start stop n) 0
        = (stop - start) / (INR n - 1))
  /\ (start <= stop ->
      Forall (fun x => start <= x <= stop) (mgrid_axis start stop n)).
Proof.
  intros Hn.
  assert (E1 : Nat.eqb n 1 = false) by (apply Nat.eqb_neq; lia).
  assert (Pn : 0 < INR n - 1).
  { assert (H2 : INR 2 <= INR n) by (apply le_INR; lia). cbn [INR] in H2. lra. }
  split; [apply mgrid_axis_length | ].
  split; [rewrite mgrid_axis_nth by lia; cbn [INR]; ring | ].
  split.
  { rewrite mgrid_axis_nth, E1 by lia.
    rewrite minus_INR by lia. cbn [INR]. field. lra. }
  split.
  { intros i Hi. rewrite !mgrid_axis_nth, E1 by lia.
    rewrite plus_INR. cbn [INR]. field. lra. }
  intros Hs. apply Forall_forall. intros x Hx.
  apply (In_nth _ _ 0) in Hx. destruct Hx as (i & Hi & <-).
  rewrite mgrid_axis_length in Hi. rewrite mgrid_axis_nth, E1 by assumption.
  assert (I0 : 0 <= INR i) by apply pos_INR.
  assert (I1 : INR i <= INR n - 1).
  { assert (H : INR i <= INR (n - 1)) by (apply le_INR; lia).
    rewrite minus_INR in H by lia. cbn [INR] in H. exact H. }
  set (t := INR i / (INR n - 1)).
  assert (T : 0 <= t <= 1).
  { unfold t. split.
    - apply Rmult_le_pos; [assumption | ]. left. apply Rinv_0_lt_compat. exact Pn.
    - apply Rmult_le_reg_r with (INR n - 1); [exact Pn | ].
      replace (INR i / (INR n - 1) * (INR n - 1)) with (INR i) by (field; lra). lra. }
  replace (INR i * ((stop - start) / (INR n - 1)) + start)
    with (start + t * (stop - start)) by (unfold t; field; lra).
  nra.
Qed.

Lemma mgrid_axis_endpoints_witness :
  nth (3 - 1) (mgrid_axis (-1) 1 3) 0 = 1.
Proof.
  refine (proj1 (proj2 (proj2 (mgrid_axis_endpoints (-1) 1 3 _)))). lia.
Defined.

Lemma nth_flat_map_uniform {A B : Type} (f : A -> list B) (l : list A) (m i j : nat)
    (dA : A) (dB : B) :
  (forall a, length (f a) = m) -> (i < length l)%nat -> (j < m)%nat ->
  nth (i * m + j) (flat_map f l) dB = nth j (f (nth i l dA)) dB.
Proof.
  intros Hm Hi Hj. rewrite flat_map_concat_map.
  rewrite (nth_concat m); [ | | assumption].
  - f_equal. apply (nth_map_in f l i dA []). exact Hi.
  - apply Forall_forall. intros r Hr. apply in_map_iff in Hr.
    destruct Hr as [a [<- _]]. apply Hm.
Qed.

Lemma length_flat_map_uniform {A B : Type} (f : A -> list B) (l : list A) (m : nat) :
  (forall a, length (f a) = m) -> length (flat_map f l) = (length l * m)%nat.
Proof.
  intros Hm. rewrite flat_map_concat_map, (concat_length_uniform m).
  - now rewrite length_map.
  - apply Forall_forall. intros r Hr. apply in_map_iff in Hr.
    destruct Hr as [a [<- _]]. apply Hm.
Qed.

(** The rows of [xgrid]: the count, the width, and the row at each grid
    index. *)
Lemma xgrid_rows (g0 g1 g2 : nat) (a0 a1 a2 b0 b1 b2 : R) :
  nrows (xgrid (g0, g1, g2) (a0, a1, a2) (b0, b1, b2)) = (g0 * g1 * g2)%nat
  /\ wf (xgrid (g0, g1, g2) (a0, a1, a2) (b0, b1, b2))
  /\ forall i j k, (i < g0)%nat -> (j < g1)%nat -> (k < g2)%nat ->
       nth (i * (g1 * g2) + j * g2 + k)
         (rows (xgrid (g0, g1, g2) (a0, a1, a2) (b0, b1, b2))) []
       = [nth i (mgrid_axis a0 b0 g0) 0; nth j (mgrid_axis a1 b1 g1) 0;
          nth k (mgrid_axis a2 b2 g2) 0; 1].
Proof.
  unfold xgrid, nrows, wf. cbn [rows ncols].
  set (Z := mgrid_axis a2 b2 g2). set (Y := mgrid_axis a1 b1 g1).
  set (X := mgrid_axis a0 b0 g0).
  assert (LZ : length Z = g2) by apply mgrid_axis_length.
  assert (LY : length Y = g1) by apply mgrid_axis_length.
  assert (LX : length X = g0) by apply mgrid_axis_length.
  assert (L2 : forall (x y : R), length (map (fun z => [x; y; z]) Z) = g2).
  { intros x y. now rewrite length_map. }
  assert (L1 : forall x : R,
            length (flat_map (fun y => map (fun z => [x; y; z]) Z) Y) = (g1 * g2)%nat).
  { intros x. rewrite (length_flat_map_uniform _ _ g2) by (intros y; apply L2).
    now rewrite LY. }
  split; [ | split].
  - rewrite length_map, (length_flat_map_uniform _ _ (g1 * g2)%nat) by exact L1.
    rewrite LX. lia.
  - apply Forall_forall. intros r Hr. apply in_map_iff in Hr.
    destruct Hr as (p & <- & Hp). apply in_flat_map in Hp.
    destruct Hp as (x & _ & Hp). apply in_flat_map in Hp.
    destruct Hp as (y & _ & Hp). apply in_map_iff in Hp.
    destruct Hp as (z & <- & _). reflexivity.
  - intros i j k Hi Hj Hk.
    assert (B1 : (j * g2 + k < g1 * g2)%nat).
    { apply Nat.lt_le_trans with ((j + 1) * g2)%nat; [lia | ].
      apply Nat.mul_le_mono_r. lia. }
    assert (B : (i * (g1 * g2) + j * g2 + k < g0 * g1 * g2)%nat).
    { apply Nat.lt_le_trans with ((i + 1) * (g1 * g2))%nat; [lia | ].
      rewrite <- (Nat.mul_assoc g0). apply Nat.mul_le_mono_r. lia. }
    rewrite (nth_map_in (fun p => p ++ [1]) _ _ []).
    2:{ rewrite (length_flat_map_uniform _ _ (g1 * g2)%nat) by exact L1.
        rewrite LX. lia. }
    rewrite <- Nat.add_assoc.
    rewrite (nth_flat_map_uniform _ X (g1 * g2) i (j * g2 + k) 0 [])
      by (try exact L1; lia).
    rewrite (nth_flat_map_uniform _ Y g2 j k 0 []) by (try apply L2; lia).
    rewrite (nth_map_in _ Z k 0 []) by lia. reflexivity.
Qed.

(** X26: the query tensor of [eval_grid] has one row for each grid index,
    in row-major order: row [i * g1 * g2 + j * g2 + k] is the point of the
    three axes at (i, j, k) followed by the constant 1. *)
Theorem xgrid_row_major (g0 g1 g2 : nat) (prmin prmax : R * R * R) (i j k : nat) :
  (i < g0)%nat -> (j < g1)%nat -> (k < g2)%nat ->
  nrows (xgrid (g0, g1, g2) prmin prmax) = (g0 * g1 * g2)%nat
  /\ wf (xgrid (g0, g1, g2) prmin prmax)
  /\ nth (i * (g1 * g2) + j * g2 + k) (rows (xgrid (g0, g1, g2) prmin prmax)) []
     = [nth i (mgrid_axis (fst (fst prmin)) (fst (fst prmax)) g0) 0;
        nth j (mgrid_axis (snd (fst prmin)) (snd (fst prmax)) g1) 0;
        nth k (mgrid_axis (snd prmin) (snd prmax) g2) 0; 1].
Proof.
  intros Hi Hj Hk. destruct prmin as [[a0 a1] a2], prmax as [[b0 b1] b2].
  cbn [fst snd].
  destruct (xgrid_rows g0 g1 g2 a0 a1 a2 b0 b1 b2) as (H1 & H2 & H3).
  split; [exact H1 | ]. split; [exact H2 | ]. apply H3; assumption.
Qed.

Lemma xgrid_row_major_witness :
  nth (1 * (2 * 2) + 0 * 2 + 1) (rows (xgrid (2, 2, 2)%nat (0, 0, 0) (1, 1, 1))) []
  = [nth 1 (mgrid_axis 0 1 2) 0; nth 0 (mgrid_axis 0 1 2) 0;
     nth 1 (mgrid_axis 0 1 2) 0; 1].
Proof.
  refine (proj2 (proj2 (xgrid_row_major 2 2 2 (0, 0, 0) (1, 1, 1) 1 0 1 _ _ _))); lia.
Defined.

Lemma ceil_div_covers (N n : nat) : (1 <= n)%nat -> (N <= n * ((N + n - 1) / n))%nat.
Proof.
  intros Hn. pose proof (Nat.div_mod_eq (N + n - 1) n) as E.
  pose proof (Nat.mod_upper_bound (N + n - 1) n ltac:(lia)) as U. lia.
Qed.

Lemma python_slice_step {A : Type} (cs i : nat) (l : list A) :
  python_slice (i * cs) ((i + 1) * cs) l = firstn cs (skipn (i * cs) l).
Proof. unfold python_slice. f_equal. lia. Qed.

(** Consecutive slices of [cs] rows that reach the end of the list make up
    the list. *)
Lemma slices_concat {A : Type} (cs n : nat) (l : list A) :
  (length l <= n * cs)%nat ->
  concat (map (fun i => python_slice (i * cs) ((i + 1) * cs) l) (seq 0 n)) = l.
Proof.
  revert l. induction n as [ | n IH]; intros l Hl.
  - destruct l; [reflexivity | cbn in Hl; lia].
  - cbn [seq map concat]. rewrite <- seq_shift, map_map.
    rewrite python_slice_step. change (0 * cs)%nat with 0%nat. cbn [skipn].
    transitivity (firstn cs l ++ skipn cs l); [ | apply firstn_skipn]. f_equal.
    etransitivity; [ | apply (IH (skipn cs l)); rewrite length_skipn; lia].
    f_equal. apply map_ext; intros i. rewrite !python_slice_step.
    rewrite skipn_skipn.
    replace (S i * cs)%nat with (i * cs + cs)%nat by lia. reflexivity.
Qed.

Lemma bind_assoc {A B C : Type} (c : result A) (f : A -> result B) (g : B -> result C) :
  bind (bind c f) g = bind c (fun a => bind (f a) g).
Proof. destruct c; reflexivity. Qed.

(** A predictor that works row by row can be run on the pieces of its
    query set. *)
Lemma sequence_concat_rows (P : list (list R) -> result (list num))
    (S : list (list (list R))) :
  (forall R1 R2, P (R1 ++ R2) = (a <- P R1 ;; b <- P R2 ;; Ok (a ++ b))) ->
  S <> [] ->
  (ys <- sequence (map P S) ;; Ok (concat ys)) = P (concat S).
Proof.
  intros law. induction S as [ | s S IH]; intros NE; [contradiction | ].
  destruct S as [ | s' S].
  - cbn [map sequence concat bind]. rewrite app_nil_r.
    destruct (P s) as [a | e]; cbn [bind concat]; [ | reflexivity].
    now rewrite app_nil_r.
  - specialize (IH ltac:(discriminate)).
    change (concat (s :: s' :: S)) with (s ++ concat (s' :: S)).
    rewrite law, <- IH.
    change (map P (s :: s' :: S)) with (P s :: map P (s' :: S)).
    cbn [sequence]. destruct (P s) as [a | e]; cbn [bind]; [ | reflexivity].
    destruct (sequence (map P (s' :: S))) as [r | e]; reflexivity.
Qed.

(** The loop of [eval_grid] over the chunks of a query tensor. *)
Lemma predict_chunks (self : DirectKernelSolver) (c : nat) (rs : list (list R))
    (nchunks : nat) :
  (forall X, x_ self = Some X -> column_per_reference_row (kernel_ self) X) ->
  (1 <= nchunks)%nat ->
  (ygrid <- sequence
              (map (fun i =>
                      predict self
                        (mkT c (python_slice
                                  (i * ((length rs + nchunks - 1) / nchunks))
                                  ((i + 1) * ((length rs + nchunks - 1) / nchunks))
                                  rs)))
                 (seq 0 nchunks)) ;;
   Ok (concat ygrid))
  = predict self (mkT c rs).
Proof.
  intros C Hn. set (cs := ((length rs + nchunks - 1) / nchunks)%nat).
  transitivity
    (predict self
       (mkT c (concat (map (fun i => python_slice (i * cs) ((i + 1) * cs) rs)
                         (seq 0 nchunks))))).
  - rewrite <- (sequence_concat_rows (fun rs => predict self (mkT c rs))).
    + rewrite map_map. reflexivity.
    + intros R1 R2. apply predict_app. exact C.
    + destruct nchunks as [ | n]; [lia | discriminate].
  - rewrite slices_concat; [reflexivity | ].
    unfold cs. apply ceil_div_covers. exact Hn.
Qed.

(** X27: for a solver whose kernel block has one column for each training
    point, [eval_grid] in chunks returns what [eval_grid] in one call
    returns, the value or the exception: the slices of
    [ceil(N / nchunks)] rows cover every row of the grid once, in order. *)
Theorem eval_grid_chunks (self : DirectKernelSolver) (grid_size : grid_size_arg)
    (plot_range : plot_range_arg) (nchunks : nat) :
  (forall X, x_ self = Some X -> column_per_reference_row (kernel_ self) X) ->
  (1 < nchunks)%nat ->
  eval_grid (predict self) grid_size plot_range nchunks
  = eval_grid (predict self) grid_size plot_range 1.
Proof.
  intros C Hn. unfold eval_grid.
  destruct (match plot_range with
            | RangeFloat r => Ok (- r, - r, - r, (r, r, r))
            | RangeInt _ => Raise (TypeError "cannot unpack non-iterable int object")
            | RangeCorners prmin prmax => Ok (prmin, prmax)
            end) as [pr | e]; [ | reflexivity].
  cbn [bind].
  destruct (Nat.ltb_spec 1 nchunks) as [_ | F]; [ | lia].
  cbn [Nat.ltb Nat.leb]. f_equal.
  generalize (xgrid match grid_size with
                    | GridInt n => (n, n, n)
                    | GridSizes g0 g1 g2 => (g0, g1, g2)
                    end (fst pr) (snd pr)).
  intros [c rs]. cbn [ncols rows nrows]. unfold nrows. cbn [rows].
  apply predict_chunks; [exact C | lia].
Qed.

Lemma eval_grid_chunks_witness :
  eval_grid (predict (mkSolver 0 (Some [Val 1; Val 2])
                        (Some (mkT 4 [[1; 0; 0; 1]; [0; 1; 0; 1]])) ArcCosineKernel))
    (GridInt 3) (RangeFloat 1) 4
  = eval_grid (predict (mkSolver 0 (Some [Val 1; Val 2])
                          (Some (mkT 4 [[1; 0; 0; 1]; [0; 1; 0; 1]])) ArcCosineKernel))
      (GridInt 3) (RangeFloat 1) 1.
Proof.
  apply (eval_grid_chunks
           (mkSolver 0 (Some [Val 1; Val 2])
              (Some (mkT 4 [[1; 0; 0; 1]; [0; 1; 0; 1]])) ArcCosineKernel)
           (GridInt 3) (RangeFloat 1) 4).
  - intros X _. exact I.
  - lia.
Defined.

Lemma chunks_length (m n : nat) (flat : list num) : length (chunks m n flat) = n.
Proof.
  revert flat. induction n as [ | n IH]; intros flat; cbn [chunks length];
    [reflexivity | now rewrite IH].
Qed.

Lemma nth_chunks (m n : nat) (flat : list num) (i j : nat) (d : num) :
  length flat = (n * m)%nat -> (i < n)%nat -> (j < m)%nat ->
  length (nth i (chunks m n flat) []) = m
  /\ nth j (nth i (chunks m n flat) []) d = nth (i * m + j) flat d.
Proof.
  revert flat i. induction n as [ | n IH]; intros flat i L Hi Hj; [lia | ].
  cbn [chunks]. destruct i as [ | i]; cbn [nth].
  - split.
    + rewrite length_firstn. lia.
    + rewrite nth_firstn. destruct (Nat.ltb_spec j m); [reflexivity | lia].
  - destruct (IH (skipn m flat) i) as [H1 H2];
      [rewrite length_skipn; lia | lia | assumption | ].
    split; [exact H1 | ]. rewrite H2, nth_skipn. f_equal. lia.
Qed.

(** The element of a reshaped tensor at (i, j, k). *)
Lemma reshape3_nth (g0 g1 g2 : nat) (flat : list num) (i j k : nat) (d : num) :
  length flat = (g0 * g1 * g2)%nat -> (i < g0)%nat -> (j < g1)%nat -> (k < g2)%nat ->
  exists G, reshape3 (g0, g1, g2) flat = Ok G
    /\ nth k (nth j (nth i G []) []) d = nth (i * (g1 * g2) + j * g2 + k) flat d.
Proof.
  intros L Hi Hj Hk. unfold reshape3. rewrite L, Nat.eqb_refl.
  eexists. split; [reflexivity | ].
  rewrite (nth_map_in (chunks g2 g1) _ i [] []) by (now rewrite chunks_length).
  assert (L' : length flat = (g0 * (g1 * g2))%nat) by lia.
  assert (B1 : (j * g2 + k < g1 * g2)%nat).
  { apply Nat.lt_le_trans with ((j + 1) * g2)%nat; [lia | ].
    apply Nat.mul_le_mono_r. lia. }
  destruct (nth_chunks (g1 * g2) g0 flat i (j * g2 + k) d L' Hi B1) as [Lc Ec].
  destruct (nth_chunks g2 g1 (nth i (chunks (g1 * g2) g0 flat) []) j k d Lc Hj Hk)
    as [_ E].
  rewrite E, Ec. f_equal. lia.
Qed.

Lemma chunks_rows_length (m n : nat) (flat : list num) :
  length flat = (n * m)%nat -> Forall (fun r => length r = m) (chunks m n flat).
Proof.
  revert flat. induction n as [ | n IH]; intros flat L; cbn [chunks]; constructor.
  - rewrite length_firstn. lia.
  - apply IH. rewrite length_skipn. lia.
Qed.

(** The shape of a reshaped tensor. *)
Lemma reshape3_shape (g0 g1 g2 : nat) (flat : list num) :
  length flat = (g0 * g1 * g2)%nat ->
  exists G, reshape3 (g0, g1, g2) flat = Ok G
    /\ length G = g0
    /\ Forall (fun P => length P = g1 /\ Forall (fun r => length r = g2) P) G.
Proof.
  intros L. unfold reshape3. rewrite L, Nat.eqb_refl.
  eexists. split; [reflexivity | ]. split.
  - rewrite length_map. apply chunks_length.
  - apply Forall_map.
    assert (L' : length flat = (g0 * (g1 * g2))%nat) by lia.
    eapply Forall_impl; [ | apply (chunks_rows_length (g1 * g2) g0 flat L')].
    intros P HP. cbn beta in *. split; [apply chunks_length | ].
    apply chunks_rows_length. exact HP.
Qed.

(** X28: on a solver that holds training points [X] and one coefficient
    for each of them, with a kernel whose dense block has one column for
    each training point (any kernel but the spherical Laplace kernel on a
    single training point) and training points whose feature dimension
    broadcasts against the 4 columns of the grid points, [eval_grid] returns
    a grid of shape (g0, g1, g2) whose element (i, j, k) is the kernel
    expansion at the grid point (x_i, y_j, z_k, 1): the sum over the
    training points of the kernel value times the coefficient. *)
Theorem eval_grid_values (self : DirectKernelSolver) (X : tensor) (a : list num)
    (d g0 g1 g2 : nat) (prmin prmax : R * R * R) :
  x_ self = Some X -> alpha_ self = Some a -> length a = nrows X ->
  column_per_reference_row (kernel_ self) X ->
  broadcast_dim 4 (ncols X) = Ok d ->
  exists G,
    eval_grid (predict self) (GridSizes g0 g1 g2) (RangeCorners prmin prmax) 1 = Ok G
    /\ length G = g0
    /\ Forall (fun P => length P = g1 /\ Forall (fun r => length r = g2) P) G
    /\ forall i j k, (i < g0)%nat -> (j < g1)%nat -> (k < g2)%nat ->
         nth k (nth j (nth i G []) []) (Val 0)
         = bmv_row
             (map (kernel_entry (kernel_ self) d
                     [nth i (mgrid_axis (fst (fst prmin)) (fst (fst prmax)) g0) 0;
                      nth j (mgrid_axis (snd (fst prmin)) (snd (fst prmax)) g1) 0;
                      nth k (mgrid_axis (snd prmin) (snd prmax) g2) 0; 1])
                (rows X))
             a.
Proof.
  intros Hx Ha La C Hd.
  destruct prmin as [[a0 a1] a2], prmax as [[b0 b1] b2]. cbn [fst snd].
  destruct (xgrid_rows g0 g1 g2 a0 a1 a2 b0 b1 b2) as (N & W & Rw).
  unfold eval_grid. cbn [bind fst snd Nat.ltb Nat.leb].
  set (xg := xgrid (g0, g1, g2) (a0, a1, a2) (b0, b1, b2)) in *.
  assert (P : predict self xg
              = Ok (map (fun r => bmv_row (map (kernel_entry (kernel_ self) d r) (rows X)) a)
                      (rows xg))).
  { unfold predict. rewrite Hx, Ha, (direct_kernel_outer _ xg X C).
    replace (ncols xg) with 4%nat by reflexivity. rewrite Hd. cbn [bind].
    unfold bmv. cbn [bcols brows]. rewrite La, Nat.eqb_refl. f_equal.
    unfold outer. rewrite map_map. reflexivity. }
  rewrite P. cbn [bind].
  set (flat := map (fun r => bmv_row (map (kernel_entry (kernel_ self) d r) (rows X)) a)
                 (rows xg)).
  assert (LF : length flat = (g0 * g1 * g2)%nat).
  { unfold flat. rewrite length_map. exact N. }
  destruct (reshape3_shape g0 g1 g2 flat LF) as (G & HG & SG0 & SG).
  exists G. split; [exact HG | ]. split; [exact SG0 | ]. split; [exact SG | ].
  intros i j k Hi Hj Hk.
  assert (B1 : (j * g2 + k < g1 * g2)%nat).
  { apply Nat.lt_le_trans with ((j + 1) * g2)%nat; [lia | ].
    apply Nat.mul_le_mono_r. lia. }
  assert (B : (i * (g1 * g2) + j * g2 + k < g0 * g1 * g2)%nat).
  { apply Nat.lt_le_trans with ((i + 1) * (g1 * g2))%nat; [lia | ].
    rewrite <- (Nat.mul_assoc g0). apply Nat.mul_le_mono_r. lia. }
  destruct (reshape3_nth g0 g1 g2 flat i j k (Val 0) LF Hi Hj Hk) as (G' & HG' & EG).
  rewrite HG in HG'. injection HG' as <-. rewrite EG. unfold flat.
  rewrite (nth_map_in _ _ _ [] (Val 0)) by (fold (nrows xg); rewrite N; exact B).
  rewrite (Rw i j k Hi Hj Hk). reflexivity.
Qed.

Lemma eval_grid_values_witness :
  exists G,
    eval_grid (predict (mkSolver 0 (Some [Val 1; Val 2])
                          (Some (mkT 4 [[1; 0; 0; 1]; [0; 1; 0; 1]])) ArcCosineKernel))
      (GridSizes 2 2 2) (RangeCorners (0, 0, 0) (1, 1, 1)) 1 = Ok G
    /\ length G = 2%nat
    /\ nth 1 (nth 0 (nth 1 G []) []) (Val 0)
       = bmv_row
           (map (kernel_entry ArcCosineKernel 4
                   [nth 1 (mgrid_axis 0 1 2) 0; nth 0 (mgrid_axis 0 1 2) 0;
                    nth 1 (mgrid_axis 0 1 2) 0; 1])
              [[1; 0; 0; 1]; [0; 1; 0; 1]])
           [Val 1; Val 2].
Proof.
  destruct (eval_grid_values
              (mkSolver 0 (Some [Val 1; Val 2])
                 (Some (mkT 4 [[1; 0; 0; 1]; [0; 1; 0; 1]])) ArcCosineKernel)
              (mkT 4 [[1; 0; 0; 1]; [0; 1; 0; 1]]) [Val 1; Val 2] 4 2 2 2
              (0, 0, 0) (1, 1, 1)) as (G & HG & L0 & _ & HV).
  - reflexivity.
  - reflexivity.
  - reflexivity.
  - exact I.
  - reflexivity.
  - exists G. split; [exact HG | ]. split; [exact L0 | ]. apply HV; lia.
Defined.

Lemma xgrid_rows_nonzero (g : nat * nat * nat) (prmin prmax : R * R * R) :
  Forall nonzero (rows (xgrid g prmin prmax)).
Proof.
  destruct g as [[g0 g1] g2], prmin as [[a0 a1] a2], prmax as [[b0 b1] b2].
  unfold xgrid. cbn [rows]. apply Forall_forall. intros r Hr.
  apply in_map_iff in Hr. destruct Hr as (p & <- & _).
  unfold nonzero. apply Exists_app. right. constructor. lra.
Qed.

Lemma kernel_entry_finite (k : kernel) (d : nat) (u v : list R) :
  nonzero u -> nonzero v -> positive_exponent k -> is_val (kernel_entry k d u v).
Proof.
  intros Nu Nv PE. pose proof (norm_pos u Nu). pose proof (norm_pos v Nv).
  assert (NZ : norm u * norm v <> 0) by nra.
  destruct k as [ | variance | alpha gamma]; cbn [kernel_entry].
  - rewrite arccos_entry_ntk. apply ntk_entry_safe. exact NZ.
  - rewrite arccos_entry_ntk. apply ntk_entry_safe. exact NZ.
  - unfold laplace_entry. apply nmul_val_is_val, laplace_exp_safe; [exact NZ | ].
    cbn [positive_exponent] in PE. lra.
Qed.

(** X29: no row of the query tensor of [eval_grid] is the zero vector,
    its last coordinate being 1; against training points none of which is the
    zero vector, the bias column of the fitting script making them so, every
    element of the kernel block of the grid is a finite number. *)
Theorem xgrid_kernel_finite (k : kernel) (g : nat * nat * nat)
    (prmin prmax : R * R * R) (X : tensor) :
  ncols X = 4%nat -> Forall nonzero (rows X) ->
  column_per_reference_row k X -> positive_exponent k ->
  Forall nonzero (rows (xgrid g prmin prmax))
  /\ exists K, direct_kernel k (Some (xgrid g prmin prmax)) (Some X) = Ok K
       /\ all_elements is_val K.
Proof.
  intros Hc NX C PE. pose proof (xgrid_rows_nonzero g prmin prmax) as NG.
  split; [exact NG | ].
  rewrite (direct_kernel_outer k _ X C).
  replace (ncols (xgrid g prmin prmax)) with 4%nat
    by (destruct g as [[g0 g1] g2], prmin as [[a0 a1] a2], prmax as [[b0 b1] b2];
        reflexivity).
  rewrite Hc, broadcast_dim_same. cbn [bind]. eexists. split; [reflexivity | ].
  unfold all_elements. cbn [brows]. apply all_outer. intros u v Hu Hv.
  apply kernel_entry_finite; [ | | exact PE].
  - revert u Hu. apply Forall_forall. exact NG.
  - revert v Hv. apply Forall_forall. exact NX.
Qed.

Lemma xgrid_kernel_finite_witness :
  exists K,
    direct_kernel (LaplaceKernelSphere (-1) (1 / 2))
      (Some (xgrid (2, 2, 2)%nat (0, 0, 0) (1, 1, 1)))
      (Some (mkT 4 [[1; 0; 0; 1]; [0; 0; 0; 1]])) = Ok K
    /\ all_elements is_val K.
Proof.
  refine (proj2 (xgrid_kernel_finite (LaplaceKernelSphere (-1) (1 / 2)) (2, 2, 2)%nat
                   (0, 0, 0) (1, 1, 1) (mkT 4 [[1; 0; 0; 1]; [0; 0; 0; 1]]) _ _ _ _)).
  - reflexivity.
  - constructor; [left; lra | ]. constructor; [ | constructor].
    right. right. right. left. lra.
  - cbn. lia.
  - cbn. lra.
Defined.

(** X30: where a query row is the zero vector the device kernel of the
    neural tangent kernel, which never divides by a norm, writes 0, and the
    dense path, which divides the zero dot product by the zero norm, returns
    a NaN. *)
Theorem NeuralTangentKernel_zero_row (fos : string -> option R) (variance : pyval)
    (var : R) (X1 X2 : tensor) (i j : nat) :
  py_float fos variance = Ok var ->
  wf X1 -> wf X2 -> ncols X1 = ncols X2 -> launchable (nrows X1) (nrows X2) ->
  (i < nrows X1)%nat -> (j < nrows X2)%nat ->
  Forall (fun c => c = 0) (nth i (rows X1) []) ->
  exists Ks Kd,
    staged fos (NeuralTangentKernel variance) X1 X2 = Ok Ks
    /\ direct_kernel (NeuralTangentKernel variance) (Some X1) (Some X2) = Ok Kd
    /\ entry Ks i j = Val 0
    /\ entry Kd i j = Bad ZeroByZero.
Proof.
  intros Hv W1 W2 Hc L Hi Hj Z.
  rewrite (NeuralTangentKernel_staged fos variance var) by assumption.
  destruct (direct_kernel_returns (NeuralTangentKernel variance) X1 X2 (ncols X1))
    as (Kd & HK & _).
  { rewrite <- Hc. apply broadcast_dim_same. }
  exists (mkB (nrows X2)
            (outer (fun u w => Val (stable_value var u w)) (rows X1) (rows X2))), Kd.
  split; [reflexivity | ]. split; [exact HK | ]. split.
  - unfold entry. cbn [brows].
    rewrite (nth_outer_entry (fun u w => Val (stable_value var u w))) by assumption.
    rewrite stable_value_zero by assumption. reflexivity.
  - destruct (k_arccos_entry X1 X2 Kd i j HK Hi Hj) as (d & Hd & ->).
    set (u := nth i (rows X1) []) in *. set (v := nth j (rows X2) []) in *.
    rewrite <- Hc, broadcast_dim_same in Hd. injection Hd as <-.
    assert (Lu : length u = ncols X1).
    { apply wf_in; [assumption | ]. apply nth_In. exact Hi. }
    rewrite (expand_same _ u Lu), (dot_zero_l u _ Z).
    assert (N0 : norm u = 0).
    { unfold norm. rewrite (dot_zero_l u u Z). apply sqrt_0. }
    rewrite arccos_entry_ntk, ntk_entry_zero by (rewrite N0; ring).
    unfold div_fault. destruct (Req_dec_T 0 0) as [_ | N]; [reflexivity | contradiction].
Qed.

Lemma NeuralTangentKernel_zero_row_witness :
  exists Ks Kd,
    staged (fun _ => None) (NeuralTangentKernel (PyFloat 1))
      (mkT 2 [[1; 0]; [0; 0]]) (mkT 2 [[0; 1]]) = Ok Ks
    /\ direct_kernel (NeuralTangentKernel (PyFloat 1))
         (Some (mkT 2 [[1; 0]; [0; 0]])) (Some (mkT 2 [[0; 1]])) = Ok Kd
    /\ entry Ks 1 0 = Val 0
    /\ entry Kd 1 0 = Bad ZeroByZero.
Proof.
  apply (NeuralTangentKernel_zero_row (fun _ => None) (PyFloat 1) 1
           (mkT 2 [[1; 0]; [0; 0]]) (mkT 2 [[0; 1]]) 1 0).
  - reflexivity.
  - repeat constructor.
  - repeat constructor.
  - reflexivity.
  - unfold launchable, max_threads_per_block. cbn. lia.
  - cbn. lia.
  - cbn. lia.
  - repeat constructor.
Defined.
